(** * Reed-Solomon decoding over GF(2^m): a shallow embedding of
      core/src/ReedSolomonDecoder.cpp and its verification.

    Field symbols are machine integers, modelled as [Z]; polynomials are
    coefficient vectors, highest degree first, modelled as [seq Z].  The
    four functions of ReedSolomonDecoder.cpp are transcribed statement by
    statement; the field and polynomial classes they call are modelled
    from the specification. *)

From Stdlib Require Import ZArith Lia.
From HB Require Import structures.
From mathcomp Require Import ssreflect ssrfun ssrbool eqtype ssrnat seq.
From mathcomp Require Import choice fintype bigop div.

Set Implicit Arguments.
Unset Strict Implicit.
Unset Printing Implicit Defensive.

(** ** Outcomes of a call *)

(** The C++ exceptions that the modelled code can raise. *)
Inductive exn : Set :=
| length_error            (* std::vector of a negative size *)
| invalid_argument        (* division by the zero polynomial *)
| runtime_error.          (* "Division algorithm failed to reduce polynomial?" *)

(** A call returns a value, raises an exception, writes outside a vector
    (undefined behaviour in C++), or is not finished when the iteration
    bound of the model is used up. *)
Inductive outcome (A : Type) : Type :=
| Returned (a : A)
| Thrown (e : exn)
| OutOfBounds
| Unfinished.

Arguments Returned {A} a.
Arguments Thrown {A} e.
Arguments OutOfBounds {A}.
Arguments Unfinished {A}.

Definition bind {A B : Type} (m : outcome A) (k : A -> outcome B) : outcome B :=
  match m with
  | Returned a => k a
  | Thrown e => Thrown e
  | OutOfBounds => OutOfBounds
  | Unfinished => Unfinished
  end.

Notation "m >>= k" := (bind m k) (at level 58, left associativity).

(** Modelled from the spec: DecodeStatus.h is not part of the sources; the
    closed enumeration has the success value and the four uncorrectable
    outcomes that ReedSolomonDecoder.cpp returns. *)
Inductive DecodeStatus : Set :=
| NoError
| ReedSolomonAlgoFailed
| ReedSolomonBadLocation
| ReedSolomonDegreeMismatch
| ReedSolomonSigmaTildeZero.

(** Modelled from the spec: StatusIsError holds of every status but success. *)
Definition StatusIsError (s : DecodeStatus) : bool :=
  if s is NoError then false else true.

(** ** The Galois field *)

Module GenericGF.

Local Open Scope Z_scope.

(** Modelled from the spec: GenericGF.h is not part of the sources.  A field
    is its size, its primitive polynomial, its generator base and the two
    tables. *)
Record t : Set := Build {
  size : Z;
  primitive : Z;
  generatorBase : Z;
  expTable : seq Z;
  logTable : seq Z
}.

(** Modelled from the spec: addition and subtraction are bitwise XOR. *)
Definition addOrSubtract (a b : Z) : Z := Z.lxor a b.

(** Modelled from the spec: table lookup, the index reduced modulo
    [size - 1]. *)
Definition exp (f : t) (i : Z) : Z :=
  nth 0 (expTable f) (Z.to_nat (i mod (size f - 1))).

(** Modelled from the spec: table lookup; [log 0] is a contract violation
    and reads whatever the table holds there. *)
Definition log (f : t) (a : Z) : Z := nth 0 (logTable f) (Z.to_nat a).

(** Modelled from the spec: 0 if either operand is 0, otherwise
    [exp((log a + log b) mod (size - 1))]. *)
Definition multiply (f : t) (a b : Z) : Z :=
  if (a =? 0) || (b =? 0) then 0
  else exp f ((log f a + log f b) mod (size f - 1)).

(** Modelled from the spec: [exp((size - 1) - log a)]; [inverse 0] is a
    contract violation. *)
Definition inverse (f : t) (a : Z) : Z := exp f ((size f - 1) - log f a).

(** Modelled from the spec (table construction): multiply by the generator
    2 and reduce through the primitive polynomial on overflow. *)
Definition timesTwo (sz prim x : Z) : Z :=
  let y := 2 * x in if sz <=? y then Z.lxor y prim else y.

Fixpoint expFrom (sz prim : Z) (n : nat) (x : Z) : seq Z :=
  if n is n'.+1 then x :: expFrom sz prim n' (timesTwo sz prim x) else [::].

Fixpoint findIndex (a : Z) (s : seq Z) : nat :=
  if s is x :: s' then if x =? a then 0%N else (findIndex a s').+1 else 0%N.

Definition make (sz prim genBase : Z) : t :=
  let e := expFrom sz prim (Z.to_nat (sz - 1)) 1 in
  Build sz prim genBase e
    (0 :: [seq Z.of_nat (findIndex (Z.of_nat a) e) | a <- iota 1 (Z.to_nat sz - 1)]).

(** Table consistency, as a check that can be run: the size is a power of
    two, the primitive polynomial has its leading bit at [size], the
    generator base is 0 or 1, [expTable] lists the powers of 2 and has
    full period, and [logTable] is its inverse on the nonzero symbols. *)
Definition zrange (n : Z) : seq Z := [seq Z.of_nat k | k <- iota 0 (Z.to_nat n)].

Definition inField (f : t) (a : Z) : bool := (0 <=? a) && (a <? size f).

Definition wellFormed (f : t) : bool :=
  [&& 2 <=? size f,
      2 ^ Z.log2 (size f) =? size f,
      (size f <=? primitive f) && (primitive f <? 2 * size f),
      (generatorBase f =? 0) || (generatorBase f =? 1),
      (seq.size (expTable f) == Z.to_nat (size f - 1))%N,
      (seq.size (logTable f) == Z.to_nat (size f))%N,
      nth 0 (expTable f) 0 =? 1,
      all (fun i => exp f (i + 1) =? timesTwo (size f) (primitive f) (exp f i))
          (zrange (size f - 1)),
      all (fun i => (1 <=? exp f i) && (exp f i <? size f) && (log f (exp f i) =? i))
          (zrange (size f - 1))
    & all (fun a => (a =? 0) ||
                    [&& 0 <=? log f a, log f a <? size f - 1 & exp f (log f a) =? a])
          (zrange (size f))].

End GenericGF.

(** ** Polynomials over the field *)

Module GenericGFPoly.

Local Open Scope Z_scope.

Import GenericGF.

(** Modelled from the spec: GenericGFPoly.h is not part of the sources.  A
    polynomial is its coefficient sequence from the highest degree to the
    constant term, without leading zeros; the zero polynomial is [[:: 0]]. *)
Definition t : Set := seq Z.

Fixpoint stripZeros (c : seq Z) : seq Z :=
  if c is x :: c' then if x =? 0 then stripZeros c' else c else [::].

Definition normalize (c : seq Z) : t :=
  if stripZeros c is x :: s then x :: s else [:: 0].

(** Modelled from the spec: the constructor normalizes its coefficients. *)
Definition make (coefficients : seq Z) : t := normalize coefficients.

(** Modelled from the spec: the mutating constructors. *)
Definition setZero : t := [:: 0].
Definition setOne : t := [:: 1].
Definition setMonomial (deg coef : Z) : t :=
  if coef =? 0 then [:: 0] else coef :: nseq (Z.to_nat deg) 0.

(** Modelled from the spec: [degree() == length - 1]. *)
Definition degree (p : t) : Z := Z.of_nat (seq.size p) - 1.

(** Modelled from the spec: the zero polynomial has a zero leading
    coefficient. *)
Definition isZero (p : t) : bool := head 0 p =? 0.

(** Modelled from the spec: coefficient of [x^d], 0 above the degree. *)
Definition coefficient (p : t) (d : Z) : Z :=
  if degree p <? d then 0 else nth 0 p (Z.to_nat (degree p - d)).

(** Modelled from the spec: Horner's method,
    [result = multiply(result, x) XOR nextCoefficient]. *)
Definition evaluateAt (f : GenericGF.t) (p : t) (x : Z) : Z :=
  foldl (fun result c => addOrSubtract (multiply f result x) c) 0 p.

(** Modelled from the spec: termwise XOR after aligning by degree, the
    shorter operand padded with zeros on the high-degree side. *)
Definition padTo (n : nat) (p : seq Z) : seq Z := nseq (n - seq.size p) 0 ++ p.

Definition xorAligned (p q : seq Z) : seq Z :=
  let n := maxn (seq.size p) (seq.size q) in
  [seq addOrSubtract c.1 c.2 | c <- zip (padTo n p) (padTo n q)].

Definition addOrSubtract (p q : t) : t := normalize (xorAligned p q).

(** Modelled from the spec: termwise multiplication by a constant. *)
Definition multiplyScalar (f : GenericGF.t) (p : t) (scalar : Z) : t :=
  normalize [seq multiply f c scalar | c <- p].

(** Modelled from the spec: the scaled, degree-shifted polynomial
    [p * coef * x^deg] used by long division. *)
Definition multiplyByMonomial (f : GenericGF.t) (p : t) (deg coef : Z) : t :=
  normalize ([seq multiply f c coef | c <- p] ++ nseq (Z.to_nat deg) 0).

(** Modelled from the spec: full convolution; the coefficient at degree
    [i + j] accumulates [multiply(a_i, b_j)]. *)
Fixpoint convolve (f : GenericGF.t) (p q : seq Z) : seq Z :=
  if p is a :: p' then
    xorAligned ([seq multiply f a b | b <- q] ++ nseq (seq.size p') 0)
               (convolve f p' q)
  else [::].

Definition multiply (f : GenericGF.t) (p q : t) : t := normalize (convolve f p q).

(** Modelled from the spec: long division.  Each step cancels the leading
    term of the remainder; the loop runs while the remainder's degree is at
    least the divisor's and the remainder is not zero. *)
Fixpoint divideLoop (f : GenericGF.t) (fuel : nat) (other : t) (invLead : Z)
    (quotient remainder : t) : outcome (t * t) :=
  if (degree other <=? degree remainder) && ~~ isZero remainder then
    if fuel is fuel'.+1 then
      let degreeDifference := degree remainder - degree other in
      let scale :=
        GenericGF.multiply f (coefficient remainder (degree remainder)) invLead in
      divideLoop f fuel' other invLead
        (addOrSubtract quotient (setMonomial degreeDifference scale))
        (addOrSubtract remainder
           (multiplyByMonomial f other degreeDifference scale))
    else Unfinished
  else Returned (quotient, remainder).

(** [divide p other] returns the quotient and the remainder; in the source
    the remainder replaces [p] and the quotient is an out-parameter. *)
Definition divide (f : GenericGF.t) (p other : t) : outcome (t * t) :=
  if isZero other then Thrown invalid_argument
  else divideLoop f (seq.size p) other
         (inverse f (coefficient other (degree other))) setZero p.

End GenericGFPoly.

(** ** ReedSolomonDecoder.cpp *)

Local Open Scope Z_scope.

Notation poly := GenericGFPoly.t.

(** The four polynomials that the Euclidean loop works on.  The scratch
    quotient [q] is reset by every division and carries nothing from one
    iteration to the next. *)
Record euclid_state : Set := EuclidState {
  st_r : poly;
  st_rLast : poly;
  st_t : poly;
  st_tLast : poly
}.

(** What one pass through the loop body does: return from the function,
    or go round again. *)
Inductive loop_step : Set :=
| Return (status : DecodeStatus) (sigma omega : poly)
| Continue (st : euclid_state).

(** Lines 46-64: the body of [while (r.degree() >= R / 2)]. *)
Definition euclid_body (field : GenericGF.t) (st : euclid_state)
  : outcome loop_step :=
  (* swap(tLast, t); swap(rLast, r); *)
  let tLast := st_t st in
  let t := st_tLast st in
  let rLast := st_r st in
  let r := st_rLast st in
  if GenericGFPoly.isZero rLast then
    Returned (Return ReedSolomonAlgoFailed t tLast)
  else
    (* r.divide(rLast, q); *)
    GenericGFPoly.divide field r rLast >>= fun qr =>
    let q := qr.1 in
    let r := qr.2 in
    (* q.multiply(tLast); q.addOrSubtract(t); swap(t, q); *)
    let t := GenericGFPoly.addOrSubtract (GenericGFPoly.multiply field q tLast) t in
    if GenericGFPoly.degree rLast <=? GenericGFPoly.degree r then
      Thrown runtime_error
    else Returned (Continue (EuclidState r rLast t tLast)).

(** Lines 45-65: the loop, with an iteration bound. *)
Fixpoint euclid_loop (field : GenericGF.t) (R : Z) (fuel : nat)
    (st : euclid_state) : outcome loop_step :=
  if Z.quot R 2 <=? GenericGFPoly.degree (st_r st) then
    if fuel is fuel'.+1 then
      euclid_body field st >>= fun step =>
      match step with
      | Return status sigma omega => Returned (Return status sigma omega)
      | Continue st' => euclid_loop field R fuel' st'
      end
    else Unfinished
  else Returned (Continue st).

(** Lines 30-42: the state on entry of the loop. *)
Definition euclid_init (rCoefs : seq Z) (R : Z) : euclid_state :=
  let r := GenericGFPoly.make rCoefs in
  let rLast := GenericGFPoly.setMonomial R 1 in
  let tLast := GenericGFPoly.setZero in
  let t := GenericGFPoly.setOne in
  if GenericGFPoly.degree rLast <=? GenericGFPoly.degree r then
    EuclidState rLast r t tLast
  else EuclidState r rLast t tLast.

(** Lines 67-78: after the loop. *)
Definition euclid_finish (field : GenericGF.t) (st : euclid_state)
  : DecodeStatus * poly * poly :=
  let sigmaTildeAtZero := GenericGFPoly.coefficient (st_t st) 0 in
  if sigmaTildeAtZero =? 0 then
    (ReedSolomonSigmaTildeZero, st_t st, st_tLast st)
  else
    let inverse := GenericGF.inverse field sigmaTildeAtZero in
    let t := GenericGFPoly.multiplyScalar field (st_t st) inverse in
    let r := GenericGFPoly.multiplyScalar field (st_r st) inverse in
    (NoError, t, r).

(** The loop cannot run more often than [r] has coefficients, since every
    pass that does not leave the function lowers the degree of [r]. *)
Definition RunEuclideanAlgorithm (field : GenericGF.t) (rCoefs : seq Z) (R : Z)
  : outcome (DecodeStatus * poly * poly) :=
  let st := euclid_init rCoefs R in
  euclid_loop field R (size (st_r st)) st >>= fun step =>
  match step with
  | Return status sigma omega => Returned (status, sigma, omega)
  | Continue st' => Returned (euclid_finish field st')
  end.

(** [std::vector::resize]: cut, or fill up with zeros. *)
Definition resize (n : nat) (v : seq Z) : seq Z :=
  take n v ++ nseq (n - size v) 0.

(** Lines 92-97: Chien's search over the candidates [i], with the count [e]
    of roots found and the output vector. *)
Fixpoint chien_search (field : GenericGF.t) (errorLocator : poly)
    (numErrors : nat) (candidates : seq Z) (e : nat) (outLocations : seq Z)
  : nat * seq Z :=
  if candidates is i :: rest then
    if (e < numErrors)%N then
      if GenericGFPoly.evaluateAt field errorLocator i =? 0 then
        chien_search field errorLocator numErrors rest e.+1
          (set_nth 0 outLocations e (GenericGF.inverse field i))
      else chien_search field errorLocator numErrors rest e outLocations
    else (e, outLocations)
  else (e, outLocations).

(** The values of [i] in [for (int i = 1; i < field.size(); i++)]. *)
Definition nonzero_elements (field : GenericGF.t) : seq Z :=
  [seq Z.of_nat k | k <- iota 1 (Z.to_nat (GenericGF.size field) - 1)].

(** The vector right after the shortcut of lines 86-90. *)
Definition locations_shortcut (errorLocator : poly) (outLocations : seq Z)
  : seq Z :=
  let numErrors := Z.to_nat (GenericGFPoly.degree errorLocator) in
  let outLocations := resize numErrors outLocations in
  if (numErrors == 1)%N then
    set_nth 0 outLocations 0 (GenericGFPoly.coefficient errorLocator 1)
  else outLocations.

Definition FindErrorLocations (field : GenericGF.t) (errorLocator : poly)
    (outLocations : seq Z) : DecodeStatus * seq Z :=
  let numErrors := Z.to_nat (GenericGFPoly.degree errorLocator) in
  let outLocations := locations_shortcut errorLocator outLocations in
  let: (e, outLocations) :=
    chien_search field errorLocator numErrors (nonzero_elements field) 0%N
      outLocations in
  if (e != numErrors)%N then (ReedSolomonDegreeMismatch, outLocations)
  else (NoError, outLocations).

(** Line 121: [(term & 0x1) == 0 ? term | 1 : term & ~1]. *)
Definition termPlus1 (term : Z) : Z :=
  if Z.land term 1 =? 0 then Z.lor term 1 else Z.land term (Z.lnot 1).

(** Lines 113-124: the inner loop over [j]. *)
Definition forney_denominator (field : GenericGF.t) (errorLocations : seq Z)
    (i : nat) (xiInverse : Z) : Z :=
  foldl (fun denominator j =>
           if (i != j)%N then
             let term := GenericGF.multiply field (nth 0 errorLocations j) xiInverse in
             GenericGF.multiply field denominator (termPlus1 term)
           else denominator)
        1 (iota 0 (size errorLocations)).

(** Lines 112-128: the magnitude of the error at [errorLocations[i]]. *)
Definition forney_magnitude (field : GenericGF.t) (errorEvaluator : poly)
    (errorLocations : seq Z) (i : nat) : Z :=
  let xiInverse := GenericGF.inverse field (nth 0 errorLocations i) in
  let denominator := forney_denominator field errorLocations i xiInverse in
  let m := GenericGF.multiply field
             (GenericGFPoly.evaluateAt field errorEvaluator xiInverse)
             (GenericGF.inverse field denominator) in
  if GenericGF.generatorBase field =? 0 then m
  else GenericGF.multiply field m xiInverse.

Definition FindErrorMagnitudes (field : GenericGF.t) (errorEvaluator : poly)
    (errorLocations : seq Z) (outMagnitudes : seq Z) : seq Z :=
  let s := size errorLocations in
  foldl (fun out i =>
           set_nth 0 out i (forney_magnitude field errorEvaluator errorLocations i))
        (resize s outMagnitudes) (iota 0 s).

Module ReedSolomonDecoder.

(** Lines 137-145: the syndrome loop; the state is the coefficient vector
    and the flag [noError]. *)
Definition syndrome_loop (field : GenericGF.t) (p : poly) (twoS : Z)
  : seq Z * bool :=
  foldl (fun acc i =>
           let eval := GenericGFPoly.evaluateAt field p
                         (GenericGF.exp field
                            (Z.of_nat i + GenericGF.generatorBase field)) in
           (set_nth 0 acc.1 (Z.to_nat (twoS - 1 - Z.of_nat i)) eval,
            if eval =? 0 then acc.2 else false))
        (nseq (Z.to_nat twoS) 0, true) (iota 0 (Z.to_nat twoS)).

(** Lines 163-171: the corrections, one location after the other, written
    into [received]. *)
Fixpoint correct (field : GenericGF.t) (errorLocations errorMagnitudes : seq Z)
    (receivedCount : Z) (indices : seq nat) (received : seq Z)
  : outcome (DecodeStatus * seq Z) :=
  if indices is i :: rest then
    let position :=
      receivedCount - 1 - GenericGF.log field (nth 0 errorLocations i) in
    if position <? 0 then Returned (ReedSolomonBadLocation, received)
    else if position <? Z.of_nat (size received) then
      correct field errorLocations errorMagnitudes receivedCount rest
        (set_nth 0 received (Z.to_nat position)
           (GenericGF.addOrSubtract (nth 0 received (Z.to_nat position))
                                    (nth 0 errorMagnitudes i)))
    else OutOfBounds
  else Returned (NoError, received).

(** Lines 165 and 169: the correction for the location of index [i], when
    its position is in the buffer. *)
Definition write_correction (field : GenericGF.t)
    (errorLocations errorMagnitudes : seq Z) (receivedCount : Z)
    (received : seq Z) (i : nat) : seq Z :=
  let position :=
    Z.to_nat (receivedCount - 1
              - GenericGF.log field (nth 0 errorLocations i)) in
  set_nth 0 received position
    (GenericGF.addOrSubtract (nth 0 received position)
                             (nth 0 errorMagnitudes i)).

(** [decode] returns the status together with the contents of [received]
    on return. *)
Definition decode (field : GenericGF.t) (received : seq Z) (twoS : Z)
  : outcome (DecodeStatus * seq Z) :=
  if twoS <? 0 then Thrown length_error
  else
    let p := GenericGFPoly.make received in
    let: (syndromeCoefficients, noError) := syndrome_loop field p twoS in
    if noError then Returned (NoError, received)
    else
      RunEuclideanAlgorithm field syndromeCoefficients twoS >>= fun res =>
      let: (errStat, sigma, omega) := res in
      if StatusIsError errStat then Returned (errStat, received)
      else
        let: (errStat, errorLocations) :=
          FindErrorLocations field sigma [::] in
        if StatusIsError errStat then Returned (errStat, received)
        else
          let errorMagnitudes :=
            FindErrorMagnitudes field omega errorLocations [::] in
          let receivedCount := Z.of_nat (size received) in
          correct field errorLocations errorMagnitudes receivedCount
            (iota 0 (size errorLocations)) received.

End ReedSolomonDecoder.

Definition gf256 : GenericGF.t := Eval vm_compute in GenericGF.make 256 285 0.
Definition gf8 : GenericGF.t := Eval vm_compute in GenericGF.make 8 11 0.

(** * Integers as symbols *)

Lemma Z_eqP : Equality.axiom Z.eqb.
Proof. by move=> x y; apply: (iffP idP) => /Z.eqb_eq. Qed.

HB.instance Definition _ := hasDecEq.Build Z Z_eqP.

Lemma ZeqbE (a b : Z) : (a =? b) = (a == b).
Proof. by []. Qed.

Lemma zrangeP (P : Z -> bool) (n : Z) :
  all P (GenericGF.zrange n) -> forall i, 0 <= i < n -> P i.
Proof.
rewrite /GenericGF.zrange all_map => /allP H i Hi.
have := H (Z.to_nat i); rewrite mem_iota /= add0n.
have -> : Z.of_nat (Z.to_nat i) = i by lia.
by apply; apply/ltP; lia.
Qed.

Lemma nth_zrange (n : Z) (k : nat) :
  (k < Z.to_nat n)%N -> nth 0 (GenericGF.zrange n) k = Z.of_nat k.
Proof.
by move=> Hk; rewrite /GenericGF.zrange (nth_map 0%N) ?size_iota // nth_iota.
Qed.

(** ** Bits *)

Lemma testbit_one (n : Z) : 0 <= n -> Z.testbit 1 n = (n =? 0).
Proof.
move=> Hn; case: (Z.eqb_spec n 0) => [->|Hn0] //.
by apply: Z.bits_above_log2 => //=; lia.
Qed.

Lemma lxor_range (k a b : Z) :
  0 <= k -> 0 <= a < 2 ^ k -> 0 <= b < 2 ^ k -> 0 <= Z.lxor a b < 2 ^ k.
Proof.
move=> Hk Ha Hb.
have H0 : 0 <= Z.lxor a b by apply/Z.lxor_nonneg; lia.
split=> //.
case: (Z.eq_dec (Z.lxor a b) 0) => [->|Hne]; first by apply: Z.pow_pos_nonneg; lia.
apply/Z.log2_lt_pow2; first lia.
have Hl := @Z.log2_lxor a b (proj1 Ha) (proj1 Hb).
have La : a = 0 \/ Z.log2 a < k.
  by case: (Z.eq_dec a 0) => [|Ha0]; [left | right; apply/Z.log2_lt_pow2; lia].
have Lb : b = 0 \/ Z.log2 b < k.
  by case: (Z.eq_dec b 0) => [|Hb0]; [left | right; apply/Z.log2_lt_pow2; lia].
have Hk0 : 0 < k.
  case: (Z.eq_dec k 0) => [Hk0|]; last lia.
  move: Ha Hb Hne; rewrite Hk0 /= => Ha Hb.
  have -> : a = 0 by lia.
  by have -> : b = 0 by lia.
case: La => [Ea|La]; case: Lb => [Eb|Lb]; move: Hl; rewrite ?Ea ?Eb /=; lia.
Qed.

(** The branch-free toggle of the lowest bit. *)
Lemma termPlus1_lxor (v : Z) : termPlus1 v = Z.lxor 1 v.
Proof.
rewrite /termPlus1.
have Hb0 : Z.testbit (Z.land v 1) 0 = Z.testbit v 0.
  by rewrite Z.land_spec /= andbT.
case: (Z.eqb_spec (Z.land v 1) 0) => H.
- apply: Z.bits_inj' => n Hn.
  rewrite Z.lor_spec Z.lxor_spec testbit_one //.
  case: (Z.eqb_spec n 0) => [->|_]; last by rewrite orbF.
  by rewrite -Hb0 H.
- apply: Z.bits_inj' => n Hn.
  have Hv : Z.testbit v 0 = true.
    case E: (Z.testbit v 0) => //; case: H; apply: Z.bits_inj' => m Hm.
    rewrite Z.land_spec testbit_one // Z.bits_0.
    by case: (Z.eqb_spec m 0) => [->|_]; rewrite ?E ?andbF.
  rewrite Z.land_spec Z.lxor_spec Z.lnot_spec // testbit_one //.
  by case: (Z.eqb_spec n 0) => [->|_]; rewrite ?Hv ?andbT.
Qed.

(** * The field laws of a well-formed [GenericGF] *)

Section FieldFacts.

Variable f : GenericGF.t.
Hypothesis ok : GenericGF.wellFormed f.

Let sz := GenericGF.size f.
Let N := GenericGF.size f - 1.
Notation gexp := (GenericGF.exp f).
Notation glog := (GenericGF.log f).
Notation gmul := (GenericGF.multiply f).
Notation ginv := (GenericGF.inverse f).
Notation inF := (GenericGF.inField f).

Lemma inFP (a : Z) : reflect (0 <= a < sz) (inF a).
Proof.
rewrite /GenericGF.inField; apply: (iffP andP).
- by case=> /Z.leb_le ? /Z.ltb_lt ?.
- by case=> ? ?; split; [apply/Z.leb_le | apply/Z.ltb_lt].
Qed.

Lemma size_ge2 : 2 <= sz.
Proof. by case/and3P: ok => /Z.leb_le. Qed.

Lemma size_pow2 : sz = 2 ^ Z.log2 sz.
Proof. by case/and3P: ok => _ /Z.eqb_eq. Qed.

Lemma log2_size_gt0 : 0 < Z.log2 sz.
Proof. by apply: Z.log2_pos; have := size_ge2; lia. Qed.

Lemma primitive_range :
  sz <= GenericGF.primitive f < 2 * sz.
Proof.
by case/and4P: ok => _ _ /andP[/Z.leb_le ? /Z.ltb_lt ?] _.
Qed.

Lemma generatorBase01 :
  GenericGF.generatorBase f = 0 \/ GenericGF.generatorBase f = 1.
Proof.
case/and5P: ok => _ _ _ /orP[] /Z.eqb_eq -> _; by [left | right].
Qed.

Lemma N_gt0 : 0 < N.
Proof. by rewrite /N; have := size_ge2; rewrite /sz; lia. Qed.

Lemma eqmodN (a b k : Z) : a = b + k * N -> a mod N = b mod N.
Proof. by move=> ->; apply: Z.mod_add; have := N_gt0; lia. Qed.

Lemma exp_eqmod (i j : Z) : i mod N = j mod N -> gexp i = gexp j.
Proof. by rewrite /GenericGF.exp -/N => ->. Qed.

Lemma exp_mod (i : Z) : gexp (i mod N) = gexp i.
Proof. by apply: exp_eqmod; rewrite Z.mod_mod //; have := N_gt0; lia. Qed.

Lemma ok_exp (i : Z) : 0 <= i < N ->
  [/\ 1 <= gexp i < sz & glog (gexp i) = i].
Proof.
case/and5P: ok => _ _ _ _ /and5P[_ _ _ _ /andP[H _]] Hi.
by have /andP[/andP[/Z.leb_le ? /Z.ltb_lt ?] /Z.eqb_eq ?] := zrangeP H Hi.
Qed.

Lemma ok_log (a : Z) : 1 <= a < sz ->
  [/\ 0 <= glog a < N & gexp (glog a) = a].
Proof.
case/and5P: ok => _ _ _ _ /and5P[_ _ _ _ /andP[_ H]] Ha.
have Ha' : 0 <= a < GenericGF.size f by rewrite -/sz; lia.
have /orP[/Z.eqb_eq ?|] := zrangeP H Ha'; first lia.
by case/and3P => /Z.leb_le ? /Z.ltb_lt ? /Z.eqb_eq ?.
Qed.

Lemma ok_step (i : Z) : 0 <= i < N ->
  gexp (i + 1) = GenericGF.timesTwo sz (GenericGF.primitive f) (gexp i).
Proof.
case/and5P: ok => _ _ _ _ /and5P[_ _ _ H _] Hi.
by have /Z.eqb_eq := zrangeP H Hi.
Qed.

Lemma mod_range (i : Z) : 0 <= i mod N < N.
Proof. by apply: Z.mod_pos_bound; exact: N_gt0. Qed.

Lemma exp_range (i : Z) : 1 <= gexp i < sz.
Proof. by rewrite -exp_mod; case: (ok_exp (mod_range i)). Qed.

Lemma exp_neq0 (i : Z) : gexp i <> 0.
Proof. by have := exp_range i; lia. Qed.

Lemma log_exp (i : Z) : glog (gexp i) = i mod N.
Proof. by rewrite -exp_mod; case: (ok_exp (mod_range i)). Qed.

Lemma exp_log (a : Z) : 1 <= a < sz -> gexp (glog a) = a.
Proof. by case/ok_log. Qed.

Lemma log_range (a : Z) : 1 <= a < sz -> 0 <= glog a < N.
Proof. by case/ok_log. Qed.

Lemma exp_0 : gexp 0 = 1.
Proof.
case/and5P: ok => _ _ _ _ /and5P[_ _ /Z.eqb_eq H _ _].
by rewrite /GenericGF.exp Z.mod_0_l //; have := N_gt0; rewrite /N; lia.
Qed.

Lemma exp_succ (i : Z) :
  gexp (i + 1) = GenericGF.timesTwo sz (GenericGF.primitive f) (gexp i).
Proof.
rewrite -(exp_mod i) -(ok_step (mod_range i)); apply: exp_eqmod.
have HN := N_gt0; apply: (@eqmodN _ _ (i / N)).
have := Z.div_mod i N; nia.
Qed.

Lemma exp_inj (i j : Z) : gexp i = gexp j -> i mod N = j mod N.
Proof. by move=> /(congr1 glog); rewrite !log_exp. Qed.

Lemma exp_eq1 (i : Z) : gexp i = 1 -> i mod N = 0.
Proof.
rewrite -exp_0 => /exp_inj ->.
by rewrite Z.mod_0_l //; have := N_gt0; lia.
Qed.

(** ** Multiplication *)

Lemma mul0z (a : Z) : gmul 0 a = 0.
Proof. by []. Qed.

Lemma mulz0 (a : Z) : gmul a 0 = 0.
Proof. by rewrite /GenericGF.multiply orbT. Qed.

Lemma mul_exp (i j : Z) : gmul (gexp i) (gexp j) = gexp (i + j).
Proof.
rewrite /GenericGF.multiply.
have /Z.eqb_neq -> := @exp_neq0 i; have /Z.eqb_neq -> /= := @exp_neq0 j.
rewrite -/N !log_exp exp_mod; apply: exp_eqmod.
have HN := N_gt0; apply: (@eqmodN _ _ (- (i / N) - j / N)).
have := Z.div_mod i N; have := Z.div_mod j N; nia.
Qed.

Lemma inverse_exp (i : Z) : ginv (gexp i) = gexp (- i).
Proof.
rewrite /GenericGF.inverse -/N log_exp; apply: exp_eqmod.
have HN := N_gt0; apply: (@eqmodN _ _ (i / N + 1)).
have := Z.div_mod i N; nia.
Qed.

Variant nonzero_spec (a : Z) : Prop :=
  NonzeroSpec i of 0 <= i < N & a = gexp i.

Lemma nonzeroP (a : Z) : 1 <= a < sz -> nonzero_spec a.
Proof.
by move=> Ha; exists (glog a); [exact: log_range | rewrite exp_log].
Qed.

Lemma mul_range (a b : Z) : 0 <= a < sz -> 0 <= b < sz -> 0 <= gmul a b < sz.
Proof.
move=> Ha Hb; have Hs := size_ge2.
case: (Z.eq_dec a 0) => [->|Ha0]; first by rewrite mul0z; lia.
case: (Z.eq_dec b 0) => [->|Hb0]; first by rewrite mulz0; lia.
have [i _ ->] : nonzero_spec a by apply: nonzeroP; lia.
have [j _ ->] : nonzero_spec b by apply: nonzeroP; lia.
by rewrite mul_exp; have := exp_range (i + j); lia.
Qed.

Lemma mulC (a b : Z) : gmul a b = gmul b a.
Proof. by rewrite /GenericGF.multiply orbC Z.add_comm. Qed.

Lemma mul1z (a : Z) : 0 <= a < sz -> gmul 1 a = a.
Proof.
move=> Ha; case: (Z.eq_dec a 0) => [->|Ha0]; first by rewrite mulz0.
have [i _ ->] : nonzero_spec a by apply: nonzeroP; lia.
by rewrite -exp_0 mul_exp.
Qed.

Lemma mulA (a b c : Z) :
  0 <= a < sz -> 0 <= b < sz -> 0 <= c < sz ->
  gmul a (gmul b c) = gmul (gmul a b) c.
Proof.
move=> Ha Hb Hc.
case: (Z.eq_dec a 0) => [->|Ha0]; first by rewrite !mul0z.
case: (Z.eq_dec b 0) => [->|Hb0]; first by rewrite !(mul0z, mulz0).
case: (Z.eq_dec c 0) => [->|Hc0]; first by rewrite !mulz0.
have [i _ ->] : nonzero_spec a by apply: nonzeroP; lia.
have [j _ ->] : nonzero_spec b by apply: nonzeroP; lia.
have [k _ ->] : nonzero_spec c by apply: nonzeroP; lia.
by rewrite !mul_exp Z.add_assoc.
Qed.

Lemma inverse_range (a : Z) : 1 <= ginv a < sz.
Proof. exact: exp_range. Qed.

Lemma mulVz (a : Z) : 1 <= a < sz -> gmul (ginv a) a = 1.
Proof.
move=> Ha; have [i _ ->] := nonzeroP Ha.
by rewrite inverse_exp mul_exp Z.add_opp_diag_l exp_0.
Qed.

Lemma mul_eq0 (a b : Z) :
  0 <= a < sz -> 0 <= b < sz -> gmul a b = 0 -> a = 0 \/ b = 0.
Proof.
move=> Ha Hb; case: (Z.eq_dec a 0) => [|Ha0]; first by left.
case: (Z.eq_dec b 0) => [|Hb0]; first by right.
have [i _ ->] : nonzero_spec a by apply: nonzeroP; lia.
have [j _ ->] : nonzero_spec b by apply: nonzeroP; lia.
by rewrite mul_exp => /exp_neq0.
Qed.

Lemma inverse_unique (a b : Z) :
  1 <= a < sz -> 1 <= b < sz -> gmul a b = 1 -> ginv b = a.
Proof.
move=> Ha Hb.
have [i Hi ->] := nonzeroP Ha; have [j Hj ->] := nonzeroP Hb.
rewrite mul_exp inverse_exp => /exp_eq1 H; apply: exp_eqmod.
have HN := N_gt0; apply: (@eqmodN _ _ (- ((i + j) / N))).
have := Z.div_mod (i + j) N; nia.
Qed.

(** ** Distributivity: multiplying by a power of the generator is
       iterated doubling, and doubling is linear for XOR. *)

Notation dbl := (GenericGF.timesTwo sz (GenericGF.primitive f)).

Lemma top_bit (k y : Z) : 0 <= k -> 0 <= y < 2 ^ (k + 1) ->
  (2 ^ k <=? y) = Z.testbit y k.
Proof.
move=> Hk Hy; rewrite Z.testbit_eqb //.
have Hp : 0 < 2 ^ k by apply: Z.pow_pos_nonneg; lia.
have Hp1 : 2 ^ (k + 1) = 2 * 2 ^ k by rewrite Z.pow_add_r //; lia.
case: (Z.leb_spec (2 ^ k) y) => H.
- have -> : y / 2 ^ k = 1 by symmetry; apply: (Z.div_unique _ _ _ (y - 2 ^ k)); lia.
  by [].
- by rewrite Z.div_small //; lia.
Qed.

Lemma lxor_swap_mid (a b c : Z) :
  Z.lxor (Z.lxor a b) c = Z.lxor (Z.lxor a c) b.
Proof. by rewrite !Z.lxor_assoc (Z.lxor_comm b). Qed.

Lemma lxor_cancel_mid (a b c : Z) :
  Z.lxor (Z.lxor a c) (Z.lxor b c) = Z.lxor a b.
Proof.
by rewrite Z.lxor_assoc -(Z.lxor_assoc c) (Z.lxor_comm c b) Z.lxor_assoc
           Z.lxor_nilpotent Z.lxor_0_r.
Qed.

Lemma double_lxor (a b : Z) : 2 * Z.lxor a b = Z.lxor (2 * a) (2 * b).
Proof.
have E x : 2 * x = Z.shiftl x 1 by rewrite Z.shiftl_mul_pow2 //; lia.
by rewrite !E Z.shiftl_lxor.
Qed.

Lemma dbl_range (a : Z) : 0 <= a < sz -> 0 <= dbl a < sz.
Proof.
move=> Ha; rewrite /GenericGF.timesTwo.
have Hk := log2_size_gt0; have Hs := size_pow2; have Hp := primitive_range.
have Hp1 : 2 ^ (Z.log2 sz + 1) = 2 * sz by rewrite Z.pow_add_r -?Hs; lia.
case: (Z.leb_spec sz (2 * a)) => H; last lia.
have Hr : 0 <= Z.lxor (2 * a) (GenericGF.primitive f) < 2 ^ (Z.log2 sz + 1).
  by apply: lxor_range; rewrite ?Hp1; lia.
split; first lia.
have := @top_bit (Z.log2 sz) _ _ Hr; rewrite Z.lxor_spec -!top_bit ?Hp1 -?Hs; try lia.
have /Z.leb_le -> : sz <= 2 * a by [].
have /Z.leb_le -> /= : sz <= GenericGF.primitive f by lia.
by move/(_ (Z.lt_le_incl _ _ Hk)) => /Z.leb_gt.
Qed.

Lemma dbl_lxor (a b : Z) : 0 <= a < sz -> 0 <= b < sz ->
  dbl (Z.lxor a b) = Z.lxor (dbl a) (dbl b).
Proof.
move=> Ha Hb; rewrite /GenericGF.timesTwo double_lxor.
have Hk := log2_size_gt0; have Hs := size_pow2.
have Hp1 : 2 ^ (Z.log2 sz + 1) = 2 * sz by rewrite Z.pow_add_r -?Hs; lia.
have Hx : 0 <= Z.lxor (2 * a) (2 * b) < 2 ^ (Z.log2 sz + 1).
  by apply: lxor_range; rewrite ?Hp1; lia.
have T y : 0 <= y < 2 ^ (Z.log2 sz + 1) -> (sz <=? y) = Z.testbit y (Z.log2 sz).
  by move=> Hy; rewrite -top_bit -?Hs //; lia.
rewrite (T _ Hx) Z.lxor_spec -!T ?Hp1; try lia.
case: (sz <=? 2 * a); case: (sz <=? 2 * b) => //=.
- by rewrite lxor_cancel_mid.
- by rewrite lxor_swap_mid.
- by rewrite Z.lxor_assoc.
Qed.

Lemma dbl0 : dbl 0 = 0.
Proof.
rewrite /GenericGF.timesTwo /=; case: (Z.leb_spec sz 0) => //.
by have := size_ge2; lia.
Qed.

Lemma mul_exp_succ (i a : Z) : 0 <= a < sz ->
  gmul (gexp (i + 1)) a = dbl (gmul (gexp i) a).
Proof.
move=> Ha; case: (Z.eq_dec a 0) => [->|Ha0]; first by rewrite !mulz0 dbl0.
have [j _ ->] : nonzero_spec a by apply: nonzeroP; lia.
by rewrite !mul_exp -exp_succ; congr (gexp _); lia.
Qed.

Lemma mul_exp_lxor (n : nat) (a b : Z) : 0 <= a < sz -> 0 <= b < sz ->
  gmul (gexp (Z.of_nat n)) (Z.lxor a b) =
  Z.lxor (gmul (gexp (Z.of_nat n)) a) (gmul (gexp (Z.of_nat n)) b).
Proof.
move=> Ha Hb.
have Hab : 0 <= Z.lxor a b < sz.
  by rewrite size_pow2; apply: lxor_range; rewrite -?size_pow2 //; apply: Z.log2_nonneg.
elim: n => [|n IH]; first by rewrite /= exp_0 !mul1z.
rewrite Nat2Z.inj_succ -Z.add_1_r !mul_exp_succ // IH dbl_lxor //;
  by apply: mul_range => //; have := exp_range (Z.of_nat n); lia.
Qed.

Lemma mul_lxor_r (c a b : Z) : 0 <= c < sz -> 0 <= a < sz -> 0 <= b < sz ->
  gmul c (Z.lxor a b) = Z.lxor (gmul c a) (gmul c b).
Proof.
move=> Hc Ha Hb; case: (Z.eq_dec c 0) => [->|Hc0]; first by rewrite !mul0z.
have [i Hi ->] : nonzero_spec c by apply: nonzeroP; lia.
by rewrite -(Z2Nat.id i) ?mul_exp_lxor //; lia.
Qed.

Lemma lxor_inField (a b : Z) : 0 <= a < sz -> 0 <= b < sz -> 0 <= Z.lxor a b < sz.
Proof.
move=> Ha Hb; rewrite size_pow2.
by apply: lxor_range; rewrite -?size_pow2 //; apply: Z.log2_nonneg.
Qed.

End FieldFacts.

(** * Vectors *)

Lemma set_nth_nseq_cat (m : nat) (v : Z) (s : seq Z) :
  set_nth 0 (nseq m.+1 0 ++ s) m v = nseq m 0 ++ v :: s.
Proof. by elim: m => [|m IH] //=; rewrite IH. Qed.

Lemma set_nth_take_drop (s : seq Z) (i : nat) (v : Z) :
  (i < size s)%N -> set_nth 0 s i v = take i s ++ v :: drop i.+1 s.
Proof.
elim: s i => [|x s IH] [|i] //=; first by rewrite drop0.
by rewrite ltnS => /IH ->.
Qed.

Lemma size_resize (n : nat) (v : seq Z) : size (resize n v) = n.
Proof.
rewrite /resize size_cat size_nseq size_take.
case: ltnP => H; first by rewrite (eqP (ltnW H : (n - size v)%N == 0%N)) addn0.
by rewrite subnKC.
Qed.

(** * The syndrome loop *)

Section Syndromes.

Variables (field : GenericGF.t) (p : poly).

Definition syndrome_at (i : nat) : Z :=
  GenericGFPoly.evaluateAt field p
    (GenericGF.exp field (Z.of_nat i + GenericGF.generatorBase field)).

Lemma syndrome_loopE (twoS : Z) :
  ReedSolomonDecoder.syndrome_loop field p twoS =
  ([seq syndrome_at i | i <- rev (iota 0 (Z.to_nat twoS))],
   all (fun i => syndrome_at i =? 0) (iota 0 (Z.to_nat twoS))).
Proof.
rewrite /ReedSolomonDecoder.syndrome_loop.
set n := Z.to_nat twoS; set step := (X in foldl X).
have E (k : nat) : (k <= n)%N ->
    foldl step (nseq n 0, true) (iota 0 k) =
    (nseq (n - k) 0 ++ [seq syndrome_at i | i <- rev (iota 0 k)],
     all (fun i => syndrome_at i =? 0) (iota 0 k)).
  elim: k => [|k IH] Hk; first by rewrite /= subn0 cats0.
  rewrite -addn1 iotaD foldl_cat IH ?(ltnW Hk) //= add0n {1}/step /=.
  rewrite all_cat /= andbT rev_cat /= -/(syndrome_at k).
  have -> : Z.to_nat (twoS - 1 - Z.of_nat k) = (n - k.+1)%N.
    by rewrite /n; move/ltP: Hk => Hk; rewrite -minusE; lia.
  have -> : (n - k)%N = (n - k.+1).+1 by rewrite subnS prednK // subn_gt0.
  rewrite set_nth_nseq_cat addn1; congr (_, _).
  by case: (_ =? 0); rewrite ?andbT ?andbF.
by rewrite E // subnn.
Qed.

End Syndromes.

(** * Control flow of [decode] *)

Section DecodeFlow.

Variable field : GenericGF.t.

Import ReedSolomonDecoder.

Lemma correct_status locs mags n idx received s buf :
  correct field locs mags n idx received = Returned (s, buf) ->
  (s = NoError \/ s = ReedSolomonBadLocation) /\ size buf = size received.
Proof.
elim: idx received => [|i idx IH] received /=; first by case=> <- <-; split; [left|].
case: (Z.ltb_spec _ 0) => Hp; first by case=> <- <-; split; [right|].
case: (Z.ltb_spec _ (Z.of_nat (size received))) => // Hlt /IH[Hs ->].
split=> //; rewrite size_set_nth; apply/maxn_idPr/ltP; lia.
Qed.

Lemma correct_cat locs mags n idx1 idx2 received :
  correct field locs mags n (idx1 ++ idx2) received =
  match correct field locs mags n idx1 received with
  | Returned (NoError, buf) => correct field locs mags n idx2 buf
  | other => other
  end.
Proof.
elim: idx1 received => [|i idx1 IH] received //=.
by case: (_ <? 0) => //; case: (_ <? _).
Qed.

End DecodeFlow.

Section DecodeFrame.

Variable field : GenericGF.t.

Import ReedSolomonDecoder.

Lemma correct_bad_location locs mags n m c received buf :
  correct field locs mags n (iota m c) received
    = Returned (ReedSolomonBadLocation, buf) ->
  exists k : nat,
    [/\ (k < c)%N,
        correct field locs mags n (iota m k) received = Returned (NoError, buf)
      & n - 1 - GenericGF.log field (nth 0 locs (m + k)) < 0].
Proof.
elim: c m received => [|c IH] m received //=.
case: (Z.ltb_spec _ 0) => Hp.
  by case=> <-; exists 0%N; rewrite addn0.
case: (Z.ltb_spec _ (Z.of_nat (size received))) => // Hlt /IH[k [Hk Hc Hpos]].
exists k.+1; split=> //=; last by rewrite addnS -addSn.
by move/Z.ltb_ge: Hp => ->; move/Z.ltb_lt: Hlt => ->.
Qed.

Lemma correct_no_error locs mags n idx received buf :
  correct field locs mags n idx received = Returned (NoError, buf) ->
  (forall j, j \in idx ->
     0 <= n - 1 - GenericGF.log field (nth 0 locs j)
       < Z.of_nat (size received)) /\
  buf = foldl (write_correction field locs mags n) received idx.
Proof.
elim: idx received => [|i idx IH] received /=; first by case=> <-.
case: (Z.ltb_spec _ 0) => // Hp.
case: (Z.ltb_spec _ (Z.of_nat (size received))) => // Hlt /IH[Hb ->].
split=> // j; rewrite inE => /orP[/eqP -> //|/Hb].
by rewrite size_set_nth (maxn_idPr _) //; apply/ltP; lia.
Qed.

Lemma decode_statuses received twoS s buf :
  decode field received twoS = Returned (s, buf) ->
  s = ReedSolomonBadLocation \/ buf = received \/ s = NoError.
Proof.
rewrite /decode; case: (twoS <? 0) => //.
case: (syndrome_loop _ _ _) => synd [].
  by case=> _ <-; right; left.
case: (RunEuclideanAlgorithm _ _ _) => //= -[[st sigma] omega].
case: ifP => _; first by case=> _ <-; right; left.
case: (FindErrorLocations _ _ _) => st2 locs.
case: ifP => _; first by case=> _ <-; right; left.
by case/correct_status => -[] ->; [right; right | left].
Qed.

End DecodeFrame.

(** * Chien's search *)

Section Chien.

Variables (field : GenericGF.t) (sigma : poly).

Definition is_root (i : Z) : bool := GenericGFPoly.evaluateAt field sigma i =? 0.

Definition roots_in (candidates : seq Z) : seq Z := [seq i <- candidates | is_root i].

Lemma chien_search_done n candidates out :
  chien_search field sigma n candidates n out = (n, out).
Proof. by case: candidates => [|i rest] //=; rewrite ltnn. Qed.

Lemma chien_searchE n candidates e out :
  (e <= n)%N -> size out = n ->
  let found := take (n - e) (roots_in candidates) in
  chien_search field sigma n candidates e out =
  ((e + size found)%N,
   take e out ++ [seq GenericGF.inverse field i | i <- found]
     ++ drop (e + size found) out).
Proof.
elim: candidates e out => [|i rest IH] e out He Hout /=.
  by rewrite addn0 cat_take_drop.
rewrite leq_eqVlt in He; case/orP: He => [/eqP ->|He].
  by rewrite ltnn subnn take0 /= addn0 cat_take_drop.
rewrite He -/(is_root i); case Hi: (is_root i); last exact: IH (ltnW He) Hout.
have He' : (e < size out)%N by rewrite Hout.
have Hs' : size (set_nth 0 out e (GenericGF.inverse field i)) = n.
  by rewrite size_set_nth Hout; apply/maxn_idPr.
rewrite (IH _ _ He Hs').
have -> : (n - e)%N = (n - e.+1).+1 by rewrite subnS prednK // subn_gt0.
rewrite /= addSnnS; set k := size _; congr (_, _).
rewrite set_nth_take_drop // take_cat size_take He' ltnNge leqnSn /=.
rewrite subSn // subnn /= take0 -catA /=; congr (_ ++ _ :: _ ++ _).
rewrite drop_cat size_take He' ltnNge leq_addr /= addKn /= drop_drop.
by rewrite addnC addSnnS.
Qed.

Lemma size_locations_shortcut out :
  size (locations_shortcut sigma out) = Z.to_nat (GenericGFPoly.degree sigma).
Proof.
rewrite /locations_shortcut; set n := Z.to_nat _.
case: ifP => [/eqP Hn|_]; last exact: size_resize.
by rewrite size_set_nth size_resize Hn.
Qed.

Lemma FindErrorLocationsE out :
  let n := Z.to_nat (GenericGFPoly.degree sigma) in
  let roots := roots_in (nonzero_elements field) in
  FindErrorLocations field sigma out =
  (if (size roots < n)%N then ReedSolomonDegreeMismatch else NoError,
   [seq GenericGF.inverse field i | i <- take n roots]
     ++ drop (minn n (size roots)) (locations_shortcut sigma out)).
Proof.
move=> n roots; rewrite /FindErrorLocations -/n.
have Hs : size (locations_shortcut sigma out) = n.
  exact: size_locations_shortcut.
rewrite chien_searchE // subn0 take0 /= add0n size_take -/roots.
rewrite /minn; case: ltnP => H; first by rewrite eqxx /= ltnNge ltnW.
rewrite leq_eqVlt in H; case/orP: H => [/eqP H|H].
  by rewrite H eqxx ltnn.
by rewrite H neq_ltn H.
Qed.

End Chien.

(** * Passes through the Euclidean loop *)

(** The state after [k] full passes, if the loop makes that many. *)
Fixpoint euclid_iter (field : GenericGF.t) (R : Z) (k : nat)
    (st : euclid_state) : option euclid_state :=
  if k is k'.+1 then
    if Z.quot R 2 <=? GenericGFPoly.degree (st_r st) then
      if euclid_body field st is Returned (Continue st') then
        euclid_iter field R k' st'
      else None
    else None
  else Some st.

Section EuclidPasses.

Variable field : GenericGF.t.

Import GenericGFPoly.

Lemma normalize_nonempty c : normalize c <> [::].
Proof. by rewrite /normalize; case: (stripZeros c). Qed.

Lemma addOrSubtract_nonempty p q : addOrSubtract p q <> [::].
Proof. exact: normalize_nonempty. Qed.

Lemma setMonomial_nonempty d c : setMonomial d c <> [::].
Proof. by rewrite /setMonomial; case: (c =? 0). Qed.

Lemma divideLoop_nonempty fuel other invLead q r q' r' :
  r <> [::] -> divideLoop field fuel other invLead q r = Returned (q', r') ->
  r' <> [::].
Proof.
elim: fuel q r => [|fuel IH] q r Hr /=; case: ifP => _ //.
- by case=> _ <-.
- by apply: IH; exact: addOrSubtract_nonempty.
- by case=> _ <-.
Qed.

Definition state_nonempty (st : euclid_state) : Prop :=
  st_r st <> [::] /\ st_rLast st <> [::].

Lemma euclid_init_nonempty rCoefs R : state_nonempty (euclid_init rCoefs R).
Proof.
rewrite /euclid_init; case: ifP => _; split=> /=;
  by [exact: normalize_nonempty | exact: setMonomial_nonempty].
Qed.

Lemma euclid_body_continue st st' :
  euclid_body field st = Returned (Continue st') ->
  [/\ degree (st_r st') < degree (st_r st), st_rLast st' = st_r st
    & state_nonempty st -> state_nonempty st'].
Proof.
rewrite /euclid_body; case: ifP => // _.
rewrite /divide; case: ifP => //= _.
case E: (divideLoop _ _ _ _ _ _) => [[q r']| | |] //=.
case: (Z.leb_spec (degree (st_r st)) (degree r')) => // Hd [<-] /=.
split=> // -[H1 H2]; split=> //=.
exact: divideLoop_nonempty E.
Qed.

Lemma euclid_iter_loop R k st st' n :
  euclid_iter field R k st = Some st' ->
  euclid_loop field R (k + n) st = euclid_loop field R n st'.
Proof.
elim: k st => [|k IH] st /=; first by case=> ->.
case: ifP => // _; case E: (euclid_body field st) => [[|st1]| | |] //=.
exact: IH.
Qed.

Lemma euclid_iter_size R k st st' :
  state_nonempty st -> euclid_iter field R k st = Some st' ->
  state_nonempty st' /\ (k + size (st_r st') <= size (st_r st))%N.
Proof.
elim: k st => [|k IH] st Hne /=; first by case=> <-.
case: ifP => // _; case E: (euclid_body field st) => [[|st1]| | |] //=.
have [Hd _ /(_ Hne) Hne1] := euclid_body_continue E.
case/(IH _ Hne1) => Hne' Hk; split=> //.
apply: leq_trans (_ : (k.+1 + size (st_r st') <= (size (st_r st1)).+1)%N) _.
  by rewrite addSn ltnS.
by move: Hd; rewrite /degree => Hd; apply/ltP; lia.
Qed.

Lemma euclid_reaches rCoefs R k st :
  euclid_iter field R k (euclid_init rCoefs R) = Some st ->
  exists n : nat,
    euclid_loop field R (size (st_r (euclid_init rCoefs R))) (euclid_init rCoefs R)
    = euclid_loop field R n.+1 st.
Proof.
move=> Hk.
have [[Hne _] Hs] := euclid_iter_size (euclid_init_nonempty rCoefs R) Hk.
exists (size (st_r (euclid_init rCoefs R)) - k).-1.
have Hk1 : (k < size (st_r (euclid_init rCoefs R)))%N.
  apply: leq_trans Hs; rewrite -addn1 leq_add2l lt0n.
  by apply/eqP => /size0nil.
by rewrite -(euclid_iter_loop _ Hk) prednK ?subn_gt0 // subnKC // ltnW.
Qed.

End EuclidPasses.

(** * Properties of the decoder that need no field law *)

Section ControlFlow.

Variable field : GenericGF.t.

Import ReedSolomonDecoder.

Lemma euclid_loop_status R fuel st status sigma omega :
  euclid_loop field R fuel st = Returned (Return status sigma omega) ->
  status = ReedSolomonAlgoFailed.
Proof.
elim: fuel st => [|fuel IH] st /=; case: ifP => // _.
rewrite /euclid_body; case: ifP => _ /=; first by case.
case: (GenericGFPoly.divide _ _ _) => //= qr.
by case: ifP => _ //=; apply: IH.
Qed.

Lemma RunEuclideanAlgorithm_status rCoefs R status sigma omega :
  RunEuclideanAlgorithm field rCoefs R = Returned (status, sigma, omega) ->
  [\/ status = NoError, status = ReedSolomonAlgoFailed
     | status = ReedSolomonSigmaTildeZero].
Proof.
rewrite /RunEuclideanAlgorithm.
case E: (euclid_loop _ _ _ _) => [[st a b|st']| | |] //=.
  by case=> <- _ _; rewrite (euclid_loop_status E); constructor 2.
by rewrite /euclid_finish; case: ifP => _ [<- _ _]; [constructor 3 | constructor 1].
Qed.

Lemma FindErrorLocations_status sigma out status locs :
  FindErrorLocations field sigma out = (status, locs) ->
  status = NoError \/ status = ReedSolomonDegreeMismatch.
Proof.
by rewrite FindErrorLocationsE; case: ifP => _ [<- _]; [right | left].
Qed.

(** C5: the bit operation of Forney's denominator, which sets the lowest
    bit of [v] when it is clear and clears it when it is set, returns
    [addOrSubtract(1, v)], that is [v XOR 1], for every integer [v] and so
    for every field element. *)
Theorem termPlus1_is_addOrSubtract_one (v : Z) :
  termPlus1 v = GenericGF.addOrSubtract 1 v.
Proof. exact: termPlus1_lxor. Qed.

(** C3: when the [twoS] syndrome evaluations of the codeword, at
    [exp(i + generatorBase)] for [i] in [[0, twoS)], are all zero, [decode]
    returns success and the buffer is the one it was given. *)
Theorem decode_clean_codeword (received : seq Z) (twoS : Z) :
  0 <= twoS ->
  (forall i, 0 <= i < twoS ->
     GenericGFPoly.evaluateAt field (GenericGFPoly.make received)
       (GenericGF.exp field (i + GenericGF.generatorBase field)) = 0) ->
  decode field received twoS = Returned (NoError, received).
Proof.
move=> H0 Hs; rewrite /decode; have /Z.ltb_ge -> := H0.
rewrite syndrome_loopE.
have -> // : all (fun i => syndrome_at field (GenericGFPoly.make received) i =? 0)
              (iota 0 (Z.to_nat twoS)).
apply/allP => i; rewrite mem_iota add0n /= => /ltP Hi.
by apply/Z.eqb_eq/Hs; lia.
Qed.

(** C2, as amended: when [decode] returns algorithm-failed,
    sigma-tilde-zero or degree-mismatch, the buffer is as it was on entry.
    When it returns bad-location, the buffer has the length it had on
    entry, and the corrections of the locations before the first one whose
    position is negative have been applied to it: with the error locator
    and evaluator that [RunEuclideanAlgorithm] returns on the syndromes,
    the locations that [FindErrorLocations] returns and the magnitudes that
    [FindErrorMagnitudes] returns, the location of index [k] is the first
    with a negative position, and the buffer is [received] with the
    corrections of the locations of index [0] to [k - 1] written into
    it. *)
Theorem decode_failure_buffer (received : seq Z) (twoS : Z)
    (s : DecodeStatus) (buf : seq Z) :
  decode field received twoS = Returned (s, buf) ->
  (s = ReedSolomonAlgoFailed \/ s = ReedSolomonSigmaTildeZero \/
   s = ReedSolomonDegreeMismatch -> buf = received) /\
  (s = ReedSolomonBadLocation ->
   size buf = size received /\
   exists (sigma omega locs : seq Z) (k : nat),
     let mags := FindErrorMagnitudes field omega locs [::] in
     let n := Z.of_nat (size received) in
     [/\ RunEuclideanAlgorithm field
           (syndrome_loop field (GenericGFPoly.make received) twoS).1 twoS
         = Returned (NoError, sigma, omega),
         FindErrorLocations field sigma [::] = (NoError, locs),
         (k < size locs)%N /\
         n - 1 - GenericGF.log field (nth 0 locs k) < 0,
         forall j : nat, (j < k)%N ->
           0 <= n - 1 - GenericGF.log field (nth 0 locs j) < n
       & buf = foldl (write_correction field locs mags n) received
                 (iota 0 k)]).
Proof.
move=> Hd; split.
  by case: (decode_statuses Hd) => [->|[->|->]] // [|[|]].
move=> Hs; move: Hd; rewrite {}Hs /decode; case: (twoS <? 0) => //.
case: (syndrome_loop _ _ _) => synd [] //=.
case E: (RunEuclideanAlgorithm _ _ _) => [[[st sigma] omega]| | |] //=.
case: ifP => [_ [Hst]|Hst].
  by case: (RunEuclideanAlgorithm_status E); rewrite Hst.
case E2: (FindErrorLocations _ _ _) => [st2 locs].
case: ifP => [_ [Hst2]|Hst2].
  by case: (FindErrorLocations_status E2); rewrite Hst2.
move=> Hc; have [_ Hsz] := correct_status Hc; split=> //.
have [k [Hk Hok Hpos]] := correct_bad_location Hc.
have [Hb Hbuf] := correct_no_error Hok.
exists sigma, omega, locs, k; split=> //.
- by move: Hst E; case: st.
- by move: Hst2 E2; case: st2.
- by move=> j Hj; apply: Hb; rewrite mem_iota.
Qed.

(** C9: Chien's search goes through the nonzero field elements
    [1, 2, ..., size - 1] in this order, records [inverse(i)] for the roots
    [i] of sigma, at most [numErrors = sigma.degree()] of them, does nothing
    more once [numErrors] roots are recorded, and returns degree-mismatch
    exactly when sigma has fewer than [numErrors] roots among the nonzero
    elements; on success the locations are the inverses of the first
    [numErrors] roots. *)
Theorem chien_search_spec (sigma : poly) (out : seq Z) :
  let numErrors := Z.to_nat (GenericGFPoly.degree sigma) in
  let roots :=
    [seq i <- nonzero_elements field
    | GenericGFPoly.evaluateAt field sigma i =? 0] in
  [/\ size (nonzero_elements field) = (Z.to_nat (GenericGF.size field) - 1)%N /\
      forall k : nat, (k < Z.to_nat (GenericGF.size field) - 1)%N ->
        nth 0 (nonzero_elements field) k = Z.of_nat k + 1,
      forall candidates locs,
        chien_search field sigma numErrors candidates numErrors locs
        = (numErrors, locs),
      (FindErrorLocations field sigma out).1 = ReedSolomonDegreeMismatch <->
        (size roots < numErrors)%N,
      (FindErrorLocations field sigma out).1 = NoError <->
        (numErrors <= size roots)%N
    & (FindErrorLocations field sigma out).2 =
        [seq GenericGF.inverse field i | i <- take numErrors roots]
        ++ drop (minn numErrors (size roots)) (locations_shortcut sigma out)].
Proof.
move=> numErrors roots; split.
- split; first by rewrite /nonzero_elements size_map size_iota.
  move=> k Hk; rewrite /nonzero_elements (nth_map 0%N) ?size_iota //.
  by rewrite nth_iota // add1n; lia.
- by move=> candidates locs; exact: chien_search_done.
- rewrite FindErrorLocationsE /= /roots_in /is_root -/roots -/numErrors.
  by case: (_ < _)%N; split.
- rewrite leqNgt FindErrorLocationsE /= /roots_in /is_root -/roots -/numErrors.
  by case: (_ < _)%N; split.
- by rewrite FindErrorLocationsE.
Qed.

(** C8: when, in some pass of the Euclidean loop, the division leaves a
    remainder whose degree is not below the divisor's, the function raises
    the exception, and so does [decode]; no status is returned. *)
Theorem division_failure_throws (rCoefs : seq Z) (R : Z) (k : nat)
    (st : euclid_state) (q r' : poly) :
  euclid_iter field R k (euclid_init rCoefs R) = Some st ->
  Z.quot R 2 <= GenericGFPoly.degree (st_r st) ->
  ~~ GenericGFPoly.isZero (st_r st) ->
  GenericGFPoly.divide field (st_rLast st) (st_r st) = Returned (q, r') ->
  GenericGFPoly.degree (st_r st) <= GenericGFPoly.degree r' ->
  RunEuclideanAlgorithm field rCoefs R = Thrown runtime_error /\
  forall received : seq Z,
    0 <= R ->
    syndrome_loop field (GenericGFPoly.make received) R = (rCoefs, false) ->
    decode field received R = Thrown runtime_error.
Proof.
move=> Hk Hcond Hz Hdiv Hdeg.
have HR : RunEuclideanAlgorithm field rCoefs R = Thrown runtime_error.
  rewrite /RunEuclideanAlgorithm; have [n ->] := euclid_reaches Hk.
  rewrite /= /euclid_body (negbTE Hz) Hdiv /=.
  by move/Z.leb_le: Hcond => ->; move/Z.leb_le: Hdeg => ->.
split=> // received H0 Hs.
by rewrite /decode Hs HR; move/Z.ltb_ge: H0 => ->.
Qed.

End ControlFlow.

Lemma decode_failure_buffer_witness :
  let received := [:: 116; 6; 102; 118; 207; 176; 180; 235] in
  let buf := [:: 116; 6; 102; 118; 207; 244; 180; 235] in
  ReedSolomonDecoder.decode gf256 received 4
    = Returned (ReedSolomonBadLocation, buf) /\
  size buf = size received /\
  exists (sigma omega locs : seq Z) (k : nat),
    let mags := FindErrorMagnitudes gf256 omega locs [::] in
    let n := Z.of_nat (size received) in
    [/\ RunEuclideanAlgorithm gf256
          (ReedSolomonDecoder.syndrome_loop gf256
             (GenericGFPoly.make received) 4).1 4
        = Returned (NoError, sigma, omega),
        FindErrorLocations gf256 sigma [::] = (NoError, locs),
        (k < size locs)%N /\
        n - 1 - GenericGF.log gf256 (nth 0 locs k) < 0,
        forall j : nat, (j < k)%N ->
          0 <= n - 1 - GenericGF.log gf256 (nth 0 locs j) < n
      & buf = foldl (ReedSolomonDecoder.write_correction gf256 locs mags n)
                received (iota 0 k)].
Proof.
have H : ReedSolomonDecoder.decode gf256 [:: 116; 6; 102; 118; 207; 176; 180; 235] 4
         = Returned (ReedSolomonBadLocation, [:: 116; 6; 102; 118; 207; 244; 180; 235])
  by vm_compute.
split; first exact: H.
exact: (proj2 (decode_failure_buffer H) (erefl _)).
Defined.

(** The claim fails as it is stated: a bad-location return can come after
    a correction has been written. *)
Lemma decode_bad_location_partial_correction :
  ~ (forall (received : seq Z) (twoS : Z) (s : DecodeStatus) (buf : seq Z),
       ReedSolomonDecoder.decode gf256 received twoS = Returned (s, buf) ->
       StatusIsError s -> buf = received).
Proof.
move/(_ [:: 116; 6; 102; 118; 207; 176; 180; 235] 4 ReedSolomonBadLocation
        [:: 116; 6; 102; 118; 207; 244; 180; 235]).
have H : ReedSolomonDecoder.decode gf256 [:: 116; 6; 102; 118; 207; 176; 180; 235] 4
         = Returned (ReedSolomonBadLocation, [:: 116; 6; 102; 118; 207; 244; 180; 235])
  by vm_compute.
by move/(_ H isT).
Qed.

Lemma division_failure_throws_witness :
  RunEuclideanAlgorithm gf256 [:: 1] 1 = Thrown runtime_error /\
  ReedSolomonDecoder.decode gf256 [:: 1] 1 = Thrown runtime_error.
Proof.
pose st := euclid_init [:: 1] 1.
have Hk : euclid_iter gf256 1 0 st = Some st by [].
have Hc : Z.quot 1 2 <= GenericGFPoly.degree (st_r st) by [].
have Hz : ~~ GenericGFPoly.isZero (st_r st) by [].
have Hd : GenericGFPoly.divide gf256 (st_rLast st) (st_r st)
          = Returned ([:: 1; 0], [:: 0]) by [].
have Hg : GenericGFPoly.degree (st_r st) <= GenericGFPoly.degree [:: 0] by [].
have [H1 H2] := division_failure_throws Hk Hc Hz Hd Hg.
by split; [exact: H1 | apply: H2].
Defined.

(** * Error locations in a well-formed field *)

Section Locations.

Variable field : GenericGF.t.
Hypothesis ok : GenericGF.wellFormed field.

Import ReedSolomonDecoder.

Lemma mem_nonzero_elements (i : Z) :
  (i \in nonzero_elements field) = (1 <=? i) && (i <? GenericGF.size field).
Proof.
apply/mapP/andP => [[k]|[/Z.leb_le H1 /Z.ltb_lt H2]].
  rewrite mem_iota => /andP[/ltP H1 /ltP H2] ->.
  by split; [apply/Z.leb_le | apply/Z.ltb_lt]; move: H2; rewrite -plusE -minusE; lia.
exists (Z.to_nat i); last by rewrite Z2Nat.id; lia.
by rewrite mem_iota; apply/andP; split; apply/ltP; rewrite -?plusE -?minusE; lia.
Qed.

Lemma locations_from_roots (sigma : poly) (out locs : seq Z) (l : Z) :
  FindErrorLocations field sigma out = (NoError, locs) -> l \in locs ->
  exists i, [/\ 1 <= i < GenericGF.size field,
                GenericGFPoly.evaluateAt field sigma i = 0
              & l = GenericGF.inverse field i].
Proof.
rewrite FindErrorLocationsE; case: ifP => // Hn [<-].
have /minn_idPl -> : (Z.to_nat (GenericGFPoly.degree sigma)
                       <= size (roots_in field sigma (nonzero_elements field)))%N.
  by rewrite leqNgt Hn.
rewrite drop_oversize ?size_locations_shortcut //.
rewrite cats0 => /mapP[i /mem_take]; rewrite mem_filter => /andP[/Z.eqb_eq Hr].
rewrite mem_nonzero_elements => /andP[/Z.leb_le H1 /Z.ltb_lt H2] ->.
by exists i.
Qed.

Lemma correct_in_bounds locs mags idx received :
  (forall i, i \in idx -> 0 <= GenericGF.log field (nth 0 locs i)) ->
  correct field locs mags (Z.of_nat (size received)) idx received <> OutOfBounds.
Proof.
suff H n : n = size received ->
    (forall i, i \in idx -> 0 <= GenericGF.log field (nth 0 locs i)) ->
    correct field locs mags (Z.of_nat n) idx received <> OutOfBounds by exact: H.
elim: idx received => [|i idx IH] received //= Hn Hlog.
case: (Z.ltb_spec _ 0) => // Hp.
have Hl : 0 <= GenericGF.log field (nth 0 locs i) by apply: Hlog; rewrite mem_head.
case: (Z.ltb_spec _ (Z.of_nat (size received))) => [Hlt|]; last by rewrite -Hn; lia.
apply: IH => [|j Hj]; last by apply: Hlog; rewrite inE Hj orbT.
by rewrite size_set_nth Hn; symmetry; apply/maxn_idPr/ltP; lia.
Qed.

(** C10: when [FindErrorLocations] returns success, every location is a
    nonzero field element, the inverse of a nonzero element [i]; so
    [inverse(location)] and [log(location)] are called on nonzero
    arguments, [log(location)] is not negative, a position
    [receivedCount - 1 - log(location)] that passes the test
    [position >= 0] is below [receivedCount], and [decode] never writes
    outside the codeword. *)
Theorem error_locations_are_nonzero (sigma : poly) (out locs : seq Z) :
  FindErrorLocations field sigma out = (NoError, locs) ->
  (forall l, l \in locs ->
     [/\ exists2 i, 1 <= i < GenericGF.size field & l = GenericGF.inverse field i,
         1 <= l < GenericGF.size field,
         0 <= GenericGF.log field l
       & forall receivedCount : Z,
           0 <= receivedCount - 1 - GenericGF.log field l ->
           receivedCount - 1 - GenericGF.log field l < receivedCount]) /\
  (forall (mags received : seq Z),
     correct field locs mags (Z.of_nat (size received)) (iota 0 (size locs))
       received <> OutOfBounds).
Proof.
move=> Hf.
have Hl l : l \in locs ->
    [/\ exists2 i, 1 <= i < GenericGF.size field & l = GenericGF.inverse field i,
        1 <= l < GenericGF.size field & 0 <= GenericGF.log field l].
  case/(locations_from_roots Hf) => i [Hi _ ->].
  have Hr := inverse_range ok i; split=> //; first by exists i.
  by have := log_range ok Hr; lia.
split=> [l /Hl[H1 H2 H3]|mags received]; first by split=> // n; lia.
apply: correct_in_bounds => i; rewrite mem_iota add0n /= => Hi.
by have [] := Hl _ (mem_nth 0 Hi).
Qed.

(** C4: when the normalized error locator sigma, with constant term 1, has
    degree exactly 1, the single location that [FindErrorLocations] returns
    is [sigma.coefficient(1)]: the value that the shortcut stores is the
    result, and the search that follows writes the same value again. *)
Theorem single_error_location (sigma : poly) (out : seq Z) :
  GenericGFPoly.degree sigma = 1 ->
  GenericGFPoly.coefficient sigma 0 = 1 ->
  ~~ GenericGFPoly.isZero sigma ->
  all (GenericGF.inField field) sigma ->
  locations_shortcut sigma out = [:: GenericGFPoly.coefficient sigma 1] /\
  FindErrorLocations field sigma out
  = (NoError, [:: GenericGFPoly.coefficient sigma 1]).
Proof.
move=> Hd; have Hs : size sigma = 2%N by move: Hd; rewrite /GenericGFPoly.degree; lia.
case: sigma Hs {Hd} => [|c [|d [|? ?]]] // _.
rewrite /GenericGFPoly.coefficient /GenericGFPoly.isZero /= => ->.
move=> /negbTE/Z.eqb_neq Hc0 /andP[/inFP Hc _].
have Hc1 : 1 <= c < GenericGF.size field by lia.
have Hsh : locations_shortcut [:: c; 1] out = [:: c].
  rewrite /locations_shortcut /GenericGFPoly.degree /=.
  by case: out => [|x [|y out]].
split=> //; rewrite FindErrorLocationsE Hsh /GenericGFPoly.degree /=.
have -> : Pos.to_nat 1 = 1%N by [].
set roots := roots_in _ _ _.
have Hroot i : is_root field [:: c; 1] i = (GenericGF.multiply field c i =? 1).
  rewrite /is_root /GenericGFPoly.evaluateAt /= /GenericGF.addOrSubtract /=.
  apply/idP/idP => /Z.eqb_eq H; apply/Z.eqb_eq; first exact: Z.lxor_eq.
  by rewrite H.
have Hin : GenericGF.inverse field c \in roots.
  rewrite mem_filter Hroot mulC mulVz // Z.eqb_refl /= mem_nonzero_elements.
  by have [/Z.leb_le -> /Z.ltb_lt ->] := inverse_range ok c.
case Er : roots Hin => [|r rs] // _.
have : r \in roots by rewrite Er mem_head.
rewrite mem_filter Hroot mem_nonzero_elements.
case/and3P => /Z.eqb_eq Hm /Z.leb_le H1 /Z.ltb_lt H2.
by rewrite /= take0 /= (inverse_unique ok Hc1 _ Hm) // /minn; case: (rs).
Qed.

End Locations.

Lemma error_locations_are_nonzero_witness :
  FindErrorLocations gf256 [:: 128; 66; 1] [::] = (NoError, [:: 64; 2]) /\
  forall l, l \in [:: 64; 2] -> 1 <= l < 256 /\ 0 <= GenericGF.log gf256 l.
Proof.
have ok : GenericGF.wellFormed gf256 by vm_compute.
have H : FindErrorLocations gf256 [:: 128; 66; 1] [::] = (NoError, [:: 64; 2])
  by vm_compute.
split=> // l Hl.
by have [_ H1 H2 _] := proj1 (error_locations_are_nonzero ok H) l Hl.
Defined.

Lemma single_error_location_witness :
  FindErrorLocations gf256 [:: 16; 1] [::] = (NoError, [:: 16]).
Proof.
have ok : GenericGF.wellFormed gf256 by vm_compute.
have Hd : GenericGFPoly.degree [:: 16; 1] = 1 by [].
have Hc : GenericGFPoly.coefficient [:: 16; 1] 0 = 1 by [].
have Hz : ~~ GenericGFPoly.isZero [:: 16; 1] by [].
have Hf : all (GenericGF.inField gf256) [:: 16; 1] by [].
by have [_ ->] := single_error_location ok [::] Hd Hc Hz Hf.
Defined.

Lemma decode_clean_codeword_witness :
  ReedSolomonDecoder.decode gf256 [:: 64; 245; 219; 39; 202; 147; 52; 36] 4
  = Returned (NoError, [:: 64; 245; 219; 39; 202; 147; 52; 36]).
Proof.
apply: decode_clean_codeword => // i Hi.
have [->|[->|[->|->]]] : i = 0 \/ i = 1 \/ i = 2 \/ i = 3 by lia.
all: by vm_compute.
Defined.

(** * What [decode] does in every field *)

Section DecodeAlways.

Variable field : GenericGF.t.

Import ReedSolomonDecoder GenericGFPoly.

(** A coefficient vector is normalized when it has no leading zero, the
    zero polynomial [[:: 0]] apart. *)
Definition normalized (p : seq Z) : bool :=
  (size p <= 1)%N || (head 0 p != 0).

Lemma stripZeros_normalized (c : seq Z) : normalized (stripZeros c).
Proof.
elim: c => [|x c IH] //=; case: (Z.eqb_spec x 0) => // Hx.
by rewrite /normalized /=; apply/orP; right; apply/eqP.
Qed.

Lemma normalize_normalized (c : seq Z) : normalized (normalize c).
Proof.
by rewrite /normalize; have := stripZeros_normalized c; case: (stripZeros c).
Qed.

Lemma divideLoop_normalized fuel other invLead q r q' r' :
  normalized r -> divideLoop field fuel other invLead q r = Returned (q', r') ->
  normalized r'.
Proof.
elim: fuel q r => [|fuel IH] q r Hr /=; case: ifP => _ //.
- by case=> _ <-.
- by apply: IH; exact: normalize_normalized.
- by case=> _ <-.
Qed.

Lemma isZero_degree (p : seq Z) : normalized p -> isZero p -> degree p <= 0.
Proof.
rewrite /normalized /isZero /degree => /orP[/leP H _|/negbTE H /Z.eqb_eq/eqP].
  by lia.
by rewrite H.
Qed.

Definition state_normalized (st : euclid_state) : bool :=
  normalized (st_r st) && normalized (st_rLast st).

Lemma euclid_init_normalized rCoefs R : state_normalized (euclid_init rCoefs R).
Proof.
have H1 : normalized (setMonomial R 1) by rewrite /setMonomial /normalized /= orbT.
by rewrite /euclid_init /state_normalized; case: ifP => _ /=;
   rewrite H1 normalize_normalized.
Qed.

Lemma euclid_body_normalized st st' :
  state_normalized st -> euclid_body field st = Returned (Continue st') ->
  state_normalized st'.
Proof.
case/andP => Hr Hl; rewrite /euclid_body; case: ifP => // _.
rewrite /divide; case: ifP => //= _.
case E: (divideLoop _ _ _ _ _ _) => [[q r']| | |] //=.
case: ifP => // _ [<-]; rewrite /state_normalized /= Hr andbT.
exact: divideLoop_normalized E.
Qed.

(** With [R >= 2] the loop is left by its condition or by the throw, never
    by the return of line 53. *)
Lemma euclid_loop_no_return R fuel st step :
  2 <= R -> state_normalized st ->
  euclid_loop field R fuel st = Returned step ->
  exists st', step = Continue st'.
Proof.
move=> HR; elim: fuel st => [|fuel IH] st Hst /=;
  case: (Z.leb_spec (Z.quot R 2) (degree (st_r st))) => Hc //;
  try by case=> <-; exists st.
have Hq : 1 <= Z.quot R 2.
  rewrite Z.quot_div_nonneg; try lia.
  by have := Z.div_mod R 2; have := Z.mod_pos_bound R 2; lia.
case E: (euclid_body field st) => [[s a b|st1]| | |] //=; last first.
  by apply: IH; exact: euclid_body_normalized E.
move: E; rewrite /euclid_body; case: ifP => [Hz _|_].
  case/andP: Hst => Hr _; have := isZero_degree Hr Hz; lia.
by case: (divide _ _ _) => //= qr; case: ifP.
Qed.

Lemma RunEuclideanAlgorithm_not_failed rCoefs R sigma omega :
  2 <= R ->
  RunEuclideanAlgorithm field rCoefs R
  <> Returned (ReedSolomonAlgoFailed, sigma, omega).
Proof.
move=> HR; rewrite /RunEuclideanAlgorithm.
case E: (euclid_loop _ _ _ _) => [step| | |] //=.
have [st' ->] := euclid_loop_no_return HR (euclid_init_normalized rCoefs R) E.
by rewrite /euclid_finish; case: ifP.
Qed.

(** When the loop body runs on an [r] of degree 0, it returns from line 53
    or throws in line 63: no division lowers the degree below 0. *)
Lemma euclid_body_degree0 st st' :
  degree (st_r st) <= 0 -> st_rLast st <> [::] ->
  euclid_body field st <> Returned (Continue st').
Proof.
move=> Hd Hne; rewrite /euclid_body; case: ifP => // _.
rewrite /divide; case: ifP => //= _.
case E: (divideLoop _ _ _ _ _ _) => [[q r']| | |] //=.
have Hr : r' <> [::] by apply: divideLoop_nonempty E.
case: (Z.leb_spec (degree (st_r st)) (degree r')) => // Hlt _.
have /ltP Hsz : (0 < size r')%N by case: (r') Hr.
by move: Hd Hlt; rewrite /degree; lia.
Qed.

Lemma euclid_loop_S R fuel st :
  euclid_loop field R fuel.+1 st =
  if Z.quot R 2 <=? degree (st_r st) then
    euclid_body field st >>= fun step =>
    match step with
    | Return status sigma omega => Returned (Return status sigma omega)
    | Continue st' => euclid_loop field R fuel st'
    end
  else Returned (Continue st).
Proof. by []. Qed.

(** With one syndrome, which is not zero, the first division leaves a
    remainder whose degree is not below the divisor's degree 0. *)
Lemma RunEuclideanAlgorithm_one s0 res :
  s0 <> 0 -> RunEuclideanAlgorithm field [:: s0] 1 <> Returned res.
Proof.
move=> /Z.eqb_neq Hs.
have Einit : euclid_init [:: s0] 1
             = EuclidState [:: s0] (setMonomial 1 1) setOne setZero.
  by rewrite /euclid_init /make /normalize /= Hs.
rewrite /RunEuclideanAlgorithm Einit [size _]/= euclid_loop_S.
have -> : (Z.quot 1 2 <=? degree (st_r (EuclidState [:: s0] (setMonomial 1 1)
                                          setOne setZero))) = true by [].
set st := EuclidState _ _ _ _.
case E: (euclid_body field st) => [[s a b|st1]| | |] //=.
  move: E; rewrite /euclid_body [isZero _]/= /isZero /= Hs.
  by case: (divide _ _ _) => //= qr; case: ifP.
by case: (@euclid_body_degree0 st st1 _ _ E).
Qed.

(** X8: [decode] does not change the number of symbols of [received]. *)
Theorem decode_preserves_length received twoS s buf :
  decode field received twoS = Returned (s, buf) -> size buf = size received.
Proof.
rewrite /decode; case: (twoS <? 0) => //.
case: (syndrome_loop _ _ _) => synd [].
  by case=> _ <-.
case: (RunEuclideanAlgorithm _ _ _) => //= -[[st sigma] omega].
case: ifP => _; first by case=> _ <-.
case: (FindErrorLocations _ _ _) => st2 locs.
case: ifP => _; first by case=> _ <-.
by case/correct_status.
Qed.

(** X7: [decode] never returns the status [ReedSolomonAlgoFailed]: when the
    Euclidean algorithm is run, some syndrome is not zero, and the
    remainder tested in line 50 is not zero. *)
Theorem decode_never_algo_failed received twoS s buf :
  decode field received twoS = Returned (s, buf) ->
  s <> ReedSolomonAlgoFailed.
Proof.
rewrite /decode; case: (Z.ltb_spec twoS 0) => // HtwoS.
rewrite syndrome_loopE; case Hall: (all _ _); first by case=> <-.
case E: (RunEuclideanAlgorithm _ _ _) => [[[st sigma] omega]| | |] //=.
have Hst : st <> ReedSolomonAlgoFailed.
  move=> Est; move: E; rewrite Est.
  case: (Z.le_gt_cases 2 twoS) => H2.
    exact: RunEuclideanAlgorithm_not_failed.
  have [E0|E1] : twoS = 0 \/ twoS = 1 by lia.
    by move: Hall; rewrite E0.
  move: Hall; rewrite E1 /= andbT => /Z.eqb_neq Hs.
  exact: RunEuclideanAlgorithm_one.
case: ifP => _; first by case=> <-.
case El: (FindErrorLocations _ _ _) => [st2 locs].
case: ifP => _.
  by case=> <- _; case: (FindErrorLocations_status El) => ->.
by case/correct_status => -[] ->.
Qed.

End DecodeAlways.

Lemma decode_preserves_length_witness :
  size [:: 116; 6; 102; 118; 207; 244; 180; 235]
  = size [:: 116; 6; 102; 118; 207; 176; 180; 235].
Proof.
apply: (@decode_preserves_length gf256 _ 4 ReedSolomonBadLocation).
by vm_compute.
Defined.

Lemma decode_never_algo_failed_witness :
  ReedSolomonDecoder.decode gf256 [:: 64; 84; 219; 39; 202; 96; 52; 178] 4
  = Returned (ReedSolomonDegreeMismatch, [:: 64; 84; 219; 39; 202; 96; 52; 178]) /\
  ReedSolomonDegreeMismatch <> ReedSolomonAlgoFailed.
Proof.
have H : ReedSolomonDecoder.decode gf256 [:: 64; 84; 219; 39; 202; 96; 52; 178] 4
         = Returned (ReedSolomonDegreeMismatch,
                     [:: 64; 84; 219; 39; 202; 96; 52; 178]) by vm_compute.
by split; [exact: H | exact: (decode_never_algo_failed H)].
Defined.

From mathcomp Require Import ssralg poly polydiv ring_tactic.

(** * The field of symbols as an algebraic structure *)

Definition Z_code (z : Z) : bool * nat := (z <? 0, Z.to_nat (Z.abs z)).
Definition Z_decode (c : bool * nat) : Z :=
  if c.1 then - Z.of_nat c.2 else Z.of_nat c.2.

Lemma Z_codeK : cancel Z_code Z_decode.
Proof.
by move=> z; rewrite /Z_code /Z_decode /=; case: (Z.ltb_spec z 0) => H; lia.
Qed.

HB.instance Definition _ := CanHasChoice Z_codeK.

Section Symbols.

Variable f : GenericGF.t.
Hypothesis ok : GenericGF.wellFormed f.

Record symbol : Type := Symbol {
  sval_of : Z;
  _ : GenericGF.inField f sval_of
}.

HB.instance Definition _ := [isSub for sval_of].
HB.instance Definition _ := [Choice of symbol by <:].

Lemma symbol_range (x : symbol) : 0 <= val x < GenericGF.size f.
Proof. by apply/inFP; case: x. Qed.

Lemma zero_in : GenericGF.inField f 0.
Proof. by apply/inFP; have := size_ge2 ok; lia. Qed.

Lemma one_in : GenericGF.inField f 1.
Proof. by apply/inFP; have := size_ge2 ok; lia. Qed.

Lemma add_in (x y : symbol) :
  GenericGF.inField f (GenericGF.addOrSubtract (val x) (val y)).
Proof. by apply/inFP/lxor_inField => //; exact: symbol_range. Qed.

Lemma mul_in (x y : symbol) :
  GenericGF.inField f (GenericGF.multiply f (val x) (val y)).
Proof. by apply/inFP/mul_range => //; exact: symbol_range. Qed.

Lemma inv_in (x : symbol) :
  GenericGF.inField f (if val x == 0 then 0 else GenericGF.inverse f (val x)).
Proof.
case: ifP => _; first exact: zero_in.
by apply/inFP; have := inverse_range ok (val x); lia.
Qed.

Definition sym0 : symbol := Symbol zero_in.
Definition sym1 : symbol := Symbol one_in.
Definition sym_add (x y : symbol) : symbol := Symbol (add_in x y).
Definition sym_mul (x y : symbol) : symbol := Symbol (mul_in x y).
Definition sym_inv (x : symbol) : symbol := Symbol (inv_in x).

Lemma sym_addA : associative sym_add.
Proof. by move=> x y z; apply: val_inj; symmetry; exact: Z.lxor_assoc. Qed.

Lemma sym_addC : commutative sym_add.
Proof. by move=> x y; apply: val_inj; exact: Z.lxor_comm. Qed.

Lemma sym_add0 : left_id sym0 sym_add.
Proof. by move=> x; apply: val_inj; exact: Z.lxor_0_l. Qed.

Lemma sym_addN : left_inverse sym0 id sym_add.
Proof. by move=> x; apply: val_inj; exact: Z.lxor_nilpotent. Qed.

HB.instance Definition _ :=
  GRing.isZmodule.Build symbol sym_addA sym_addC sym_add0 sym_addN.

Lemma sym_mulA : associative sym_mul.
Proof. by move=> x y z; apply: val_inj; rewrite /= mulA //; exact: symbol_range. Qed.

Lemma sym_mulC : commutative sym_mul.
Proof. by move=> x y; apply: val_inj; rewrite /= mulC. Qed.

Lemma sym_mul1 : left_id sym1 sym_mul.
Proof. by move=> x; apply: val_inj; rewrite /= mul1z //; exact: symbol_range. Qed.

Lemma sym_mulDl : left_distributive sym_mul sym_add.
Proof.
move=> x y z; apply: val_inj; rewrite /= !(mulC f _ (val z)).
by rewrite mul_lxor_r //; exact: symbol_range.
Qed.

Lemma sym1_neq0 : sym1 != sym0.
Proof. by []. Qed.

HB.instance Definition _ :=
  GRing.Zmodule_isComNzRing.Build symbol
    sym_mulA sym_mulC sym_mul1 sym_mulDl sym1_neq0.

Lemma sym_mulV (x : symbol) : x != sym0 -> sym_mul (sym_inv x) x = sym1.
Proof.
move=> Hx; apply: val_inj; rewrite /= (negbTE (Hx : val x != 0)).
have := symbol_range x; move/eqP: Hx => Hx Hr.
have Hx0 : val x <> 0 by move=> H; apply: Hx; apply: val_inj.
by apply: mulVz => //; move: Hr Hx0 => /=; lia.
Qed.

Lemma sym_inv0 : sym_inv sym0 = sym0.
Proof. exact: val_inj. Qed.

HB.instance Definition _ :=
  GRing.ComNzRing_isField.Build symbol sym_mulV sym_inv0.

(** ** Polynomials: the coefficient vectors of the code and {poly symbol} *)

Import GRing.Theory.
Local Open Scope ring_scope.

Notation inF := (GenericGF.inField f).

Definition sym (a : Z) : symbol := insubd (0 : symbol) a.

Lemma symK (a : Z) : inF a -> val (sym a) = a.
Proof. by move=> Ha; rewrite /sym val_insubd Ha. Qed.

Lemma sval_symK (a : Z) : inF a -> sval_of (sym a) = a.
Proof. exact: symK. Qed.

Lemma valK' (x : symbol) : sym (val x) = x.
Proof. exact: valKd. Qed.

Lemma val_in (x : symbol) : inF (val x).
Proof. exact: valP. Qed.

Lemma sym0E : sym 0%Z = 0.
Proof. by apply: val_inj; rewrite symK // zero_in. Qed.

Lemma sym_eq0 (a : Z) : inF a -> (sym a == 0) = (a == 0%Z).
Proof. by move=> Ha; rewrite -val_eqE /= symK. Qed.

Lemma val_eq0 (x : symbol) : (val x == 0%Z) = (x == 0).
Proof. by rewrite -val_eqE. Qed.

Lemma val0 : val (0 : symbol) = 0%Z.
Proof. by []. Qed.

Lemma val1 : val (1 : symbol) = 1%Z.
Proof. by []. Qed.

Lemma valD (x y : symbol) : val (x + y) = Z.lxor (val x) (val y).
Proof. by []. Qed.

Lemma valM (x y : symbol) : val (x * y) = GenericGF.multiply f (val x) (val y).
Proof. by []. Qed.

Lemma valV (x : symbol) : x != 0 -> val x^-1 = GenericGF.inverse f (val x).
Proof. by rewrite -val_eq0 => /negbTE /= ->. Qed.

Lemma symD (a b : Z) : inF a -> inF b -> sym (Z.lxor a b) = sym a + sym b.
Proof.
move=> Ha Hb; apply: val_inj; rewrite valD !symK //.
by apply/inFP/lxor_inField => //; apply/inFP.
Qed.

Lemma symM (a b : Z) : inF a -> inF b ->
  sym (GenericGF.multiply f a b) = sym a * sym b.
Proof.
move=> Ha Hb; apply: val_inj; rewrite valM !symK //.
by apply/inFP/mul_range => //; apply/inFP.
Qed.

(** Addition is its own inverse. *)
Lemma sym_oppE (x : symbol) : - x = x.
Proof. by []. Qed.

Lemma sym_addxx (x : symbol) : x + x = 0.
Proof. by rewrite -{2}[x]sym_oppE subrr. Qed.

Lemma poly_oppE (p : {poly symbol}) : - p = p.
Proof. by apply/polyP => i; rewrite coefN sym_oppE. Qed.

Lemma poly_addxx (p : {poly symbol}) : p + p = 0.
Proof. by rewrite -{2}[p]poly_oppE subrr. Qed.

Lemma sym_subE (x y : symbol) : x - y = x + y.
Proof. by []. Qed.

Lemma poly_subE (p q : {poly symbol}) : p - q = p + q.
Proof. by rewrite poly_oppE. Qed.

(** The polynomial that a coefficient vector stands for. *)
Definition abs (l : seq Z) : {poly symbol} := Poly (rev [seq sym a | a <- l]).

(** The coefficient vector of a polynomial. *)
Definition rep (p : {poly symbol}) : seq Z :=
  if p == 0 then [:: 0%Z] else rev [seq val c | c <- p].

Lemma abs_nil : abs [::] = 0.
Proof. by rewrite /abs. Qed.

Lemma Poly_rcons (s : seq symbol) (a : symbol) :
  Poly (rcons s a) = Poly s + a *: 'X^(size s).
Proof.
apply/polyP => i; rewrite coefD coefZ coefXn !coef_Poly nth_rcons.
case: ltngtP => Hi; rewrite ?mulr0 ?addr0 ?mulr1 //.
  by rewrite nth_default // ltnW.
by rewrite nth_default ?add0r // Hi.
Qed.

Lemma abs_cons (a : Z) (l : seq Z) :
  abs (a :: l) = sym a *: 'X^(size l) + abs l.
Proof. by rewrite /abs /= rev_cons Poly_rcons size_rev size_map addrC. Qed.

Lemma abs_cat (l1 l2 : seq Z) :
  abs (l1 ++ l2) = abs l1 * 'X^(size l2) + abs l2.
Proof.
elim: l1 => [|a l1 IH]; first by rewrite abs_nil mul0r add0r.
rewrite /= !abs_cons IH size_cat mulrDl addrA exprD.
by rewrite -scalerAl.
Qed.

Lemma abs_nseq0 (n : nat) : abs (nseq n 0%Z) = 0.
Proof.
by elim: n => [|n IH] //=; rewrite abs_cons IH sym0E scale0r addr0.
Qed.

Lemma absK (p : {poly symbol}) : abs (rep p) = p.
Proof.
rewrite /rep; case: eqP => [->|_].
  by rewrite abs_cons abs_nil sym0E scale0r addr0.
rewrite /abs map_rev revK -map_comp (@eq_map _ _ _ id) ?map_id ?polyseqK //.
exact: valK'.
Qed.

Lemma rep_inF (p : {poly symbol}) : all inF (rep p).
Proof.
rewrite /rep; case: ifP => _; first by rewrite /= zero_in.
by rewrite all_rev all_map; apply/allP => c _ /=; exact: val_in.
Qed.

Lemma rep_abs (l : seq Z) : all inF l -> rep (abs l) = GenericGFPoly.normalize l.
Proof.
elim: l => [|a l IH] /=; first by rewrite abs_nil /rep eqxx.
case/andP => Ha Hl; rewrite /GenericGFPoly.normalize /=.
case: (Z.eqb_spec a 0) => [->|Ha0].
  by rewrite abs_cons sym0E scale0r add0r IH.
have Hs : sym a != 0 by rewrite sym_eq0 //; apply/eqP.
have Hp : polyseq (abs (a :: l)) = rev [seq sym b | b <- a :: l].
  by apply: (@PolyK _ 0); rewrite /= rev_cons last_rcons.
have Hne : abs (a :: l) != 0 by rewrite -size_poly_eq0 Hp size_rev.
rewrite /rep (negbTE Hne) Hp map_rev revK -map_comp -[RHS]map_id.
apply/eq_in_map => b Hb /=; apply: symK.
by move: Hb; rewrite inE => /orP[/eqP ->|/(allP Hl)].
Qed.

Lemma rep_nonempty (p : {poly symbol}) : rep p <> [::].
Proof.
rewrite /rep; case: eqP => // /eqP; rewrite -size_poly_eq0 => Hp.
by move/(congr1 size); rewrite size_rev size_map /= => /eqP; rewrite (negbTE Hp).
Qed.

Lemma size_rep (p : {poly symbol}) : size (rep p) = (size p).-1.+1.
Proof.
rewrite /rep; case: eqP => [->|/eqP]; first by rewrite size_poly0.
by rewrite -size_poly_gt0 size_rev size_map => /prednK.
Qed.

Lemma rep_normalized (p : {poly symbol}) : GenericGFPoly.normalize (rep p) = rep p.
Proof. by rewrite -rep_abs ?rep_inF // absK. Qed.

Lemma abs_normalize (l : seq Z) :
  all inF l -> abs (GenericGFPoly.normalize l) = abs l.
Proof. by move=> Hl; rewrite -rep_abs // absK. Qed.

Lemma rep0 : rep 0 = [:: 0%Z].
Proof. by rewrite /rep eqxx. Qed.

Lemma rep_inj : injective rep.
Proof. exact: can_inj absK. Qed.

(** ** The operations of GenericGFPoly on coefficient vectors *)

Import GenericGFPoly.

Lemma degree_rep (p : {poly symbol}) : degree (rep p) = Z.of_nat (size p).-1.
Proof. by rewrite /degree size_rep; lia. Qed.

Lemma size_rep_gt0 (p : {poly symbol}) : (0 < size (rep p))%N.
Proof. by rewrite size_rep. Qed.

Lemma head_rep (p : {poly symbol}) : head 0%Z (rep p) = val (lead_coef p).
Proof.
rewrite /rep; case: eqP => [->|_]; first by rewrite lead_coef0.
have Hrev (s : seq Z) : head 0%Z (rev s) = last 0%Z s.
  by case/lastP: s => [|s x] //; rewrite rev_rcons last_rcons.
by rewrite Hrev -val0 last_map lead_coefE nth_last.
Qed.

Lemma isZero_rep (p : {poly symbol}) : isZero (rep p) = (p == 0).
Proof. by rewrite /isZero head_rep -lead_coef_eq0 -val_eq0. Qed.

Lemma nth_rep (p : {poly symbol}) (i : nat) :
  (i < size (rep p))%N -> nth 0%Z (rep p) i = val p`_((size p).-1 - i).
Proof.
rewrite /rep; case: eqP => [->|/eqP Hp].
  by case: i => //= _; rewrite coef0.
rewrite size_rev size_map => Hi.
rewrite nth_rev ?size_map // (nth_map 0) ?subnS ?predn_sub //.
by apply: leq_ltn_trans (leq_subr _ _) _; rewrite ltn_predL (leq_trans _ Hi).
Qed.

Lemma coefficient_rep (p : {poly symbol}) (i : nat) :
  coefficient (rep p) (Z.of_nat i) = val p`_i.
Proof.
rewrite /coefficient degree_rep.
case: (Z.ltb_spec (Z.of_nat (size p).-1) (Z.of_nat i)) => Hi.
  rewrite nth_default //; apply/leP.
  by move: Hi; case: (size p) => [|n] /=; lia.
have Hi' : (i <= (size p).-1)%N by apply/leP; lia.
have -> : Z.to_nat (Z.of_nat (size p).-1 - Z.of_nat i) = ((size p).-1 - i)%N.
  by rewrite -minusE; lia.
have Hlt : ((size p).-1 - i < size (rep p))%N by rewrite size_rep ltnS leq_subr.
by rewrite (nth_rep Hlt) subKn.
Qed.

Lemma lead_rep (p : {poly symbol}) :
  coefficient (rep p) (degree (rep p)) = val (lead_coef p).
Proof. by rewrite degree_rep coefficient_rep lead_coefE. Qed.

Lemma evaluateAt_abs (l : seq Z) (a : Z) : all inF l -> inF a ->
  evaluateAt f l a = val (abs l).[sym a].
Proof.
move=> Hl Ha; rewrite /evaluateAt.
elim/last_ind: l Hl => [|l c IH]; first by rewrite abs_nil horner0.
rewrite all_rcons => /andP[Hc Hl]; rewrite -cats1 foldl_cat /= IH //.
rewrite abs_cat abs_cons abs_nil /= expr1 expr0 addr0 !hornerE /=.
by rewrite !sval_symK.
Qed.

Lemma evaluateAt_rep (p : {poly symbol}) (x : symbol) :
  evaluateAt f (rep p) (val x) = val p.[x].
Proof. by rewrite evaluateAt_abs ?rep_inF ?val_in // absK valK'. Qed.

Lemma abs_zip_xor (l1 l2 : seq Z) :
  size l1 = size l2 -> all inF l1 -> all inF l2 ->
  abs [seq GenericGF.addOrSubtract c.1 c.2 | c <- zip l1 l2] = abs l1 + abs l2.
Proof.
elim: l1 l2 => [|a l1 IH] [|b l2] //=; first by rewrite abs_nil addr0.
case=> Hs /andP[Ha H1] /andP[Hb H2].
rewrite !abs_cons IH // size_map size_zip Hs minnn symD // scalerDl.
by rewrite addrACA.
Qed.

Lemma inF_zip_xor (l1 l2 : seq Z) :
  all inF l1 -> all inF l2 ->
  all inF [seq GenericGF.addOrSubtract c.1 c.2 | c <- zip l1 l2].
Proof.
elim: l1 l2 => [|a l1 IH] [|b l2] //= /andP[Ha H1] /andP[Hb H2].
rewrite IH // andbT.
by apply/inFP/lxor_inField => //; apply/inFP.
Qed.

Lemma inF_nseq0 (n : nat) : all inF (nseq n 0%Z).
Proof. by rewrite all_nseq zero_in orbT. Qed.

Lemma inF_padTo (n : nat) (p : seq Z) : all inF p -> all inF (padTo n p).
Proof. by move=> Hp; rewrite /padTo all_cat inF_nseq0. Qed.

Lemma abs_padTo (n : nat) (p : seq Z) : abs (padTo n p) = abs p.
Proof. by rewrite /padTo abs_cat abs_nseq0 mul0r add0r. Qed.

Lemma size_padTo (n : nat) (p : seq Z) :
  (size p <= n)%N -> size (padTo n p) = n.
Proof. by move=> Hp; rewrite /padTo size_cat size_nseq subnK. Qed.

Lemma abs_xorAligned (p q : seq Z) : all inF p -> all inF q ->
  abs (xorAligned p q) = abs p + abs q.
Proof.
move=> Hp Hq; rewrite /xorAligned abs_zip_xor ?abs_padTo ?inF_padTo //.
by rewrite !size_padTo ?leq_maxl ?leq_maxr.
Qed.

Lemma inF_xorAligned (p q : seq Z) : all inF p -> all inF q ->
  all inF (xorAligned p q).
Proof. by move=> Hp Hq; rewrite /xorAligned inF_zip_xor ?inF_padTo. Qed.

Lemma addOrSubtract_rep (p q : {poly symbol}) :
  addOrSubtract (rep p) (rep q) = rep (p + q).
Proof.
rewrite /addOrSubtract -rep_abs ?inF_xorAligned ?rep_inF //.
by rewrite abs_xorAligned ?rep_inF // !absK.
Qed.

Lemma abs_scale (l : seq Z) (c : Z) : all inF l -> inF c ->
  abs [seq GenericGF.multiply f a c | a <- l] = sym c *: abs l.
Proof.
move=> Hl Hc; elim: l Hl => [|a l IH] /=; first by rewrite abs_nil scaler0.
case/andP => Ha Hl; rewrite !abs_cons IH // size_map symM // scalerDr.
by rewrite scalerA mulrC.
Qed.

Lemma inF_scale (l : seq Z) (c : Z) : all inF l -> inF c ->
  all inF [seq GenericGF.multiply f a c | a <- l].
Proof.
move=> Hl Hc; rewrite all_map; apply/allP => a /(allP Hl) Ha /=.
by apply/inFP/mul_range => //; apply/inFP.
Qed.

Lemma multiplyScalar_rep (p : {poly symbol}) (c : symbol) :
  multiplyScalar f (rep p) (val c) = rep (c *: p).
Proof.
rewrite /multiplyScalar -rep_abs ?inF_scale ?rep_inF ?val_in //.
by rewrite abs_scale ?rep_inF ?val_in // absK valK'.
Qed.

Lemma multiplyByMonomial_rep (p : {poly symbol}) (d : nat) (c : symbol) :
  multiplyByMonomial f (rep p) (Z.of_nat d) (val c) = rep (c *: p * 'X^d).
Proof.
rewrite /multiplyByMonomial Nat2Z.id.
have H : all inF ([seq GenericGF.multiply f a (val c) | a <- rep p] ++ nseq d 0%Z).
  by rewrite all_cat inF_scale ?rep_inF ?val_in // inF_nseq0.
rewrite -(rep_abs H).
by rewrite abs_cat abs_nseq0 addr0 size_nseq abs_scale ?rep_inF ?val_in // absK valK'.
Qed.

Lemma setMonomial_rep (d : nat) (c : symbol) :
  setMonomial (Z.of_nat d) (val c) = rep (c *: 'X^d).
Proof.
rewrite /setMonomial Nat2Z.id; case: (Z.eqb_spec (val c) 0) => Hc.
  by have -> : c = 0 by [apply: val_inj]; rewrite scale0r rep0.
have -> : val c :: nseq d 0%Z = GenericGFPoly.normalize (val c :: nseq d 0%Z).
  by rewrite /GenericGFPoly.normalize /=; case: (Z.eqb_spec _ 0).
have H : all inF (val c :: nseq d 0%Z) by rewrite /= val_in inF_nseq0.
by rewrite -(rep_abs H) abs_cons abs_nseq0 addr0 size_nseq valK'.
Qed.

Lemma setZero_rep : setZero = rep 0.
Proof. by rewrite rep0. Qed.

Lemma setOne_rep : setOne = rep 1.
Proof.
by rewrite /setOne /rep oner_eq0 polyseq1.
Qed.

Lemma inF_row (a : Z) (q : seq Z) (k : nat) : inF a -> all inF q ->
  all inF ([seq GenericGF.multiply f a b | b <- q] ++ nseq k 0%Z).
Proof.
move=> Ha Hq; rewrite all_cat inF_nseq0 andbT all_map.
apply/allP => b /(allP Hq) Hb /=.
by apply/inFP/mul_range => //; apply/inFP.
Qed.

Lemma inF_convolve (p q : seq Z) : all inF p -> all inF q ->
  all inF (convolve f p q).
Proof.
move=> Hp Hq; elim: p Hp => [|a p IH] //= /andP[Ha Hp].
by apply: inF_xorAligned; [exact: inF_row | exact: IH].
Qed.

Lemma abs_convolve (p q : seq Z) : all inF p -> all inF q ->
  abs (convolve f p q) = abs p * abs q.
Proof.
move=> Hp Hq; elim: p Hp => [|a p IH] /=; first by rewrite abs_nil mul0r.
case/andP => Ha Hp; rewrite abs_xorAligned ?inF_convolve ?inF_row //.
rewrite IH // abs_cat abs_nseq0 addr0 size_nseq abs_cons mulrDl.
congr (_ + _).
have -> : [seq GenericGF.multiply f a b | b <- q]
          = [seq GenericGF.multiply f b a | b <- q].
  by apply: eq_map => b; exact: mulC.
by rewrite abs_scale // -!scalerAl mulrC.
Qed.

Lemma multiply_rep (p q : {poly symbol}) :
  multiply f (rep p) (rep q) = rep (p * q).
Proof.
rewrite /multiply -rep_abs ?inF_convolve ?rep_inF //.
by rewrite abs_convolve ?rep_inF // !absK.
Qed.

Lemma make_abs (l : seq Z) : all inF l -> make l = rep (abs l).
Proof. by move=> Hl; rewrite rep_abs. Qed.

(** ** Long division *)

Lemma size_cancel_lead (p q : {poly symbol}) :
  p != 0 -> size q = size p -> lead_coef q = lead_coef p ->
  (size (p + q)%R < size p)%N.
Proof.
move=> Hp Hs Hl.
have Hp0 : (0 < size p)%N by rewrite size_poly_gt0.
rewrite -(prednK Hp0) ltnS; apply/leq_sizeP => j Hj.
rewrite coefD; move: Hj; rewrite leq_eqVlt => /orP[/eqP <-|Hj].
  by rewrite -lead_coefE -Hs -lead_coefE Hl sym_addxx.
by rewrite !nth_default ?addr0 // ?Hs -(prednK Hp0).
Qed.

Lemma divide_step_size (d r : {poly symbol}) :
  d != 0 -> (size d <= size r)%N ->
  (size (r + (lead_coef r / lead_coef d) *: d * 'X^(size r - size d))%R < size r)%N.
Proof.
move=> Hd Hs.
have Hr : r != 0.
  by rewrite -size_poly_gt0; apply: leq_trans Hs; rewrite size_poly_gt0.
have Hc : lead_coef r / lead_coef d != 0.
  by rewrite mulf_neq0 ?invr_eq0 ?lead_coef_eq0.
have Hcd : (lead_coef r / lead_coef d) *: d != 0 by rewrite scaler_eq0 negb_or Hc.
apply: size_cancel_lead => //.
  by rewrite size_mulXn // size_scale // subnK.
rewrite lead_coefM lead_coefXn mulr1 lead_coefZ.
by rewrite -mulrA mulVf ?mulr1 // lead_coef_eq0.
Qed.

Lemma divide_cond (d r : {poly symbol}) : d != 0 ->
  (degree (rep d) <=? degree (rep r))%Z && ~~ isZero (rep r)
  = (size d <= size r)%N.
Proof.
move=> Hd; rewrite !degree_rep isZero_rep.
have Hd0 : (0 < size d)%N by rewrite size_poly_gt0.
case: (eqVneq r 0) => [->|Hr] /=.
  by rewrite andbF size_poly0 leqNgt Hd0.
have Hr0 : (0 < size r)%N by rewrite size_poly_gt0.
rewrite andbT -{2}(prednK Hd0) -{2}(prednK Hr0) ltnS.
by apply/idP/idP => [/Z.leb_le H|/leP H]; [apply/leP | apply/Z.leb_le];
  move: H; move: ((size d).-1) ((size r).-1) => a b; lia.
Qed.

Lemma divideLoop_rep (d : {poly symbol}) (fuel : nat) (q r : {poly symbol}) :
  d != 0 -> (size r <= fuel)%N ->
  divideLoop f fuel (rep d) (val (lead_coef d)^-1) (rep q) (rep r)
  = Returned (rep (q + r %/ d), rep (r %% d)).
Proof.
move=> Hd; elim: fuel q r => [|fuel IH] q r Hf /=; rewrite divide_cond //.
  move: Hf; rewrite leqn0 size_poly_eq0 => /eqP ->.
  by rewrite size_poly0 leqNgt size_poly_gt0 Hd /= div0p mod0p addr0.
case: leqP => Hs; last by rewrite divp_small // modp_small // addr0.
have Hr : r != 0.
  by rewrite -size_poly_gt0; apply: leq_trans Hs; rewrite size_poly_gt0.
set c := lead_coef r / lead_coef d; set k := (size r - size d)%N.
have -> : (degree (rep r) - degree (rep d))%Z = Z.of_nat k.
  rewrite !degree_rep /k; move/leP: Hs; rewrite -minusE.
  have : (0 < size d)%N by rewrite size_poly_gt0.
  by move/ltP; lia.
have -> : GenericGF.multiply f (coefficient (rep r) (degree (rep r)))
            (val (lead_coef d)^-1) = val c.
  by rewrite lead_rep.
rewrite setMonomial_rep multiplyByMonomial_rep !addOrSubtract_rep.
have Hf' := leq_trans (divide_step_size Hd Hs) Hf.
rewrite ltnS -/c -/k in Hf'; rewrite (IH _ _ Hf').
set r' := r + _.
have Er : r = (c *: 'X^k) * d + r'.
  have -> : c *: 'X^k * d = c *: d * 'X^k by rewrite -!scalerAl mulrC.
  by rewrite /r' addrCA poly_addxx addr0.
congr (Returned (rep _, rep _)).
  by rewrite [in RHS]Er divp_addl_mul // addrA.
by rewrite [in RHS]Er modpD modp_mull add0r.
Qed.

Lemma divide_rep (p d : {poly symbol}) : d != 0 ->
  divide f (rep p) (rep d) = Returned (rep (p %/ d), rep (p %% d)).
Proof.
move=> Hd; rewrite /divide isZero_rep (negbTE Hd) lead_rep.
rewrite -valV ?lead_coef_eq0 // setZero_rep divideLoop_rep ?add0r //.
by rewrite size_rep leqSpred.
Qed.

(** ** The Euclidean loop on polynomials *)

Definition rep_state (r rLast t tLast : {poly symbol}) : euclid_state :=
  EuclidState (rep r) (rep rLast) (rep t) (rep tLast).

Definition is_rep_state (st : euclid_state) : Prop :=
  exists r rLast t tLast : {poly symbol}, st = rep_state r rLast t tLast.

Lemma euclid_body_rep (r rLast t tLast : {poly symbol}) :
  r != 0 ->
  euclid_body f (rep_state r rLast t tLast) =
  if ((size r).-1 <= (size (rLast %% r)%R).-1)%N then Thrown runtime_error
  else Returned (Continue (rep_state (rLast %% r) r
                             (rLast %/ r * t + tLast) t)).
Proof.
move=> Hr; rewrite /euclid_body /= isZero_rep (negbTE Hr) divide_rep //=.
rewrite multiply_rep addOrSubtract_rep !degree_rep.
have -> : (Z.of_nat (size r).-1 <=? Z.of_nat (size (rLast %% r)).-1)%Z
          = ((size r).-1 <= (size (rLast %% r)%R).-1)%N.
  move: (size r).-1 (size _).-1 => a b.
  by apply/idP/idP => [/Z.leb_le H|/leP H]; [apply/leP | apply/Z.leb_le]; lia.
by [].
Qed.

Lemma euclid_body_rep_state (st st' : euclid_state) :
  is_rep_state st -> euclid_body f st = Returned (Continue st') ->
  is_rep_state st'.
Proof.
case=> r [rLast [t [tLast ->]]].
case: (eqVneq r 0) => [->|Hr].
  by rewrite /euclid_body /= isZero_rep eqxx.
rewrite euclid_body_rep //; case: ifP => // _ [<-].
by exists (rLast %% r), r, (rLast %/ r * t + tLast), t.
Qed.

Lemma euclid_loop_rep_state (R : Z) (fuel : nat) (st st' : euclid_state) :
  is_rep_state st -> euclid_loop f R fuel st = Returned (Continue st') ->
  is_rep_state st'.
Proof.
elim: fuel st => [|fuel IH] st Hst /=; case: ifP => _ //; try by case=> <-.
case E: (euclid_body f st) => [[|st1]| | |] //=.
by apply: IH; exact: euclid_body_rep_state E.
Qed.

Lemma setMonomial_to_nat (d c : Z) :
  setMonomial d c = setMonomial (Z.of_nat (Z.to_nat d)) c.
Proof. by rewrite /setMonomial Nat2Z.id. Qed.

Lemma euclid_init_rep_state (rCoefs : seq Z) (R : Z) :
  all inF rCoefs -> is_rep_state (euclid_init rCoefs R).
Proof.
move=> Hc; rewrite /euclid_init make_abs // setMonomial_to_nat -val1.
rewrite setMonomial_rep setZero_rep setOne_rep.
by case: ifP => _; [exists ('X^(Z.to_nat R)), (abs rCoefs), 1, 0
                   | exists (abs rCoefs), ('X^(Z.to_nat R)), 1, 0];
  rewrite /rep_state scale1r.
Qed.

(** ** Invariants of the Euclidean loop *)

Section EuclidInvariant.

Variables (R : nat) (S : {poly symbol}).

Definition euclid_inv (r rLast t tLast : {poly symbol}) : Prop :=
  exists s sLast : {poly symbol},
    [/\ r = s * 'X^R + t * S, rLast = sLast * 'X^R + tLast * S
      & s * tLast + sLast * t = 1] /\
    [/\ (size r < size rLast)%N, (R <= ((size rLast).-1).*2.+1)%N,
        ((size t).-1 + (size rLast).-1 <= R)%N
      & ((size tLast).-1 + (size rLast).-1 <= R)%N].

Lemma euclid_inv_init : (size S <= R)%N -> euclid_inv S 'X^R 1 0.
Proof.
move=> HS; exists 0, 1; split; first by split; rewrite ?mul0r ?mul1r ?add0r ?addr0.
rewrite size_polyXn size_poly1 size_poly0 /= ltnS HS add0n leqnn; split=> //.
by rewrite -addnn -addnS leq_addr.
Qed.

Lemma size_pred_mul (p q : {poly symbol}) :
  ((size (p * q)%R).-1 <= (size p).-1 + (size q).-1)%N.
Proof.
case: (eqVneq p 0) => [->|Hp]; first by rewrite mul0r size_poly0.
case: (eqVneq q 0) => [->|Hq]; first by rewrite mulr0 size_poly0.
rewrite size_mul //; move: Hp Hq; rewrite -!size_poly_gt0.
by case: (size p) => [|a] //; case: (size q) => [|b] //= _ _; rewrite addnS.
Qed.

Lemma size_pred_add (p q : {poly symbol}) :
  ((size (p + q)%R).-1 <= maxn (size p).-1 (size q).-1)%N.
Proof.
have := size_polyD p q.
move: (size (p + q)%R) (size p) (size q) => a b c.
rewrite !maxnE => /leP H; apply/leP; move: H; rewrite -!plusE -!minusE; lia.
Qed.

Lemma euclid_inv_step (r rLast t tLast : {poly symbol}) :
  euclid_inv r rLast t tLast -> r != 0 -> (R <= ((size r).-1).*2.+1)%N ->
  euclid_inv (rLast %% r) r (rLast %/ r * t + tLast) t.
Proof.
case=> s [sLast [[Er Erl Hst] [Hlt HK Ht Htl]]] Hr Hcond.
set q := rLast %/ r.
have Emod : rLast %% r = rLast + q * r.
  by apply: (addrI (q * r)); rewrite -divp_eq addrCA poly_addxx addr0.
exists (sLast + q * s), s; split; first split=> //.
- by rewrite Emod [X in X + _]Erl [X in _ + q * X]Er; ring.
- have -> : (sLast + q * s) * t + s * (q * t + tLast)
            = (s * tLast + sLast * t) + (q * s * t + q * s * t).
    by ring.
  by rewrite poly_addxx addr0.
- split=> //; first by rewrite ltn_modp.
  + have Hq : ((size q).-1 + (size r).-1 = (size rLast).-1)%N.
      rewrite /q size_divp //.
      move: Hlt Hr; rewrite -size_poly_gt0.
      move: (size r) (size rLast) => a b /ltP Hab /ltP Ha.
      by rewrite -plusE -minusE; lia.
    have F1 := size_pred_add (q * t) tLast.
    have F2 := size_pred_mul q t.
    move: F1 F2 Hq Hlt Ht Htl; rewrite !maxnE.
    move: (size (q * t + tLast)%R) (size (q * t)%R) (size q) (size t)
          (size tLast) (size r) (size rLast) => a1 a2 a3 a4 a5 a6 a7.
    move=> /leP F1 /leP F2 Hq /ltP Hlt /leP Ht /leP Htl; apply/leP.
    by move: F1 F2 Hq Hlt Ht Htl; rewrite -?plusE -?minusE; lia.
  + move: Hlt Ht; move: (size t) (size r) (size rLast) => a1 a2 a3.
    move=> /ltP Hlt /leP Ht; apply/leP.
    by move: Hlt Ht; rewrite -?plusE -?minusE; lia.
Qed.

Lemma quot2_le (n d : nat) :
  (Z.quot (Z.of_nat n) 2 <=? Z.of_nat d)%Z = (n <= d.*2.+1)%N.
Proof.
have -> : Z.quot (Z.of_nat n) 2 = (Z.of_nat n / 2)%Z.
  by apply: Z.quot_div_nonneg; lia.
have := Z.div_mod (Z.of_nat n) 2; have := Z.mod_pos_bound (Z.of_nat n) 2.
move: (_ / 2)%Z (_ mod 2)%Z => u v Hv Hu.
rewrite -addnn; apply/idP/idP => [/Z.leb_le H|/leP H];
  [apply/leP | apply/Z.leb_le]; move: H; rewrite -?plusE; lia.
Qed.

Lemma euclid_loop_inv (fuel : nat) (r rLast t tLast : {poly symbol}) :
  (2 <= R)%N -> euclid_inv r rLast t tLast -> (size r <= fuel)%N ->
  exists r' rLast' t' tLast' : {poly symbol},
    [/\ euclid_loop f (Z.of_nat R) fuel (rep_state r rLast t tLast)
        = Returned (Continue (rep_state r' rLast' t' tLast')),
        euclid_inv r' rLast' t' tLast'
      & (((size r').-1).*2.+1 < R)%N].
Proof.
move=> HR; elim: fuel r rLast t tLast => [|fuel IH] r rLast t tLast Hinv Hf /=;
  rewrite degree_rep quot2_le.
  move: Hf; rewrite leqn0 size_poly_eq0 => /eqP Hr; move: Hinv; rewrite Hr => Hinv.
  rewrite size_poly0 /= leqNgt HR /=.
  by exists 0, rLast, t, tLast; split=> //; rewrite size_poly0.
case: leqP => Hcond; last by exists r, rLast, t, tLast.
have Hr2 : (1 < size r)%N.
  move: Hcond HR; move: (size r) => a /leP H1 /leP H2; apply/ltP.
  by move: H1 H2; rewrite -addnn -?plusE; lia.
have Hr : r != 0 by rewrite -size_poly_gt0 ltnW.
have Hm : (size (rLast %% r)%R < size r)%N by rewrite ltn_modp.
have Hn : ((size r).-1 <= (size (rLast %% r)%R).-1)%N = false.
  apply/negbTE; rewrite -ltnNge.
  move: Hm Hr2; move: (size r) (size _) => a b /ltP H1 /ltP H2; apply/ltP.
  by move: H1 H2; lia.
rewrite euclid_body_rep // Hn.
apply: IH; first exact: euclid_inv_step.
by rewrite -ltnS; apply: leq_trans Hm Hf.
Qed.

End EuclidInvariant.

(** ** The key equation has one solution of small degree *)

Lemma key_equation_small (R : nat) (S sigma omega u s t r : {poly symbol}) :
  sigma * S = omega + 'X^R * u ->
  r = s * 'X^R + t * S ->
  (size (r * sigma)%R <= R)%N -> (size (t * omega)%R <= R)%N ->
  r * sigma = t * omega /\ s * sigma = t * u.
Proof.
move=> Hkey Hr Hs1 Hs2.
have Hw : r * sigma + t * omega = 'X^R * (s * sigma + t * u).
  have -> : r * sigma = s * sigma * 'X^R + t * (sigma * S) by rewrite Hr; ring.
  rewrite Hkey.
  have -> : s * sigma * 'X^R + t * (omega + 'X^R * u) + t * omega
            = 'X^R * (s * sigma + t * u) + (t * omega + t * omega) by ring.
  by rewrite poly_addxx addr0.
have Hw0 : s * sigma + t * u = 0.
  apply: contraTeq (leq_trans (size_polyD _ _) _ : size (r * sigma + t * omega)%R <= R)%N
    => [Hne|]; last by rewrite geq_max Hs1 Hs2.
  by rewrite Hw mulrC size_mulXn // -ltnNge -{1}[R]addn0 ltn_add2l size_poly_gt0.
split.
  by apply/eqP; rewrite -subr_eq0 poly_subE Hw Hw0 mulr0.
by apply/eqP; rewrite -subr_eq0 poly_subE Hw0.
Qed.

Lemma key_equation_unique (sigma omega u s sLast t tLast r : {poly symbol}) :
  coprimep sigma omega -> sigma != 0 ->
  r * sigma = t * omega -> s * sigma = t * u ->
  s * tLast + sLast * t = 1 ->
  exists2 c : symbol, c != 0 & t = c *: sigma /\ r = c *: omega.
Proof.
move=> Hco Hs0 Hrs Hss Hbez.
have Hdvd : sigma %| t by rewrite -(Gauss_dvdpl _ Hco) -Hrs dvdp_mull.
have [lam Et] : exists lam, t = lam * sigma.
  by exists (t %/ sigma); apply/eqP; rewrite -dvdp_eq.
move: Hrs Hss Hbez; rewrite {t Hdvd}Et => Hrs Hss Hbez.
have Es : s = lam * u by apply: (mulIf Hs0); rewrite Hss; ring.
have Hl1 : lam %| 1.
  rewrite -Hbez Es.
  have -> : lam * u * tLast + sLast * (lam * sigma)
            = lam * (u * tLast + sLast * sigma) by ring.
  exact: dvdp_mulr.
move: Hl1; rewrite dvdp1 => /size_poly1P[c Hc El].
exists c => //; split; first by rewrite El mul_polyC.
by apply: (mulIf Hs0); rewrite Hrs El -!mul_polyC; ring.
Qed.

(** ** Error locators *)

Definition order : nat := Z.to_nat (GenericGF.size f - 1).

Definition locator (d : nat) : symbol := sym (GenericGF.exp f (Z.of_nat d)).

Lemma exp_inF (i : Z) : inF (GenericGF.exp f i).
Proof. by apply/inFP; have := exp_range ok i; lia. Qed.

Lemma val_locator (d : nat) : val (locator d) = GenericGF.exp f (Z.of_nat d).
Proof. by rewrite /locator symK // exp_inF. Qed.

Lemma locator_neq0 (d : nat) : locator d != 0.
Proof.
rewrite -val_eq0 val_locator; apply/eqP.
by have := exp_range ok (Z.of_nat d); lia.
Qed.

Lemma locator0 : locator 0 = 1.
Proof. by apply: val_inj; rewrite val_locator /= exp_0. Qed.

Lemma locatorD (a b : nat) : locator (a + b) = locator a * locator b.
Proof.
apply: val_inj; rewrite valM !val_locator mul_exp //.
by rewrite Nat2Z.inj_add.
Qed.

Lemma locatorX (a k : nat) : locator a ^+ k = locator (a * k).
Proof.
elim: k => [|k IH]; first by rewrite expr0 muln0 locator0.
by rewrite exprS IH -locatorD mulnS.
Qed.

Lemma log_locator (d : nat) : (d < order)%N ->
  GenericGF.log f (val (locator d)) = Z.of_nat d.
Proof.
move=> /ltP Hd; rewrite val_locator log_exp // Z.mod_small //.
by move: Hd; rewrite /order; lia.
Qed.

Lemma locator_inj (a b : nat) :
  (a < order)%N -> (b < order)%N -> locator a = locator b -> a = b.
Proof.
move=> Ha Hb /(congr1 val) /(congr1 (GenericGF.log f)).
by rewrite !log_locator // => /Nat2Z.inj.
Qed.

Lemma inverse_locator (d : nat) :
  GenericGF.inverse f (val (locator d)) = val (locator d)^-1.
Proof. by rewrite valV // locator_neq0. Qed.

(** Every nonzero symbol is a locator. *)
Lemma locator_log (x : symbol) : x != 0 ->
  x = locator (Z.to_nat (GenericGF.log f (val x))).
Proof.
rewrite -val_eq0 => /eqP Hx; apply: val_inj; rewrite val_locator.
have Hr : (1 <= val x < GenericGF.size f)%Z.
  by have /inFP := val_in x; lia.
have := log_range ok Hr => Hl.
by rewrite Z2Nat.id ?exp_log //; lia.
Qed.

Lemma log_lt_order (x : symbol) : x != 0 ->
  (Z.to_nat (GenericGF.log f (val x)) < order)%N.
Proof.
rewrite -val_eq0 => /eqP Hx.
have Hr : (1 <= val x < GenericGF.size f)%Z.
  by have /inFP := val_in x; lia.
by have := log_range ok Hr => Hl; apply/ltP; rewrite /order; lia.
Qed.

(** ** The error locator and the error evaluator of an error pattern *)

Section Errors.

(** The errors sit at the exponents [ds] (the symbol at index [p] of a
    codeword of length [n] has exponent [n - 1 - p]), with values [Y d]. *)
Variables (R b : nat) (ds : seq nat) (Y : nat -> symbol).

Hypothesis ds_uniq : uniq ds.
Hypothesis ds_lt : {in ds, forall d, (d < order)%N}.
Hypothesis Y_neq0 : {in ds, forall d, Y d != 0}.

Definition factor (d : nat) : {poly symbol} := 1 - locator d *: 'X.

Definition true_sigma : {poly symbol} := \prod_(d <- ds) factor d.

Definition cofactor (d : nat) : {poly symbol} :=
  \prod_(d' <- ds | d' != d) factor d'.

Definition true_omega : {poly symbol} :=
  \sum_(d <- ds) (Y d * locator d ^+ b) *: cofactor d.

Definition error_poly : {poly symbol} := \sum_(d <- ds) Y d *: 'X^d.

Definition syndrome_poly : {poly symbol} :=
  \poly_(i < R) error_poly.[locator (i + b)].

Lemma error_poly_at (i : nat) :
  error_poly.[locator i] = \sum_(d <- ds) Y d * locator d ^+ i.
Proof.
rewrite /error_poly horner_sum; apply: eq_bigr => d _.
by rewrite hornerZ hornerXn !locatorX mulnC.
Qed.

Definition geometric (d : nat) : {poly symbol} :=
  \poly_(i < R) locator d ^+ i.

Lemma syndrome_poly_sum :
  syndrome_poly = \sum_(d <- ds) (Y d * locator d ^+ b) *: geometric d.
Proof.
apply/polyP => i; rewrite coef_poly coef_sum error_poly_at.
case: ltnP => Hi.
  apply: eq_bigr => d _; rewrite coefZ coef_poly Hi.
  by rewrite exprD mulrA mulrAC -mulrA [_ ^+ b * _]mulrC mulrA.
by rewrite big1 // => d _; rewrite coefZ coef_poly ltnNge Hi mulr0.
Qed.

Lemma geometric_sum (d : nat) :
  factor d * geometric d = 1 - (locator d ^+ R) *: 'X^R.
Proof.
have -> : geometric d = \sum_(i < R) (locator d *: 'X) ^+ i.
  by rewrite /geometric poly_def; apply: eq_bigr => i _; rewrite exprZn.
by rewrite /factor -[1 - _]opprB mulNr -subrX1 opprB exprZn.
Qed.

Lemma true_sigma_factor (d : nat) : d \in ds ->
  true_sigma = factor d * cofactor d.
Proof. by move=> Hd; rewrite /true_sigma (bigD1_seq d). Qed.

Definition key_rest : {poly symbol} :=
  \sum_(d <- ds) (Y d * locator d ^+ b * locator d ^+ R) *: cofactor d.

Lemma key_equation :
  true_sigma * syndrome_poly = true_omega + 'X^R * key_rest.
Proof.
rewrite syndrome_poly_sum mulr_sumr /true_omega /key_rest mulr_sumr -big_split /=.
rewrite big_seq [RHS]big_seq; apply: eq_bigr => d Hd.
rewrite (true_sigma_factor Hd) -!mul_polyC !polyCM.
set y := (Y d)%:P; set xb := (_ ^+ b)%:P; set P := cofactor d.
set x := (_ ^+ R)%:P.
have -> : factor d * P * (y * xb * geometric d)
          = y * xb * P * (factor d * geometric d) by ring.
by rewrite geometric_sum -mul_polyC -/x poly_subE; ring.
Qed.

Lemma size_factor (d : nat) : size (factor d) = 2.
Proof.
have Hs : size (- (locator d *: 'X)) = 2.
  by rewrite size_polyN size_scale ?locator_neq0 // size_polyX.
by rewrite /factor addrC size_polyDl Hs // size_poly1.
Qed.

Lemma factor_neq0 (d : nat) : factor d != 0.
Proof. by rewrite -size_poly_eq0 size_factor. Qed.

Lemma size_prod_factor (s : seq nat) :
  size (\prod_(d <- s) factor d) = (size s).+1.
Proof.
elim: s => [|d s IH]; first by rewrite big_nil size_poly1.
have Hp : \prod_(d <- s) factor d != 0 by rewrite -size_poly_eq0 IH.
by rewrite big_cons size_mul ?factor_neq0 // size_factor IH.
Qed.

Lemma size_true_sigma : size true_sigma = (size ds).+1.
Proof. exact: size_prod_factor. Qed.

Lemma true_sigma_neq0 : true_sigma != 0.
Proof. by rewrite -size_poly_eq0 size_true_sigma. Qed.

Lemma size_cofactor (d : nat) : d \in ds -> size (cofactor d) = size ds.
Proof.
move=> Hd; rewrite /cofactor -big_filter size_prod_factor size_filter.
have := count_predC (pred1 d) ds.
rewrite (count_uniq_mem _ ds_uniq) Hd add1n => <-.
by congr (_.+1); apply: eq_count => x /=; rewrite eq_sym.
Qed.

Lemma size_true_omega : (size true_omega <= size ds)%N.
Proof.
rewrite /true_omega big_seq.
elim/big_ind: _ => [|p q Hp Hq|d Hd]; first by rewrite size_poly0.
  by apply: leq_trans (size_polyD _ _) _; rewrite geq_max Hp Hq.
by apply: leq_trans (size_scale_leq _ _) _; rewrite size_cofactor.
Qed.

Lemma factor_at (d : nat) (x : symbol) : (factor d).[x] = 1 - locator d * x.
Proof. by rewrite /factor !hornerE. Qed.

Lemma factor_root (d : nat) (x : symbol) :
  ((factor d).[x] == 0) = (x == (locator d)^-1).
Proof.
rewrite factor_at subr_eq0 eq_sym.
apply/eqP/eqP => [H|->]; last by rewrite mulfV ?locator_neq0.
by rewrite -[x]mul1r -(mulVf (locator_neq0 d)) -mulrA H mulr1.
Qed.

Lemma true_sigma_root (x : symbol) :
  (true_sigma.[x] == 0) = has (fun d => x == (locator d)^-1) ds.
Proof.
rewrite /true_sigma horner_prod prodf_seq_eq0.
by apply: eq_has => d; rewrite /= factor_root.
Qed.

Lemma true_sigma_at0 : true_sigma`_0 = 1.
Proof.
rewrite -horner_coef0 /true_sigma horner_prod big1 // => d _.
by rewrite factor_at mulr0 subr0.
Qed.

Lemma locator_inv_inj (d d' : nat) : d \in ds -> d' \in ds ->
  (locator d')^-1 = (locator d)^-1 -> d' = d.
Proof.
move=> Hd Hd' /invr_inj H.
by apply: locator_inj => //; exact: ds_lt.
Qed.

Lemma cofactor_at (d d' : nat) : d \in ds -> d' \in ds -> d' != d ->
  (cofactor d').[(locator d)^-1] = 0.
Proof.
move=> Hd Hd' Hne; apply/eqP; rewrite /cofactor horner_prod prodf_seq_eq0.
by apply/hasP; exists d => //; rewrite /= eq_sym Hne factor_root eqxx.
Qed.

Lemma cofactor_at_self (d : nat) : d \in ds ->
  (cofactor d).[(locator d)^-1] != 0.
Proof.
move=> Hd; rewrite /cofactor horner_prod prodf_seq_neq0.
apply/allP => d' Hd' /=; apply/implyP => Hne; rewrite factor_root.
by apply: contra Hne => /eqP H; apply/eqP; exact: locator_inv_inj.
Qed.

Lemma true_omega_at (d : nat) : d \in ds ->
  true_omega.[(locator d)^-1]
  = Y d * locator d ^+ b * (cofactor d).[(locator d)^-1].
Proof.
move=> Hd; rewrite /true_omega horner_sum (bigD1_seq d) //= hornerZ.
rewrite big_seq_cond big1 ?addr0 // => d' /andP[Hd' Hne].
by rewrite hornerZ cofactor_at ?mulr0.
Qed.

Lemma true_omega_neq0_at (d : nat) : d \in ds ->
  true_omega.[(locator d)^-1] != 0.
Proof.
move=> Hd; rewrite true_omega_at // !mulf_neq0 ?Y_neq0 ?cofactor_at_self //.
by rewrite expf_neq0 // locator_neq0.
Qed.

Lemma factor_coprime (d : nat) : d \in ds -> coprimep (factor d) true_omega.
Proof.
move=> Hd.
have -> : factor d = locator d *: ('X - (locator d)^-1%:P).
  rewrite /factor scalerBr -[_ *: _%:P]mul_polyC -polyCM.
  by rewrite mulfV ?locator_neq0 // !poly_subE polyC1 addrC.
rewrite coprimepZl ?locator_neq0 // coprimep_sym coprimep_XsubC.
exact: true_omega_neq0_at.
Qed.

Lemma true_coprime : coprimep true_sigma true_omega.
Proof.
rewrite /true_sigma big_seq.
elim/big_ind: _ => [|p q Hp Hq|d Hd]; first by rewrite coprimep_sym coprimep1.
  by rewrite coprimepMl Hp Hq.
exact: factor_coprime.
Qed.

(** The Euclidean algorithm finds the error locator and the error
    evaluator. *)
Lemma euclid_finds_errors (rCoefs : seq Z) :
  (0 < size ds)%N -> ((size ds).*2 <= R)%N ->
  all inF rCoefs -> abs rCoefs = syndrome_poly ->
  RunEuclideanAlgorithm f rCoefs (Z.of_nat R)
  = Returned (NoError, rep true_sigma, rep true_omega).
Proof.
move=> He HeR Hin Habs.
have HR : (2 <= R)%N.
  move: He HeR; rewrite -addnn; move: (size ds) => e /ltP H1 /leP H2.
  by apply/leP; move: H1 H2; rewrite -plusE; lia.
have HS : (size syndrome_poly <= R)%N by exact: size_poly.
have Einit : euclid_init rCoefs (Z.of_nat R)
             = rep_state syndrome_poly 'X^R 1 0.
  rewrite /euclid_init make_abs // Habs -val1 setMonomial_rep scale1r.
  rewrite setZero_rep setOne_rep !degree_rep size_polyXn /=.
  case: (Z.leb_spec (Z.of_nat R) (Z.of_nat (size syndrome_poly).-1)) => // H.
  move/leP: HS; move/leP: HR; move: H; move: (size syndrome_poly) => a; lia.
rewrite /RunEuclideanAlgorithm Einit /=.
have Hf : (size syndrome_poly <= size (rep syndrome_poly))%N.
  by rewrite size_rep leqSpred.
have [r [rLast [t [tLast [-> Hinv Hexit]]]]] :=
  euclid_loop_inv HR (euclid_inv_init HS) Hf.
case: Hinv => s [sLast [[Er Erl Hbez] [Hlt HK Ht Htl]]].
have Hs1 : (size (r * true_sigma)%R <= R)%N.
  apply: leq_trans (size_polyMleq _ _) _; rewrite size_true_sigma addnS /=.
  move: Hexit HeR; rewrite -!addnn.
  move: (size r) (size ds) => a e /ltP H1 /leP H2; apply/leP.
  by move: H1 H2; rewrite -!plusE; lia.
have Hs2 : (size (t * true_omega)%R <= R)%N.
  apply: leq_trans (size_polyMleq _ _) _.
  move: size_true_omega HK Ht HeR; rewrite -!addnn.
  move: (size t) (size true_omega) (size ds) (size rLast) => a w e l.
  move=> /leP H1 /leP H2 /leP H3 /leP H4; apply/leP.
  by move: H1 H2 H3 H4; rewrite -!plusE; lia.
have [Hrs Hss] := key_equation_small key_equation Er Hs1 Hs2.
have [c Hc [Et Erw]] :=
  key_equation_unique true_coprime true_sigma_neq0 Hrs Hss Hbez.
rewrite /euclid_finish /= (coefficient_rep t 0) Et coefZ true_sigma_at0 mulr1.
have /Z.eqb_neq -> : val c <> 0%Z by apply/eqP; rewrite val_eq0.
rewrite -valV // !multiplyScalar_rep Erw !scalerA mulVf //.
by rewrite !scale1r.
Qed.

(** Chien's search finds the locators of the errors. *)

Lemma nonzero_elements_uniq : uniq (nonzero_elements f).
Proof.
rewrite /nonzero_elements map_inj_uniq ?iota_uniq //.
exact: Nat2Z.inj.
Qed.

Lemma nonzero_elementsP (i : Z) :
  reflect (inF i /\ sym i != 0) (i \in nonzero_elements f).
Proof.
rewrite mem_nonzero_elements; apply: (iffP andP).
  case=> /Z.leb_le H1 /Z.ltb_lt H2.
  have Hi : inF i by apply/inFP; lia.
  by split=> //; rewrite sym_eq0 //; apply/eqP; lia.
case=> Hi; rewrite sym_eq0 // => /eqP H0; move/inFP: Hi => Hi.
by split; [apply/Z.leb_le | apply/Z.ltb_lt]; lia.
Qed.

Lemma is_root_sigma (i : Z) : inF i ->
  is_root f (rep true_sigma) i = has (fun d => sym i == (locator d)^-1) ds.
Proof.
move=> Hi; rewrite /is_root -{1}(symK Hi) evaluateAt_rep -true_sigma_root.
by rewrite -val_eq0.
Qed.

Definition found_roots : seq Z :=
  roots_in f (rep true_sigma) (nonzero_elements f).

Definition found_locators : seq symbol :=
  [seq (sym i)^-1 | i <- found_roots].

Lemma found_locators_uniq : uniq found_locators.
Proof.
have Hinj : {in found_roots &, injective (fun i => (sym i)^-1)}.
  move=> i j; rewrite !mem_filter => /andP[_ /nonzero_elementsP[Hi _]].
  case/andP=> _ /nonzero_elementsP[Hj _] /invr_inj /(congr1 val).
  by rewrite !symK.
rewrite /found_locators (map_inj_in_uniq Hinj).
by rewrite /found_roots /roots_in filter_uniq // nonzero_elements_uniq.
Qed.

Lemma locators_uniq : uniq [seq locator d | d <- ds].
Proof.
have Hinj : {in ds &, injective locator}.
  by move=> d d' Hd Hd'; apply: locator_inj; exact: ds_lt.
by rewrite (map_inj_in_uniq Hinj).
Qed.

Lemma found_locators_mem : found_locators =i [seq locator d | d <- ds].
Proof.
move=> x; apply/mapP/mapP => [[i]|[d Hd ->]].
  rewrite mem_filter => /andP[Hr /nonzero_elementsP[Hi Hi0]] ->.
  move: Hr; rewrite is_root_sigma // => /hasP[d Hd /eqP ->].
  by exists d => //; rewrite invrK.
have Hx : (locator d)^-1 != 0 by rewrite invr_eq0 locator_neq0.
exists (val (locator d)^-1); last by rewrite valK' invrK.
rewrite mem_filter is_root_sigma ?val_in // valK'.
apply/andP; split; first by apply/hasP; exists d.
by apply/nonzero_elementsP; rewrite valK' val_in.
Qed.

Lemma found_locators_perm : perm_eq found_locators [seq locator d | d <- ds].
Proof.
by apply: uniq_perm; [exact: found_locators_uniq | exact: locators_uniq
                     | exact: found_locators_mem].
Qed.

Definition found_exponents : seq nat :=
  [seq Z.to_nat (GenericGF.log f (val x)) | x <- found_locators].

Lemma found_exponents_perm : perm_eq found_exponents ds.
Proof.
pose g (x : symbol) := Z.to_nat (GenericGF.log f (val x)).
have Hid : [seq g x | x <- [seq locator d | d <- ds]] = ds.
  rewrite -map_comp -[RHS]map_id; apply/eq_in_map => d Hd /=.
  by rewrite /g log_locator ?Nat2Z.id //; exact: ds_lt.
by rewrite -[X in perm_eq _ X]Hid; apply: perm_map; exact: found_locators_perm.
Qed.

Lemma found_locators_exponents :
  found_locators = [seq locator d | d <- found_exponents].
Proof.
rewrite /found_exponents -map_comp -[LHS]map_id; apply/eq_in_map => x Hx /=.
apply: locator_log.
by move: Hx; rewrite found_locators_mem => /mapP[d _ ->]; exact: locator_neq0.
Qed.

Lemma chien_finds_errors :
  FindErrorLocations f (rep true_sigma) [::]
  = (NoError, [seq val (locator d) | d <- found_exponents]).
Proof.
have Hsz : size found_roots = size ds.
  have := perm_size found_locators_perm.
  by rewrite /found_locators !size_map.
have Hsh : (size (locations_shortcut (rep true_sigma) [::]) <= size ds)%N.
  by rewrite size_locations_shortcut degree_rep Nat2Z.id size_true_sigma.
rewrite FindErrorLocationsE degree_rep Nat2Z.id size_true_sigma /=.
rewrite -/found_roots Hsz ltnn minnn take_oversize ?Hsz //.
rewrite (drop_oversize Hsh) cats0.
congr (_, _).
have -> : [seq val (locator d) | d <- found_exponents]
          = [seq val x | x <- found_locators].
  by rewrite [in RHS]found_locators_exponents -map_comp.
rewrite /found_locators -map_comp; apply/eq_in_map => i.
rewrite mem_filter => /andP[_ /nonzero_elementsP[Hi Hi0]].
by rewrite -{1}(symK Hi) -(valV Hi0).
Qed.

(** Forney's formula gives the values of the errors. *)

Hypothesis b_base : GenericGF.generatorBase f = Z.of_nat b.

Lemma b_le1 : (b <= 1)%N.
Proof.
by apply/leP; case: (generatorBase01 ok); rewrite b_base; lia.
Qed.

Lemma foldl_set_nth (g : nat -> Z) (v : seq Z) :
  foldl (fun out i => set_nth 0%Z out i (g i)) v (iota 0 (size v))
  = [seq g i | i <- iota 0 (size v)].
Proof.
have H k : (k <= size v)%N ->
    foldl (fun out i => set_nth 0%Z out i (g i)) v (iota 0 k)
    = [seq g i | i <- iota 0 k] ++ drop k v.
  elim: k => [|k IH] Hk; first by rewrite /= drop0.
  rewrite -addn1 iotaD foldl_cat IH ?(ltnW Hk) //= add0n map_cat /= -catA /=.
  set A := [seq g i | i <- iota 0 k].
  have Hs : size A = k by rewrite size_map size_iota.
  have Hlt : (k < size (A ++ drop k v))%N.
    by rewrite size_cat Hs size_drop subnKC // ltnW.
  rewrite (set_nth_take_drop _ Hlt) -{1}Hs take_size_cat //.
  congr (_ ++ _ :: _).
  by rewrite drop_cat Hs ltnNge leqnSn /= subSn // subnn addn1 drop_drop add1n.
by rewrite H // drop_size cats0.
Qed.

Lemma FindErrorMagnitudesE (ev locs : seq Z) :
  FindErrorMagnitudes f ev locs [::]
  = [seq forney_magnitude f ev locs i | i <- iota 0 (size locs)].
Proof.
rewrite /FindErrorMagnitudes.
have := size_resize (size locs) [::]; move: (resize _ _) => v Hv.
by rewrite -Hv (foldl_set_nth (forney_magnitude f ev locs)).
Qed.

Section Forney.

Variable ds' : seq nat.
Hypothesis ds'_perm : perm_eq ds' ds.

Let locs : seq Z := [seq val (locator d) | d <- ds'].

Lemma ds'_uniq : uniq ds'.
Proof. by rewrite (perm_uniq ds'_perm). Qed.

Lemma ds'_mem (d : nat) : (d \in ds') = (d \in ds).
Proof. exact: perm_mem. Qed.

Lemma nth_locs (j : nat) : (j < size ds')%N ->
  nth 0%Z locs j = val (locator (nth 0%N ds' j)).
Proof. by move=> Hj; rewrite /locs (nth_map 0%N). Qed.

Lemma forney_denominator_fold (i : nat) (x : symbol) (js : seq nat) (a : symbol) :
  {in js, forall j, (j < size ds')%N} ->
  foldl (fun denominator j =>
           if (i != j)%N then
             GenericGF.multiply f denominator
               (termPlus1 (GenericGF.multiply f (nth 0%Z locs j) (val x)))
           else denominator) (val a) js
  = val (a * \prod_(j <- js | j != i) (1 + locator (nth 0%N ds' j) * x)).
Proof.
elim: js a => [|j js IH] a Hjs; first by rewrite big_nil mulr1.
have Hj : (j < size ds')%N by apply: Hjs; rewrite mem_head.
have Hjs' : {in js, forall j, (j < size ds')%N}.
  by move=> k Hk; apply: Hjs; rewrite inE Hk orbT.
rewrite big_cons (eq_sym j i) [foldl _ _ _]/=.
case: ifP => Hij; last exact: IH.
rewrite nth_locs // termPlus1_lxor -valM -val1 -valD -valM IH //.
by rewrite mulrA.
Qed.

Lemma forney_denominator_at (i : nat) : (i < size ds')%N ->
  forney_denominator f locs i (val (locator (nth 0%N ds' i))^-1)
  = val (cofactor (nth 0%N ds' i)).[(locator (nth 0%N ds' i))^-1].
Proof.
move=> Hi; rewrite /forney_denominator -val1 size_map.
have Hjs : {in iota 0 (size ds'), forall j, (j < size ds')%N}.
  by move=> j; rewrite mem_iota.
rewrite (forney_denominator_fold _ _ _ Hjs).
rewrite mul1r; congr (val _); set di := nth 0%N ds' i.
rewrite /cofactor horner_prod -(perm_big _ ds'_perm) /=.
rewrite [RHS](big_nth 0%N) /index_iota subn0 big_seq_cond [RHS]big_seq_cond.
apply: eq_big => [j|j /andP[_ _]]; last first.
  by rewrite factor_at sym_subE.
rewrite mem_iota add0n /=; case Hj: (j < size ds')%N => //=.
by rewrite /di nth_uniq // ds'_uniq.
Qed.

Lemma forney_magnitude_at (i : nat) : (i < size ds')%N ->
  forney_magnitude f (rep true_omega) locs i = val (Y (nth 0%N ds' i)).
Proof.
move=> Hi; set d := nth 0%N ds' i.
have Hd : d \in ds by rewrite -ds'_mem mem_nth.
rewrite /forney_magnitude; cbv zeta.
rewrite nth_locs // -/d inverse_locator forney_denominator_at // -/d.
rewrite evaluateAt_rep true_omega_at //.
have Hc := cofactor_at_self Hd.
have HX := locator_neq0 d.
rewrite -(valV Hc) -valM b_base.
case: (b) b_le1 => [|[|//]] _.
  by rewrite expr0 mulr1 mulfK.
by rewrite -valM expr1 mulfK // mulfK.
Qed.

Lemma magnitudes_found :
  FindErrorMagnitudes f (rep true_omega) locs [::] = [seq val (Y d) | d <- ds'].
Proof.
rewrite FindErrorMagnitudesE size_map.
apply: (@eq_from_nth _ 0%Z); first by rewrite !size_map size_iota.
move=> i; rewrite size_map size_iota => Hi.
rewrite (nth_map 0%N) ?size_iota // nth_iota // add0n forney_magnitude_at //.
by rewrite (nth_map 0%N).
Qed.

(** The corrections: the symbol of exponent [d] sits at the index
    [n - 1 - d] of a vector of [n] symbols. *)

Variable n : nat.
Hypothesis ds_n : {in ds, forall d, (d < n)%N}.

Definition xor_at (buf : seq Z) (d : nat) : seq Z :=
  set_nth 0%Z buf (n.-1 - d) (Z.lxor (nth 0%Z buf (n.-1 - d)) (val (Y d))).

Lemma size_xor_at (buf : seq Z) (d : nat) :
  (d < n)%N -> size buf = n -> size (xor_at buf d) = n.
Proof.
move=> Hd Hn; rewrite /xor_at size_set_nth Hn; apply/maxn_idPr.
by apply: leq_ltn_trans (leq_subr _ _) _; rewrite ltn_predL (leq_ltn_trans _ Hd).
Qed.

Lemma correct_found (js : seq nat) (buf : seq Z) :
  size buf = n -> {in js, forall j, (j < size ds')%N} ->
  ReedSolomonDecoder.correct f locs [seq val (Y d) | d <- ds'] (Z.of_nat n) js buf
  = Returned (NoError, foldl xor_at buf [seq nth 0%N ds' j | j <- js]).
Proof.
elim: js buf => [|j js IH] buf Hn Hjs //.
have Hj : (j < size ds')%N by apply: Hjs; rewrite mem_head.
have Hjs' : {in js, forall j, (j < size ds')%N}.
  by move=> k Hk; apply: Hjs; rewrite inE Hk orbT.
set d := nth 0%N ds' j.
have Hd : d \in ds by rewrite -ds'_mem mem_nth.
have Hdn := ds_n Hd.
rewrite [LHS]/= nth_locs // -/d log_locator ?ds_lt // (nth_map 0%N) // -/d Hn.
have -> : Z.to_nat (Z.of_nat n - 1 - Z.of_nat d) = (n.-1 - d)%N.
  by rewrite -minusE; lia.
move/ltP: (Hdn) => Hdn'.
case: (Z.ltb_spec _ 0) => H1; first by lia.
case: (Z.ltb_spec _ (Z.of_nat n)) => H2; last by lia.
by rewrite IH // size_xor_at.
Qed.

Lemma foldl_xor_at (D : seq nat) (buf : seq Z) :
  uniq D -> {in D, forall d, (d < n)%N} -> size buf = n ->
  size (foldl xor_at buf D) = n /\
  forall p, (p < n)%N ->
    nth 0%Z (foldl xor_at buf D) p
    = if (n.-1 - p)%N \in D
      then Z.lxor (nth 0%Z buf p) (val (Y (n.-1 - p))) else nth 0%Z buf p.
Proof.
elim: D buf => [|d D IH] buf //= /andP[Hd HD] Hlt Hn.
have Hdn : (d < n)%N by apply: Hlt; rewrite mem_head.
have HltD : {in D, forall d, (d < n)%N}.
  by move=> k Hk; apply: Hlt; rewrite inE Hk orbT.
have [Hs Hnth] := IH (xor_at buf d) HD HltD (size_xor_at Hdn Hn).
split=> // p Hp; rewrite Hnth // /xor_at nth_set_nth /= in_cons.
have Hp1 : (p <= n.-1)%N by rewrite -ltnS prednK // (leq_ltn_trans _ Hp).
have Hd1 : (d <= n.-1)%N by rewrite -ltnS prednK // (leq_ltn_trans _ Hp).
have Hpd : (p == (n.-1 - d)%N) = ((n.-1 - p)%N == d).
  by apply/eqP/eqP => [->|<-]; rewrite subKn.
rewrite -Hpd; case: eqP => [Ep|_] //=.
by rewrite Ep subKn // (negbTE Hd).
Qed.

End Forney.

Lemma error_poly_coef (i : nat) :
  error_poly`_i = if i \in ds then Y i else 0.
Proof.
rewrite /error_poly coef_sum.
case: ifP => Hi.
  rewrite (bigD1_seq i) //= coefZ coefXn eqxx mulr1 big1 ?addr0 // => d Hd.
  by rewrite coefZ coefXn eq_sym (negbTE Hd) mulr0.
rewrite big_seq big1 // => d Hd; rewrite coefZ coefXn.
case: eqP => [E|_]; last by rewrite mulr0.
by rewrite -E Hi in Hd.
Qed.

Lemma syndromes_nonzero :
  (0 < size ds)%N -> (size ds <= R)%N -> syndrome_poly != 0.
Proof.
move=> He HeR; apply/eqP => H0.
have Hw : true_omega = 'X^R * key_rest.
  have := key_equation; rewrite H0 mulr0 => /esym/eqP.
  by rewrite addr_eq0 poly_oppE => /eqP.
have Hw0 : true_omega = 0.
  apply/polyP => i; rewrite coef0; case: (ltnP i R) => Hi.
    by rewrite Hw coefXnM Hi.
  by rewrite nth_default // (leq_trans _ Hi) // (leq_trans size_true_omega).
have [d Hd] : exists d, d \in ds.
  by case: (ds) He => // d s _; exists d; rewrite mem_head.
by have := true_omega_neq0_at Hd; rewrite Hw0 horner0 eqxx.
Qed.

End Errors.

Lemma abs_poly (g : nat -> symbol) (k : nat) :
  abs [seq val (g i) | i <- rev (iota 0 k)] = \poly_(i < k) g i.
Proof.
rewrite /abs -map_comp map_rev revK.
apply/polyP => i; rewrite coef_Poly coef_poly.
case: ltnP => Hi; last by rewrite nth_default // size_map size_iota.
by rewrite (nth_map 0%N) ?size_iota // nth_iota //= valK'.
Qed.

Lemma abs_coef (l : seq Z) (i : nat) :
  (abs l)`_i = if (i < size l)%N then sym (nth 0%Z l ((size l).-1 - i)) else 0.
Proof.
rewrite /abs coef_Poly; case: ltnP => Hi; last first.
  by rewrite nth_default // size_rev size_map.
rewrite nth_rev ?size_map // (nth_map 0%Z) ?subnS ?predn_sub //.
by apply: leq_ltn_trans (leq_subr _ _) _; rewrite ltn_predL (leq_ltn_trans _ Hi).
Qed.

(** * Decoding a corrupted codeword *)

Definition differing_positions (c received : seq Z) : seq nat :=
  [seq p <- iota 0 (size c) | nth 0%Z c p != nth 0%Z received p].

Section Decoding.

Variables (c received : seq Z) (twoS : Z).

Hypothesis c_in : all inF c.
Hypothesis received_in : all inF received.
Hypothesis size_received : size received = size c.
Hypothesis size_c : (size c <= order)%N.
Hypothesis c_codeword :
  all (fun i => syndrome_at f (make c) i == 0%Z) (iota 0 (Z.to_nat twoS)).

Let n := size c.
Let ps := differing_positions c received.
Let ds := [seq (n.-1 - p)%N | p <- ps].
Let Y (d : nat) : symbol :=
  sym (Z.lxor (nth 0%Z c (n.-1 - d)) (nth 0%Z received (n.-1 - d))).
Let b := Z.to_nat (GenericGF.generatorBase f).
Let R := Z.to_nat twoS.

Lemma mem_ps (p : nat) :
  (p \in ps) = (p < n)%N && (nth 0%Z c p != nth 0%Z received p).
Proof. by rewrite mem_filter mem_iota add0n /= andbC. Qed.

Lemma pred_subK (p : nat) : (p < n)%N -> (n.-1 - (n.-1 - p))%N = p.
Proof. by move=> Hp; rewrite subKn // -ltnS prednK // (leq_ltn_trans _ Hp). Qed.

Lemma pred_sub_lt (p : nat) : (p < n)%N -> (n.-1 - p < n)%N.
Proof.
by move=> Hp; apply: leq_ltn_trans (leq_subr _ _) _;
   rewrite ltn_predL (leq_ltn_trans _ Hp).
Qed.

Lemma mem_ds (d : nat) :
  (d \in ds) = (d < n)%N && (nth 0%Z c (n.-1 - d) != nth 0%Z received (n.-1 - d)).
Proof.
apply/mapP/andP => [[p]|[Hd Hne]].
  by rewrite mem_ps => /andP[Hp Hne] ->; rewrite pred_subK // pred_sub_lt.
by exists (n.-1 - d)%N; rewrite ?pred_subK // mem_ps pred_sub_lt.
Qed.

Lemma decoding_ds_uniq : uniq ds.
Proof.
have Hinj : {in ps &, injective (fun p => (n.-1 - p)%N)}.
  move=> p q; rewrite !mem_ps => /andP[Hp _] /andP[Hq _] E.
  by rewrite -(pred_subK Hp) E pred_subK.
by rewrite (map_inj_in_uniq Hinj) filter_uniq // iota_uniq.
Qed.

Lemma decoding_ds_n : {in ds, forall d, (d < n)%N}.
Proof. by move=> d; rewrite mem_ds => /andP[]. Qed.

Lemma decoding_ds_lt : {in ds, forall d, (d < order)%N}.
Proof. by move=> d /decoding_ds_n Hd; exact: leq_trans Hd size_c. Qed.

Lemma nth_inF (l : seq Z) (i : nat) : all inF l -> inF (nth 0%Z l i).
Proof.
move=> Hl; case: (ltnP i (size l)) => Hi; first exact: (all_nthP 0%Z Hl).
by rewrite nth_default // zero_in.
Qed.

Lemma lxor_inF (x y : Z) : inF x -> inF y -> inF (Z.lxor x y).
Proof. by move=> Hx Hy; apply/inFP/lxor_inField => //; apply/inFP. Qed.

Lemma decoding_Y (d : nat) :
  Y d = sym (nth 0%Z c (n.-1 - d)) + sym (nth 0%Z received (n.-1 - d)).
Proof. by rewrite /Y symD // nth_inF. Qed.

Lemma decoding_Y_neq0 : {in ds, forall d, Y d != 0}.
Proof.
move=> d; rewrite mem_ds => /andP[_ Hne].
have Hin : inF (Z.lxor (nth 0%Z c (n.-1 - d)) (nth 0%Z received (n.-1 - d))).
  by rewrite lxor_inF ?nth_inF.
by rewrite /Y (sym_eq0 Hin); apply: contra Hne => /eqP /Z.lxor_eq ->.
Qed.

Lemma abs_received : abs received = abs c + error_poly ds Y.
Proof.
apply/polyP => i; rewrite coefD error_poly_coef ?decoding_ds_uniq //.
rewrite !abs_coef size_received -/n mem_ds.
case: ltnP => Hi /=; last by rewrite addr0.
case: eqP => [->|_] /=; first by rewrite addr0.
by rewrite decoding_Y addrA sym_addxx add0r.
Qed.

Lemma b_baseE : GenericGF.generatorBase f = Z.of_nat b.
Proof. by rewrite /b; case: (generatorBase01 ok) => ->. Qed.

Lemma syndrome_at_abs (l : seq Z) (i : nat) : all inF l ->
  syndrome_at f (make l) i = val (abs l).[locator (i + b)].
Proof.
move=> Hl; rewrite /syndrome_at make_abs // -evaluateAt_rep val_locator.
by rewrite Nat2Z.inj_add -b_baseE.
Qed.

Lemma syndrome_at_received (i : nat) : (i < R)%N ->
  syndrome_at f (make received) i = val (error_poly ds Y).[locator (i + b)].
Proof.
move=> Hi; rewrite syndrome_at_abs // abs_received hornerD.
have : syndrome_at f (make c) i == 0%Z.
  by apply: (allP c_codeword); rewrite mem_iota.
by rewrite syndrome_at_abs // val_eq0 => /eqP ->; rewrite add0r.
Qed.

Lemma corrected_buffer (ds' : seq nat) : perm_eq ds' ds ->
  foldl (xor_at Y n) received ds' = c.
Proof.
move=> Hperm.
have Hu : uniq ds' by rewrite (perm_uniq Hperm) decoding_ds_uniq.
have Hlt : {in ds', forall d, (d < n)%N}.
  by move=> d; rewrite (perm_mem Hperm); exact: decoding_ds_n.
have [Hs Hnth] := foldl_xor_at Y Hu Hlt size_received.
apply: (@eq_from_nth _ 0%Z) => // p; rewrite Hs => Hp.
rewrite Hnth // (perm_mem Hperm) mem_ds pred_sub_lt // pred_subK //=.
case: eqP => [->|_] //=.
have Hin : inF (Z.lxor (nth 0%Z c p) (nth 0%Z received p)).
  by rewrite lxor_inF ?nth_inF.
rewrite /Y pred_subK // (symK Hin).
by rewrite Z.lxor_comm Z.lxor_assoc Z.lxor_nilpotent Z.lxor_0_r.
Qed.

Let synd : seq Z :=
  [seq val (error_poly ds Y).[locator (i + b)] | i <- rev (iota 0 R)].

Lemma decoding_syndromes :
  ReedSolomonDecoder.syndrome_loop f (make received) twoS
  = (synd, all (fun i => syndrome_at f (make received) i =? 0)%Z (iota 0 R)).
Proof.
rewrite syndrome_loopE -/R; congr (_, _).
apply/eq_in_map => i; rewrite mem_rev mem_iota add0n /= => Hi.
exact: syndrome_at_received.
Qed.

Lemma synd_abs : abs synd = syndrome_poly R b ds Y.
Proof. exact: (abs_poly (fun i => (error_poly ds Y).[locator (i + b)]) R). Qed.

Lemma synd_in : all inF synd.
Proof. by apply/allP => x /mapP[i _ ->]; exact: val_in. Qed.

Lemma size_ds : size ds = size (differing_positions c received).
Proof. by rewrite size_map. Qed.

Lemma twoS_R :
  (2 * Z.of_nat (size (differing_positions c received)) <= twoS)%Z ->
  twoS = Z.of_nat R /\ ((size ds).*2 <= R)%N.
Proof.
move=> He; split; first by rewrite /R; lia.
by rewrite size_ds -addnn; apply/leP; rewrite -plusE /R; lia.
Qed.

Lemma decoding_some_syndrome :
  (0 < size (differing_positions c received))%N ->
  (2 * Z.of_nat (size (differing_positions c received)) <= twoS)%Z ->
  all (fun i => syndrome_at f (make received) i =? 0)%Z (iota 0 R) = false.
Proof.
move=> Hpos /twoS_R[_ HeR]; rewrite -size_ds in Hpos.
have HeR1 : (size ds <= R)%N by apply: leq_trans HeR; rewrite -addnn leq_addr.
have Hnz := syndromes_nonzero b decoding_ds_uniq decoding_ds_lt decoding_Y_neq0
              Hpos HeR1.
apply/negbTE/negP => Hall; move/negP: Hnz; apply; rewrite -synd_abs.
have -> : synd = nseq R 0%Z.
  apply: (@eq_from_nth _ 0%Z).
    by rewrite size_map size_rev size_iota size_nseq.
  move=> i; rewrite size_map => Hi; rewrite (nth_map 0%N) // nth_nseq.
  set k := nth 0%N _ i.
  have Hk : k \in iota 0 R by rewrite -mem_rev mem_nth.
  have HkR : (k < R)%N by move: Hk; rewrite mem_iota.
  have := allP Hall _ Hk; rewrite (syndrome_at_received HkR).
  by move/eqP => ->; case: ifP.
by rewrite abs_nseq0.
Qed.

Lemma decoding_euclid :
  (0 < size (differing_positions c received))%N ->
  (2 * Z.of_nat (size (differing_positions c received)) <= twoS)%Z ->
  RunEuclideanAlgorithm f synd twoS
  = Returned (NoError, rep (true_sigma ds), rep (true_omega b ds Y)).
Proof.
move=> Hpos /twoS_R[HR HeR]; rewrite -size_ds in Hpos.
rewrite [X in RunEuclideanAlgorithm _ _ X]HR.
exact: (euclid_finds_errors decoding_ds_uniq decoding_ds_lt decoding_Y_neq0
          Hpos HeR synd_in synd_abs).
Qed.

Let found := found_exponents ds.
Let locs : seq Z := [seq val (locator d) | d <- found].

Lemma found_perm : perm_eq found ds.
Proof. exact: (found_exponents_perm decoding_ds_uniq decoding_ds_lt). Qed.

Lemma decoding_chien :
  FindErrorLocations f (rep (true_sigma ds)) [::] = (NoError, locs).
Proof. exact: (chien_finds_errors decoding_ds_uniq decoding_ds_lt). Qed.

Lemma decoding_forney :
  FindErrorMagnitudes f (rep (true_omega b ds Y)) locs [::]
  = [seq val (Y d) | d <- found].
Proof.
exact: (magnitudes_found Y decoding_ds_uniq decoding_ds_lt b_baseE found_perm).
Qed.

(** The index in the codeword that [decode] computes from a location. *)
Definition position_of (location : Z) : nat :=
  Z.to_nat (Z.of_nat (size c) - 1 - GenericGF.log f location).

Lemma position_of_locator (d : nat) : d \in ds ->
  position_of (val (locator d)) = (n.-1 - d)%N.
Proof.
move=> Hd; rewrite /position_of log_locator ?decoding_ds_lt // -/n.
by rewrite -minusE; lia.
Qed.

Lemma val_Y (p : nat) : (p < n)%N ->
  val (Y (n.-1 - p)) = Z.lxor (nth 0%Z c p) (nth 0%Z received p).
Proof.
move=> Hp; rewrite /Y pred_subK // symK //.
by rewrite lxor_inF ?nth_inF.
Qed.

(** X2: The Euclidean algorithm, run on the syndromes of a codeword that has
    been changed in [e] places, [1 <= e <= twoS / 2], returns an error
    locator of degree [e] with constant term 1 that vanishes at the inverse
    of the locator [exp(size - 1 - p)] of every changed place [p]. *)
Theorem euclid_finds_error_locator :
  (0 < size (differing_positions c received))%N ->
  (2 * Z.of_nat (size (differing_positions c received)) <= twoS)%Z ->
  exists sigma omega : seq Z,
    [/\ RunEuclideanAlgorithm f
          (ReedSolomonDecoder.syndrome_loop f (make received) twoS).1 twoS
        = Returned (NoError, sigma, omega),
        degree sigma = Z.of_nat (size (differing_positions c received)),
        coefficient sigma 0 = 1%Z
      & forall p, p \in differing_positions c received ->
          evaluateAt f sigma
            (GenericGF.inverse f
               (GenericGF.exp f (Z.of_nat (size c) - 1 - Z.of_nat p))) = 0%Z].
Proof.
move=> Hpos He; exists (rep (true_sigma ds)), (rep (true_omega b ds Y)).
rewrite decoding_syndromes /= decoding_euclid //; split=> //.
- by rewrite degree_rep size_true_sigma size_ds.
- by rewrite (coefficient_rep _ 0) true_sigma_at0.
move=> p Hp; have Hpn : (p < n)%N by move: Hp; rewrite mem_ps => /andP[].
have Hd : (n.-1 - p)%N \in ds by apply/mapP; exists p.
have -> : (Z.of_nat (size c) - 1 - Z.of_nat p)%Z = Z.of_nat (n.-1 - p).
  by move/ltP: Hpn; rewrite -/n -minusE; lia.
rewrite -val_locator inverse_locator evaluateAt_rep.
apply/eqP; rewrite val_eq0 true_sigma_root.
by apply/hasP; exists (n.-1 - p)%N.
Qed.

(** X3: Chien's search, run on that error locator, succeeds, and the
    positions [receivedCount - 1 - log(location)] that line 165 of [decode]
    computes from the locations, taken as the integers they are, are the
    changed places, each one once; so none of them is negative. *)
Theorem chien_finds_error_positions :
  (0 < size (differing_positions c received))%N ->
  (2 * Z.of_nat (size (differing_positions c received)) <= twoS)%Z ->
  exists sigma omega locations : seq Z,
    [/\ RunEuclideanAlgorithm f
          (ReedSolomonDecoder.syndrome_loop f (make received) twoS).1 twoS
        = Returned (NoError, sigma, omega),
        FindErrorLocations f sigma [::] = (NoError, locations)
      & perm_eq [seq (Z.of_nat (size received) - 1 - GenericGF.log f l)%Z
                | l <- locations]
                [seq Z.of_nat p | p <- differing_positions c received]].
Proof.
move=> Hpos He.
exists (rep (true_sigma ds)), (rep (true_omega b ds Y)), locs.
rewrite decoding_syndromes /= decoding_euclid // decoding_chien; split=> //.
have -> : [seq (Z.of_nat (size received) - 1 - GenericGF.log f l)%Z | l <- locs]
          = [seq Z.of_nat p | p <- [seq (n.-1 - d)%N | d <- found]].
  rewrite /locs -[LHS]map_comp -[RHS]map_comp; apply/eq_in_map => d Hd /=.
  have Hds : d \in ds by rewrite -(perm_mem found_perm).
  rewrite log_locator ?decoding_ds_lt // size_received -/n.
  by have /ltP := decoding_ds_n Hds; rewrite -minusE; lia.
have Hid : [seq (n.-1 - d)%N | d <- ds] = ps.
  rewrite /ds -map_comp -[RHS]map_id; apply/eq_in_map => p /=.
  by rewrite mem_ps => /andP[Hp _]; rewrite pred_subK.
apply: perm_map; rewrite -/ps -Hid; apply: perm_map; exact: found_perm.
Qed.

(** X4: Forney's formula, run on the error evaluator and the locations found,
    returns for every location the difference (XOR) between the symbol of
    the codeword and the symbol received at the place of that location. *)
Theorem forney_finds_error_values :
  (0 < size (differing_positions c received))%N ->
  (2 * Z.of_nat (size (differing_positions c received)) <= twoS)%Z ->
  exists sigma omega locations : seq Z,
    [/\ RunEuclideanAlgorithm f
          (ReedSolomonDecoder.syndrome_loop f (make received) twoS).1 twoS
        = Returned (NoError, sigma, omega),
        FindErrorLocations f sigma [::] = (NoError, locations)
      & FindErrorMagnitudes f omega locations [::]
        = [seq Z.lxor (nth 0%Z c (position_of l))
                      (nth 0%Z received (position_of l)) | l <- locations]].
Proof.
move=> Hpos He.
exists (rep (true_sigma ds)), (rep (true_omega b ds Y)), locs.
rewrite decoding_syndromes /= decoding_euclid // decoding_chien; split=> //.
rewrite decoding_forney /locs -map_comp; apply/eq_in_map => d Hd /=.
have Hds : d \in ds by rewrite -(perm_mem found_perm).
have Hdn := decoding_ds_n Hds.
rewrite position_of_locator // -(val_Y (pred_sub_lt Hdn)) pred_subK //.
Qed.

(** X1: A codeword that has been changed in at most [twoS / 2] places is decoded
    to the codeword. *)
Theorem decode_corrects_errors :
  (2 * Z.of_nat (size (differing_positions c received)) <= twoS)%Z ->
  ReedSolomonDecoder.decode f received twoS = Returned (NoError, c).
Proof.
move=> He; have HtwoS : (0 <= twoS)%Z by lia.
rewrite /ReedSolomonDecoder.decode; move/Z.ltb_ge: (HtwoS) => ->.
rewrite decoding_syndromes.
case He0 : (size (differing_positions c received)) => [|e].
  have Hps : ps = [::] by apply: size0nil.
  have Hds : ds = [::] by rewrite /ds Hps.
  have Erc : received = c.
    by rewrite -[RHS](@corrected_buffer [::]) // Hds.
  have -> : all (fun i => syndrome_at f (make received) i =? 0)%Z (iota 0 R).
    by rewrite Erc; exact: c_codeword.
  by rewrite Erc.
have Hpos : (0 < size (differing_positions c received))%N by rewrite He0.
rewrite decoding_some_syndrome // decoding_euclid //= decoding_chien /=.
rewrite decoding_forney size_map size_received -/n.
have Hjs : {in iota 0 (size found), forall j, (j < size found)%N}.
  by move=> j; rewrite mem_iota.
rewrite (correct_found b Y decoding_ds_lt found_perm decoding_ds_n
           size_received Hjs).
by rewrite -/(mkseq _ _) mkseq_nth corrected_buffer // found_perm.
Qed.

End Decoding.

(** * The decoder in a well-formed field *)

Section WellFormedDecoder.

Import ReedSolomonDecoder.

Lemma inverse_inj (a b : Z) :
  (1 <= a < GenericGF.size f)%Z -> (1 <= b < GenericGF.size f)%Z ->
  GenericGF.inverse f a = GenericGF.inverse f b -> a = b.
Proof.
move=> Ha Hb E; have Hv := inverse_range ok a.
have Ea : GenericGF.inverse f (GenericGF.inverse f a) = a.
  by apply: (inverse_unique ok) => //; rewrite mulC (mulVz ok).
have Eb : GenericGF.inverse f (GenericGF.inverse f a) = b.
  by apply: (inverse_unique ok) => //; rewrite mulC E (mulVz ok).
by rewrite -Ea Eb.
Qed.

(** X9: The locations that [FindErrorLocations] returns with success are
    pairwise distinct: no symbol is corrected twice. *)
Theorem error_locations_distinct (sigma out locs : seq Z) :
  FindErrorLocations f sigma out = (NoError, locs) -> uniq locs.
Proof.
rewrite FindErrorLocationsE; case: ifP => // Hn [<-].
have /minn_idPl -> : (Z.to_nat (GenericGFPoly.degree sigma)
                       <= size (roots_in f sigma (nonzero_elements f)))%N.
  by rewrite leqNgt Hn.
rewrite drop_oversize ?size_locations_shortcut // cats0.
have Hu : uniq (take (Z.to_nat (degree sigma))
                  (roots_in f sigma (nonzero_elements f))).
  by apply: take_uniq; rewrite filter_uniq // nonzero_elements_uniq.
have Hinj : {in take (Z.to_nat (degree sigma))
                  (roots_in f sigma (nonzero_elements f)) &,
             injective (GenericGF.inverse f)}.
  move=> i j /mem_take; rewrite mem_filter mem_nonzero_elements.
  case/and3P => _ /Z.leb_le Hi1 /Z.ltb_lt Hi2 /mem_take.
  rewrite mem_filter mem_nonzero_elements.
  case/and3P => _ /Z.leb_le Hj1 /Z.ltb_lt Hj2.
  exact: inverse_inj.
by rewrite (map_inj_in_uniq Hinj).
Qed.

Lemma rep_polyC (x : symbol) : x != 0 -> rep x%:P = [:: val x].
Proof. by move=> Hx; rewrite /rep polyC_eq0 (negbTE Hx) polyseqC Hx. Qed.

Lemma euclid_init_rep (rCoefs : seq Z) (R : nat) :
  all inF rCoefs -> (size rCoefs <= R)%N -> (0 < R)%N ->
  euclid_init rCoefs (Z.of_nat R) = rep_state (abs rCoefs) 'X^R 1 0.
Proof.
move=> Hin Hsz HR.
have HS : (size (abs rCoefs) <= R)%N.
  by apply: leq_trans (size_Poly _) _; rewrite size_rev size_map.
rewrite /euclid_init make_abs // -val1 setMonomial_rep scale1r.
rewrite setZero_rep setOne_rep !degree_rep size_polyXn /=.
case: (Z.leb_spec (Z.of_nat R) (Z.of_nat (size (abs rCoefs)).-1)) => // H.
by move/leP: HS; move/ltP: HR; move: H; move: (size (abs rCoefs)) => a; lia.
Qed.

(** With at least two syndromes the Euclidean loop is left by its
    condition: no division by zero, and every division lowers the
    degree. *)
Lemma euclid_terminates (rCoefs : seq Z) (R : nat) :
  (2 <= R)%N -> all inF rCoefs -> (size rCoefs <= R)%N ->
  exists st : euclid_state,
    RunEuclideanAlgorithm f rCoefs (Z.of_nat R) = Returned (euclid_finish f st).
Proof.
move=> HR Hin Hsz.
have HS : (size (abs rCoefs) <= R)%N.
  by apply: leq_trans (size_Poly _) _; rewrite size_rev size_map.
rewrite /RunEuclideanAlgorithm euclid_init_rep ?(ltnW HR) //=.
have Hf : (size (abs rCoefs) <= size (rep (abs rCoefs)))%N.
  by rewrite size_rep leqSpred.
have [r [rLast [t [tLast [-> _ _]]]]] :=
  euclid_loop_inv HR (euclid_inv_init HS) Hf.
by exists (rep_state r rLast t tLast).
Qed.

Lemma correct_outcome locs mags n idx received :
  (exists res, correct f locs mags n idx received = Returned res) \/
  correct f locs mags n idx received = OutOfBounds.
Proof.
elim: idx received => [|i idx IH] received /=; first by left; eexists.
case: ifP => _; first by left; eexists.
by case: ifP => _; [exact: IH | right].
Qed.

Lemma syndromes_inF (received : seq Z) (k : nat) :
  all inF received ->
  all inF [seq syndrome_at f (make received) i | i <- rev (iota 0 k)].
Proof.
move=> Hin; apply/allP => x /mapP[i _ ->].
by rewrite syndrome_at_abs //; exact: val_in.
Qed.

(** X5: In a well-formed field, on symbols of the field and with no or with at
    least two check symbols, [decode] returns a status: the exceptions of
    the division and of line 63 are not thrown, the loops end, and no
    correction falls outside the codeword. *)
Theorem decode_returns (received : seq Z) (twoS : Z) :
  all inF received -> (twoS = 0 \/ 2 <= twoS)%Z ->
  exists (s : DecodeStatus) (buf : seq Z),
    decode f received twoS = Returned (s, buf).
Proof.
move=> Hin HtwoS; rewrite /decode.
have -> : (twoS <? 0)%Z = false by apply/Z.ltb_ge; lia.
rewrite syndrome_loopE; case: ifP => Hall; first by eexists; eexists.
case: HtwoS Hall => [->|H2] //.
have HR : (2 <= Z.to_nat twoS)%N by apply/leP; lia.
have Hsz : (size [seq syndrome_at f (make received) i
                 | i <- rev (iota 0 (Z.to_nat twoS))] <= Z.to_nat twoS)%N.
  by rewrite size_map size_rev size_iota.
have [st] := euclid_terminates HR (syndromes_inF (Z.to_nat twoS) Hin) Hsz.
have -> : Z.of_nat (Z.to_nat twoS) = twoS by lia.
move=> -> /= _.
case: (euclid_finish f st) => [[st1 sigma] omega].
case: ifP => _; first by eexists; eexists.
case El: (FindErrorLocations f sigma [::]) => [st2 locs].
case: ifP => Hst2; first by eexists; eexists.
have Est2 : st2 = NoError by case: (st2) Hst2.
rewrite Est2 in El.
case: (correct_outcome locs (FindErrorMagnitudes f omega locs [::])
         (Z.of_nat (size received)) (iota 0 (size locs)) received)
  => [[[s buf] ->]|]; first by exists s, buf.
move=> Hoob; case: (@correct_in_bounds f locs
  (FindErrorMagnitudes f omega locs [::]) (iota 0 (size locs)) received) => //.
move=> i; rewrite mem_iota add0n /= => Hi.
have [j [Hj _ ->]] := locations_from_roots El (mem_nth 0%Z Hi).
have Hr := inverse_range ok j.
by have := log_range ok Hr; lia.
Qed.

(** X6: With one check symbol [decode] cannot correct: when the syndrome is
    not zero, the first division of the Euclidean algorithm leaves the
    remainder 0, whose degree 0 is not below the degree 0 of the divisor,
    and line 63 throws. *)
Theorem decode_one_syndrome_throws (received : seq Z) :
  all inF received -> syndrome_at f (make received) 0 <> 0%Z ->
  decode f received 1 = Thrown runtime_error.
Proof.
move=> Hin Hs; rewrite /decode syndrome_loopE.
have -> : (1 <? 0)%Z = false by [].
have -> : Z.to_nat 1 = 1%N by [].
rewrite [iota 0 1]/= [rev _]/= [map _ _]/= [all _ _]/= andbT.
move/Z.eqb_neq: (Hs) => ->.
have Ein : all inF [:: syndrome_at f (make received) 0].
  exact: (syndromes_inF 1 Hin).
set s0 := syndrome_at f (make received) 0 in Hs Ein *.
have Hs0 : inF s0 by move: Ein; rewrite /= andbT.
have Hx : sym s0 != 0 by rewrite (sym_eq0 Hs0); apply/eqP.
have Eabs : abs [:: s0] = (sym s0)%:P.
  by rewrite abs_cons abs_nil addr0 expr0 alg_polyC.
rewrite /RunEuclideanAlgorithm (@euclid_init_rep [:: s0] 1) // Eabs.
have -> : size (st_r (rep_state (sym s0)%:P 'X^1 1 0)) = 1%N.
  by rewrite /= size_rep size_polyC Hx.
rewrite euclid_loop_S /= degree_rep size_polyC Hx /=.
rewrite euclid_body_rep ?polyC_eq0 // size_polyC Hx /=.
by [].
Qed.

End WellFormedDecoder.

(** X10: On exit of the Euclidean loop, when [t.coefficient(0)] is zero the
    function returns the status sigma-tilde-zero, and [decode] returns it
    with the buffer as it was; otherwise [t] and [r] are both multiplied by
    [inverse(t.coefficient(0))] and become sigma and omega, and the constant
    term of sigma is 1. *)
Theorem euclid_exit_normalizes (rCoefs : seq Z) (R : Z) (st : euclid_state) :
  all inF rCoefs ->
  euclid_loop f R (size (st_r (euclid_init rCoefs R))) (euclid_init rCoefs R)
  = Returned (Continue st) ->
  let sigmaTildeAtZero := coefficient (st_t st) 0 in
  let inverse := GenericGF.inverse f sigmaTildeAtZero in
  (sigmaTildeAtZero = 0%Z ->
   RunEuclideanAlgorithm f rCoefs R
   = Returned (ReedSolomonSigmaTildeZero, st_t st, st_tLast st) /\
   forall received : seq Z,
     (0 <= R)%Z ->
     ReedSolomonDecoder.syndrome_loop f (make received) R = (rCoefs, false) ->
     ReedSolomonDecoder.decode f received R
     = Returned (ReedSolomonSigmaTildeZero, received)) /\
  (sigmaTildeAtZero <> 0%Z ->
   RunEuclideanAlgorithm f rCoefs R
   = Returned (NoError, multiplyScalar f (st_t st) inverse,
               multiplyScalar f (st_r st) inverse) /\
   coefficient (multiplyScalar f (st_t st) inverse) 0 = 1%Z).
Proof.
move=> Hc Hloop /=; rewrite /RunEuclideanAlgorithm Hloop /= /euclid_finish.
split=> [H0|Hn0].
  move/Z.eqb_eq: (H0) => ->; split=> // received HR Hs.
  rewrite /ReedSolomonDecoder.decode Hs /RunEuclideanAlgorithm Hloop /=.
  by rewrite /euclid_finish; move/Z.eqb_eq: H0 => ->; move/Z.ltb_ge: HR => ->.
move/Z.eqb_neq: (Hn0) => ->; split=> //.
have [r [rLast [t [tLast Est]]]] :=
  euclid_loop_rep_state (euclid_init_rep_state R Hc) Hloop.
move: Hn0; rewrite Est /= (coefficient_rep t 0) => Hn0.
have Ht : t`_0 != 0 by rewrite -val_eq0; apply/eqP.
rewrite -valV // multiplyScalar_rep (coefficient_rep _ 0) coefZ.
by rewrite mulVf.
Qed.

End Symbols.

Lemma euclid_exit_normalizes_witness :
  RunEuclideanAlgorithm gf256 [:: 197; 45; 173; 255] 4
  = Returned (NoError, [:: 128; 66; 1], [:: 127; 255]) /\
  GenericGFPoly.coefficient [:: 128; 66; 1] 0 = 1%Z.
Proof.
have ok : GenericGF.wellFormed gf256 by vm_compute.
pose st := EuclidState [:: 108; 187] [:: 214; 155; 112] [:: 215; 35; 99]
             [:: 184; 12]%Z.
have Hc : all (GenericGF.inField gf256) [:: 197; 45; 173; 255]%Z by [].
have Hl : euclid_loop gf256 4 (size (st_r (euclid_init [:: 197; 45; 173; 255] 4)))
            (euclid_init [:: 197; 45; 173; 255] 4) = Returned (Continue st)
  by vm_compute.
have [_ H] := euclid_exit_normalizes ok Hc Hl.
have Hn : GenericGFPoly.coefficient (st_t st) 0 <> 0%Z by [].
exact: (H Hn).
Defined.

Lemma decode_corrects_errors_witness :
  ReedSolomonDecoder.decode gf256 [:: 64; 160; 219; 39; 202; 147; 158; 36] 4
  = Returned (NoError, [:: 64; 245; 219; 39; 202; 147; 52; 36]).
Proof.
have ok : GenericGF.wellFormed gf256 by vm_compute.
by apply: (decode_corrects_errors ok); vm_compute.
Defined.

Lemma euclid_finds_error_locator_witness :
  exists sigma omega : seq Z,
    [/\ RunEuclideanAlgorithm gf256 [:: 197; 45; 173; 255] 4
        = Returned (NoError, sigma, omega),
        GenericGFPoly.degree sigma = 2,
        GenericGFPoly.coefficient sigma 0 = 1
      & forall p, p \in [:: 1; 6]%N ->
          GenericGFPoly.evaluateAt gf256 sigma
            (GenericGF.inverse gf256 (GenericGF.exp gf256 (8 - 1 - Z.of_nat p)))
          = 0].
Proof.
have ok : GenericGF.wellFormed gf256 by vm_compute.
apply: (@euclid_finds_error_locator gf256 ok
          [:: 64; 245; 219; 39; 202; 147; 52; 36]
          [:: 64; 160; 219; 39; 202; 147; 158; 36] 4); by vm_compute.
Defined.

Lemma chien_finds_error_positions_witness :
  exists sigma omega locations : seq Z,
    [/\ RunEuclideanAlgorithm gf256 [:: 197; 45; 173; 255] 4
        = Returned (NoError, sigma, omega),
        FindErrorLocations gf256 sigma [::] = (NoError, locations)
      & perm_eq [seq (Z.of_nat (size [:: 64; 160; 219; 39; 202; 147; 158; 36])
                      - 1 - GenericGF.log gf256 l)%Z
                | l <- locations] [:: 1; 6]%Z].
Proof.
have ok : GenericGF.wellFormed gf256 by vm_compute.
apply: (@chien_finds_error_positions gf256 ok
          [:: 64; 245; 219; 39; 202; 147; 52; 36]
          [:: 64; 160; 219; 39; 202; 147; 158; 36] 4); by vm_compute.
Defined.

Lemma forney_finds_error_values_witness :
  exists sigma omega locations : seq Z,
    [/\ RunEuclideanAlgorithm gf256 [:: 197; 45; 173; 255] 4
        = Returned (NoError, sigma, omega),
        FindErrorLocations gf256 sigma [::] = (NoError, locations)
      & FindErrorMagnitudes gf256 omega locations [::]
        = [seq Z.lxor
                 (nth 0 [:: 64; 245; 219; 39; 202; 147; 52; 36]
                    (position_of gf256 [:: 64; 245; 219; 39; 202; 147; 52; 36] l))
                 (nth 0 [:: 64; 160; 219; 39; 202; 147; 158; 36]
                    (position_of gf256 [:: 64; 245; 219; 39; 202; 147; 52; 36] l))
          | l <- locations]].
Proof.
have ok : GenericGF.wellFormed gf256 by vm_compute.
apply: (@forney_finds_error_values gf256 ok
          [:: 64; 245; 219; 39; 202; 147; 52; 36]
          [:: 64; 160; 219; 39; 202; 147; 158; 36] 4); by vm_compute.
Defined.

Lemma error_locations_distinct_witness : uniq [:: 64; 2]%Z.
Proof.
have ok : GenericGF.wellFormed gf256 by vm_compute.
apply: (@error_locations_distinct gf256 ok [:: 128; 66; 1]%Z [::]).
by vm_compute.
Defined.

Lemma decode_returns_witness :
  exists (s : DecodeStatus) (buf : seq Z),
    ReedSolomonDecoder.decode gf256 [:: 64; 84; 219; 39; 202; 96; 52; 178]%Z 4
    = Returned (s, buf).
Proof.
have ok : GenericGF.wellFormed gf256 by vm_compute.
by apply: (decode_returns ok); [vm_compute | right].
Defined.

Lemma decode_one_syndrome_throws_witness :
  ReedSolomonDecoder.decode gf256 [:: 64; 160; 219; 39; 202; 147; 158; 36]%Z 1
  = Thrown runtime_error.
Proof.
have ok : GenericGF.wellFormed gf256 by vm_compute.
by apply: (decode_one_syndrome_throws ok); vm_compute.
Defined.

(** * BitHacks: the bit manipulations on 32-bit words

    A [uint32_t] is modelled as an integer in [[0, 2^32)]; the left shifts,
    the additions, the subtraction and the multiplication wrap around
    modulo [2^32]. *)

Module BitHacks.

Definition uint32 (x : Z) : Z := x mod 2 ^ 32.

(** [int32_t(v)]: the same 32 bits read in two's complement. *)
Definition int32 (v : Z) : Z := if v <? 2 ^ 31 then v else v - 2 ^ 32.

(** Lines 206-217. *)
Definition NumberOfLeadingZeros (x : Z) : Z :=
  if x =? 0 then 32
  else
    let n := 0 in
    let: (n, x) :=
      if Z.land x 0xFFFF0000 =? 0 then (n + 16, uint32 (Z.shiftl x 16))
      else (n, x) in
    let: (n, x) :=
      if Z.land x 0xFF000000 =? 0 then (n + 8, uint32 (Z.shiftl x 8))
      else (n, x) in
    let: (n, x) :=
      if Z.land x 0xF0000000 =? 0 then (n + 4, uint32 (Z.shiftl x 4))
      else (n, x) in
    let: (n, x) :=
      if Z.land x 0xC0000000 =? 0 then (n + 2, uint32 (Z.shiftl x 2))
      else (n, x) in
    let n := if Z.land x 0x80000000 =? 0 then n + 1 else n in
    n.

(** The unary minus on [int32_t]. The negation of [INT32_MIN] overflows:
    the behaviour is undefined, and there is no result. *)
Definition negate (x : Z) : option Z :=
  if x =? - 2 ^ 31 then None else Some (- x).

(** Lines 222-233; [v &= -int32_t(v)] keeps the lowest bit that is set.
    For the word [0x80000000] the negation of line 225 is the one of
    [INT32_MIN], and the function has no defined result. *)
Definition NumberOfTrailingZeros (v : Z) : option Z :=
  let c := 32 in
  if negate (int32 v) is Some m then
    let v := Z.land v (uint32 m) in
    let c := if v =? 0 then c else c - 1 in
    let c := if Z.land v 0x0000FFFF =? 0 then c else c - 16 in
    let c := if Z.land v 0x00FF00FF =? 0 then c else c - 8 in
    let c := if Z.land v 0x0F0F0F0F =? 0 then c else c - 4 in
    let c := if Z.land v 0x33333333 =? 0 then c else c - 2 in
    let c := if Z.land v 0x55555555 =? 0 then c else c - 1 in
    Some c
  else None.

(** Lines 235-247. *)
Definition Reverse (v : Z) : Z :=
  let v := Z.lor (Z.land (Z.shiftr v 1) 0x55555555)
                 (uint32 (Z.shiftl (Z.land v 0x55555555) 1)) in
  let v := Z.lor (Z.land (Z.shiftr v 2) 0x33333333)
                 (uint32 (Z.shiftl (Z.land v 0x33333333) 2)) in
  let v := Z.lor (Z.land (Z.shiftr v 4) 0x0F0F0F0F)
                 (uint32 (Z.shiftl (Z.land v 0x0F0F0F0F) 4)) in
  let v := Z.lor (Z.land (Z.shiftr v 8) 0x00FF00FF)
                 (uint32 (Z.shiftl (Z.land v 0x00FF00FF) 8)) in
  let v := Z.lor (Z.shiftr v 16) (uint32 (Z.shiftl v 16)) in
  v.

(** Lines 249-254. *)
Definition CountBitsSet (v : Z) : Z :=
  let v := uint32 (v - Z.land (Z.shiftr v 1) 0x55555555) in
  let v := uint32 (Z.land v 0x33333333 + Z.land (Z.shiftr v 2) 0x33333333) in
  Z.shiftr
    (uint32 (Z.land (uint32 (v + Z.shiftr v 4)) 0xF0F0F0F * 0x1010101)) 24.

(** Lines 257-267; [(v > c) << k] is [2^k] when [v > c] and 0 otherwise. *)
Definition HighestBitSet (v : Z) : Z :=
  let r := Z.shiftl (Z.b2z (0xFFFF <? v)) 4 in
  let v := Z.shiftr v r in
  let shift := Z.shiftl (Z.b2z (0xFF <? v)) 3 in
  let v := Z.shiftr v shift in
  let r := Z.lor r shift in
  let shift := Z.shiftl (Z.b2z (0xF <? v)) 2 in
  let v := Z.shiftr v shift in
  let r := Z.lor r shift in
  let shift := Z.shiftl (Z.b2z (0x3 <? v)) 1 in
  let v := Z.shiftr v shift in
  let r := Z.lor r shift in
  let r := Z.lor r (Z.shiftr v 1) in
  r.

End BitHacks.

(** ** Bits of integers *)

Lemma testbit_small (x i : Z) : 0 <= x < 2 ^ i -> Z.testbit x i = false.
Proof.
move=> Hx; case: (Z.ltb_spec i 0) => Hi; first exact: Z.testbit_neg_r.
by apply/Z.testbit_false => //; rewrite Z.div_small.
Qed.

Lemma testbit_above (k x i : Z) :
  0 <= k <= i -> 0 <= x < 2 ^ k -> Z.testbit x i = false.
Proof.
move=> Hk Hx; apply: testbit_small; split; first lia.
by apply: Z.lt_le_trans (proj2 Hx) _; apply: Z.pow_le_mono_r; lia.
Qed.

Lemma below_pow2 (k x : Z) :
  0 <= k -> 0 <= x -> (forall i, k <= i -> Z.testbit x i = false) -> x < 2 ^ k.
Proof.
move=> Hk Hx H; case: (Z.eq_dec x 0) => [->|Hx0].
  by apply: Z.pow_pos_nonneg; lia.
apply/Z.log2_lt_pow2; first lia.
case: (Z.lt_ge_cases (Z.log2 x) k) => // Hl.
by have := H _ Hl; rewrite Z.bit_log2 //; lia.
Qed.

(** The mask [2^32 - 2^k] selects the bits [k .. 31]. *)
Lemma testbit_high_mask (k i : Z) :
  0 <= k <= 32 -> 0 <= i ->
  Z.testbit (2 ^ 32 - 2 ^ k) i = (k <=? i) && (i <? 32).
Proof.
move=> Hk Hi.
have -> : 2 ^ 32 - 2 ^ k = Z.shiftl (Z.ones (32 - k)) k.
  rewrite Z.shiftl_mul_pow2 ?Z.ones_equiv; try lia.
  have -> : 2 ^ 32 = 2 ^ (32 - k) * 2 ^ k by rewrite -Z.pow_add_r; f_equal; lia.
  lia.
rewrite Z.shiftl_spec //; case: (Z.leb_spec k i) => Hki; rewrite ?andTb ?andFb.
  by rewrite Z.testbit_ones_nonneg; lia.
by rewrite Z.testbit_neg_r //; lia.
Qed.

Lemma high_mask (k x : Z) :
  0 <= k <= 32 -> 0 <= x < 2 ^ 32 ->
  (Z.land x (2 ^ 32 - 2 ^ k) =? 0) = (x <? 2 ^ k).
Proof.
move=> Hk Hx; case: (Z.ltb_spec x (2 ^ k)) => Hlt.
  apply/Z.eqb_eq/Z.bits_inj' => i Hi.
  rewrite Z.land_spec Z.bits_0 testbit_high_mask //.
  case: (Z.leb_spec k i) => Hki; rewrite ?andbF //.
  by rewrite (@testbit_above k) //; lia.
apply/Z.eqb_neq => H0.
have Hx0 : 0 < x by have := Z.pow_pos_nonneg 2 k; lia.
have Hb := Z.bit_log2 x Hx0.
have H1 : k <= Z.log2 x by apply/Z.log2_le_pow2.
have H2 : Z.log2 x < 32 by apply/Z.log2_lt_pow2; lia.
have := f_equal (fun z => Z.testbit z (Z.log2 x)) H0.
have Hl0 : 0 <= Z.log2 x by lia.
rewrite Z.land_spec Hb (testbit_high_mask Hk Hl0) Z.bits_0.
by case: (Z.leb_spec k (Z.log2 x)); case: (Z.ltb_spec (Z.log2 x) 32) => //; lia.
Qed.

(** ** NumberOfLeadingZeros and HighestBitSet *)

Section LeadingZeros.

Import BitHacks.

Lemma shiftl_uint32 (x k : Z) :
  0 <= k -> 0 <= x -> x * 2 ^ k < 2 ^ 32 -> uint32 (Z.shiftl x k) = x * 2 ^ k.
Proof.
move=> Hk Hx Hlt; rewrite /uint32 Z.shiftl_mul_pow2 // Z.mod_small //.
by split=> //; apply: Z.mul_nonneg_nonneg => //; apply: Z.pow_nonneg.
Qed.

Ltac nlz_step k B F :=
  lazymatch goal with
  | |- context [Z.land ?x ?m =? 0] =>
      replace (Z.land x m =? 0) with (x <? B)
        by (symmetry; apply (@high_mask (32 - k) x); lia);
      destruct (Z.ltb_spec x B);
      [ replace (uint32 (Z.shiftl x k)) with (x * F)
          by (symmetry; apply (@shiftl_uint32 x k); lia) | ];
      cbv beta iota zeta
  end.

Lemma log2_from_bounds (x n : Z) :
  0 <= n <= 31 -> 2 ^ (31 - n) <= x < 2 ^ (32 - n) -> n = 31 - Z.log2 x.
Proof.
move=> Hn Hp; rewrite (@Z.log2_unique x (31 - n)); try lia.
by have -> : Z.succ (31 - n) = 32 - n by lia.
Qed.

(** The five tests of [NumberOfLeadingZeros] locate [x] between two
    consecutive powers of 2. *)
Lemma NumberOfLeadingZeros_ind (x : Z) (P : Z -> Prop) :
  0 < x < 2 ^ 32 ->
  (forall n, 0 <= n <= 31 -> 2 ^ (31 - n) <= x < 2 ^ (32 - n) -> P n) ->
  P (NumberOfLeadingZeros x).
Proof.
move=> Hx HP; rewrite /NumberOfLeadingZeros.
have /Z.eqb_neq -> : x <> 0 by lia.
nlz_step 16 65536 65536; nlz_step 8 16777216 256; nlz_step 4 268435456 16;
  nlz_step 2 1073741824 4; nlz_step 1 2147483648 2.
all: apply: HP; lia.
Qed.

Lemma NumberOfLeadingZeros_log2 (x : Z) :
  0 < x < 2 ^ 32 -> NumberOfLeadingZeros x = 31 - Z.log2 x.
Proof.
move=> Hx.
apply: (@NumberOfLeadingZeros_ind x (fun n => n = 31 - Z.log2 x) Hx) => n Hn Hp.
exact: log2_from_bounds.
Qed.

Lemma shiftr_div (v k d : Z) : 0 <= k -> d = 2 ^ k -> Z.shiftr v k = v / d.
Proof. by move=> Hk ->; rewrite Z.shiftr_div_pow2. Qed.

Ltac hbs_step c k s d :=
  lazymatch goal with
  | |- context [c <? ?v] =>
      destruct (Z.ltb_spec c v);
      [ change (Z.shiftl (Z.b2z true) k) with s;
        rewrite ?(@shiftr_div _ s d (ltac:(lia)) (ltac:(reflexivity)))
      | change (Z.shiftl (Z.b2z false) k) with 0; rewrite ?Z.shiftr_0_r ]
  end.

Ltac hbs_last :=
  lazymatch goal with
  | |- context [Z.shiftr ?v 1] =>
      rewrite (@shiftr_div v 1 2 (ltac:(lia)) (ltac:(reflexivity)));
      let H := fresh "H" in
      assert (H : v / 2 = 0 \/ v / 2 = 1) by (Z.div_mod_to_equations; lia);
      destruct H as [H|H]; rewrite H
  end.

Ltac eval_lor :=
  repeat match goal with
  | |- context [Z.lor ?a ?b] =>
      let v := eval vm_compute in (Z.lor a b) in change (Z.lor a b) with v
  end.

(** The comparisons of [HighestBitSet] locate [v] between two consecutive
    powers of 2. *)
Lemma HighestBitSet_ind (v : Z) (P : Z -> Prop) :
  0 < v < 2 ^ 32 ->
  (forall r, 0 <= r <= 31 -> 2 ^ r <= v < 2 ^ (r + 1) -> P r) ->
  P (HighestBitSet v).
Proof.
move=> Hv HP; rewrite /HighestBitSet; cbv zeta.
hbs_step 65535 4 16 65536; hbs_step 255 3 8 256; hbs_step 15 2 4 16;
  hbs_step 3 1 2 4; hbs_last; eval_lor.
all: apply: HP; Z.div_mod_to_equations; lia.
Qed.

End LeadingZeros.

(** ** NumberOfTrailingZeros *)

Section TrailingZeros.

Import BitHacks.

Lemma land_opp_odd (a : Z) : Z.land (2 * a + 1) (- (2 * a + 1)) = 1.
Proof.
have -> : - (2 * a + 1) = 2 * Z.lnot a + 1 by rewrite /Z.lnot; lia.
apply: Z.bits_inj' => i Hi; rewrite Z.land_spec testbit_one //.
case: (Z.eqb_spec i 0) => [->|Hi0]; first by rewrite !Z.testbit_odd_0.
have -> : i = Z.succ (i - 1) by lia.
rewrite !Z.testbit_odd_succ; try lia.
by rewrite Z.lnot_spec; try lia; case: (Z.testbit a _).
Qed.

Lemma land_opp_even (a : Z) : Z.land (2 * a) (- (2 * a)) = 2 * Z.land a (- a).
Proof.
have -> : - (2 * a) = 2 * - a by lia.
apply: Z.bits_inj' => i Hi; rewrite Z.land_spec.
case: (Z.eqb_spec i 0) => [->|Hi0]; first by rewrite !Z.testbit_even_0.
have -> : i = Z.succ (i - 1) by lia.
by rewrite !Z.testbit_even_succ ?Z.land_spec //; lia.
Qed.

(** [v & -v] is the lowest bit of [v] that is set. *)
Lemma lowest_bit_pos (p : positive) :
  exists k : Z,
    [/\ 0 <= k, Z.land (Z.pos p) (- Z.pos p) = 2 ^ k,
        Z.testbit (Z.pos p) k = true
      & forall i, 0 <= i < k -> Z.testbit (Z.pos p) i = false].
Proof.
elim: p => [p _|p [k [Hk Hl Hb Hz]]|].
- exists 0; rewrite Pos2Z.inj_xI land_opp_odd Z.testbit_odd_0.
  by split=> // i Hi; lia.
- exists (k + 1); rewrite Pos2Z.inj_xO land_opp_even Hl.
  have -> : k + 1 = Z.succ k by lia.
  rewrite Z.testbit_even_succ // Z.pow_succ_r //; split=> //; first lia.
  move=> i Hi; case: (Z.eq_dec i 0) => [->|Hi0]; first exact: Z.testbit_even_0.
  have Hi1 : 0 <= i - 1 by lia.
  have -> : i = Z.succ (i - 1) by lia.
  by rewrite (Z.testbit_even_succ _ _ Hi1); apply: Hz; lia.
- by exists 0; split=> // i Hi; lia.
Qed.

Lemma uint32_opp_int32 (v : Z) : uint32 (- int32 v) = uint32 (- v).
Proof.
rewrite /int32 /uint32; case: (v <? 2 ^ 31) => //.
have -> : - (v - 2 ^ 32) = - v + 1 * 2 ^ 32 by lia.
by rewrite Z.mod_add.
Qed.

Lemma land_uint32 (v w : Z) :
  0 <= v < 2 ^ 32 -> Z.land v (uint32 w) = Z.land v w.
Proof.
move=> Hv; rewrite /uint32 -Z.land_ones // [Z.land w _]Z.land_comm Z.land_assoc.
by rewrite Z.land_ones // Z.mod_small.
Qed.

Lemma lowest_bit (v : Z) :
  0 < v < 2 ^ 32 ->
  exists k : Z,
    [/\ 0 <= k < 32, Z.land v (uint32 (- int32 v)) = 2 ^ k,
        Z.testbit v k = true
      & forall i, 0 <= i < k -> Z.testbit v i = false].
Proof.
move=> Hv; have Hv' : 0 <= v < 2 ^ 32 by lia.
rewrite uint32_opp_int32 (land_uint32 _ Hv') {Hv'}.
case: v Hv => [|p|p] Hv; try lia.
have [k [Hk Hl Hb Hz]] := lowest_bit_pos p; exists k; split=> //.
split=> //; case: (Z.lt_ge_cases k 32) => // Hk32.
by move: Hb; rewrite (@testbit_above 32) //; lia.
Qed.

(** Lines 226-232: what is done with the isolated bit. *)
Definition trailing_count (v : Z) : Z :=
  let c := 32 in
  let c := if v =? 0 then c else c - 1 in
  let c := if Z.land v 0x0000FFFF =? 0 then c else c - 16 in
  let c := if Z.land v 0x00FF00FF =? 0 then c else c - 8 in
  let c := if Z.land v 0x0F0F0F0F =? 0 then c else c - 4 in
  let c := if Z.land v 0x33333333 =? 0 then c else c - 2 in
  let c := if Z.land v 0x55555555 =? 0 then c else c - 1 in
  c.

Lemma negate_int32 (v : Z) :
  0 <= v < 2 ^ 32 -> v <> 2 ^ 31 -> negate (int32 v) = Some (- int32 v).
Proof.
move=> Hv Hne; rewrite /negate /int32.
by case: (Z.ltb_spec v (2 ^ 31)) => Hlt; case: Z.eqb_spec => //; lia.
Qed.

Lemma NumberOfTrailingZerosE (v : Z) :
  0 <= v < 2 ^ 32 -> v <> 2 ^ 31 ->
  NumberOfTrailingZeros v
  = Some (trailing_count (Z.land v (uint32 (- int32 v)))).
Proof. by move=> Hv Hne; rewrite /NumberOfTrailingZeros negate_int32. Qed.

(** The one word without a result. *)
Lemma NumberOfTrailingZeros_undefined (v : Z) :
  0 <= v < 2 ^ 32 -> (NumberOfTrailingZeros v = None <-> v = 2 ^ 31).
Proof.
move=> Hv; split=> [|->]; last by [].
case: (Z.eq_dec v (2 ^ 31)) => // Hne.
by rewrite NumberOfTrailingZerosE.
Qed.

Lemma trailing_count_pow2 (k : Z) : 0 <= k < 32 -> trailing_count (2 ^ k) = k.
Proof.
move=> Hk; apply/Z.eqb_eq.
have H : all (fun k => trailing_count (2 ^ k) =? k) (GenericGF.zrange 32).
  by vm_compute.
exact: (zrangeP H).
Qed.

End TrailingZeros.

(** ** Reverse *)

Section ReverseBits.

Import BitHacks.

(** One line of [Reverse]: the blocks of [s] bits selected by the mask [m]
    change places with their upper neighbours. *)
Definition swap_blocks (s m v : Z) : Z :=
  Z.lor (Z.land (Z.shiftr v s) m) (uint32 (Z.shiftl (Z.land v m) s)).

Definition swap_halves (v : Z) : Z :=
  Z.lor (Z.shiftr v 16) (uint32 (Z.shiftl v 16)).

Lemma ReverseE (v : Z) :
  Reverse v =
  swap_halves
    (swap_blocks 8 0x00FF00FF
       (swap_blocks 4 0x0F0F0F0F
          (swap_blocks 2 0x33333333 (swap_blocks 1 0x55555555 v)))).
Proof. by []. Qed.

(** The same on the bits, a word being the function from the index of a bit
    to its value. *)
Definition bit_swap (s m : Z) (g : Z -> bool) (i : Z) : bool :=
  (g (i + s) && Z.testbit m i) || [&& i <? 32, g (i - s) & Z.testbit m (i - s)].

Definition bit_halves (g : Z -> bool) (i : Z) : bool :=
  g (i + 16) || ((i <? 32) && g (i - 16)).

Lemma testbit_swap_blocks (s m v i : Z) :
  0 <= s ->
  Z.testbit (swap_blocks s m v) i = bit_swap s m (Z.testbit v) i.
Proof.
move=> Hs; rewrite /bit_swap; case: (Z.lt_ge_cases i 0) => Hi.
  rewrite !(Z.testbit_neg_r m); try lia.
  by rewrite Z.testbit_neg_r // !andbF.
rewrite /swap_blocks Z.lor_spec Z.land_spec Z.shiftr_spec //.
by rewrite /uint32 Z.testbit_mod_pow2 // Z.shiftl_spec // Z.land_spec.
Qed.

Lemma testbit_swap_halves (v i : Z) :
  0 <= i -> Z.testbit (swap_halves v) i = bit_halves (Z.testbit v) i.
Proof.
move=> Hi; rewrite /swap_halves /bit_halves Z.lor_spec Z.shiftr_spec //.
by rewrite /uint32 Z.testbit_mod_pow2 // Z.shiftl_spec.
Qed.

Lemma bit_swap_ext (s m : Z) (g g' : Z -> bool) (i : Z) :
  (forall j, g j = g' j) -> bit_swap s m g i = bit_swap s m g' i.
Proof. by move=> H; rewrite /bit_swap !H. Qed.

Definition bit_reverse (g : Z -> bool) : Z -> bool :=
  bit_halves
    (bit_swap 8 0x00FF00FF
       (bit_swap 4 0x0F0F0F0F
          (bit_swap 2 0x33333333 (bit_swap 1 0x55555555 g)))).

Lemma testbit_Reverse (v i : Z) :
  0 <= i -> Z.testbit (Reverse v) i = bit_reverse (Z.testbit v) i.
Proof.
move=> Hi; rewrite ReverseE testbit_swap_halves // /bit_reverse /bit_halves.
have E8 j : Z.testbit
              (swap_blocks 8 0x00FF00FF
                 (swap_blocks 4 0x0F0F0F0F
                    (swap_blocks 2 0x33333333 (swap_blocks 1 0x55555555 v)))) j
            = bit_swap 8 0x00FF00FF
                (bit_swap 4 0x0F0F0F0F
                   (bit_swap 2 0x33333333
                      (bit_swap 1 0x55555555 (Z.testbit v)))) j.
  rewrite testbit_swap_blocks //; apply: bit_swap_ext => j4.
  rewrite testbit_swap_blocks //; apply: bit_swap_ext => j2.
  rewrite testbit_swap_blocks //; apply: bit_swap_ext => j1.
  by rewrite testbit_swap_blocks.
by rewrite !E8.
Qed.

Ltac bool_norm :=
  rewrite ?andbT ?andbF ?andTb ?andFb ?orbF ?orFb ?orbT ?orTb.

(** On the bits, the five lines turn the word around. *)
Lemma bit_reverse_mirror (g : Z -> bool) (i : Z) :
  0 <= i < 32 -> bit_reverse g i = g (31 - i).
Proof.
move=> Hi.
have -> : i = Z.of_nat (Z.to_nat i) by lia.
have : (Z.to_nat i < 32)%N by apply/ltP; lia.
move: (Z.to_nat i) => k {i Hi}.
do 32 (case: k => [_|k];
  first by cbv -[andb orb]; bool_norm).
by [].
Qed.

End ReverseBits.

(** ** CountBitsSet *)

Section CountBits.

Import BitHacks.

(** A word made of four bytes, the lowest first. *)
Definition W4 (a b c d : Z) : Z := a + 256 * (b + 256 * (c + 256 * d)).

Lemma testbit_split (k lo hi i : Z) :
  0 <= k -> 0 <= lo < 2 ^ k -> 0 <= i ->
  Z.testbit (lo + 2 ^ k * hi) i
  = if i <? k then Z.testbit lo i else Z.testbit hi (i - k).
Proof.
move=> Hk Hlo Hi.
have Hp : 2 ^ k <> 0 by have := Z.pow_pos_nonneg 2 k; lia.
case: (Z.ltb_spec i k) => Hik.
  rewrite -(@Z.mod_pow2_bits_low (lo + 2 ^ k * hi) k i) //.
  by rewrite [2 ^ k * hi]Z.mul_comm Z.mod_add // Z.mod_small.
have -> : Z.testbit (lo + 2 ^ k * hi) i
          = Z.testbit (lo + 2 ^ k * hi) (i - k + k) by f_equal; lia.
rewrite -Z.div_pow2_bits; try lia.
by rewrite [2 ^ k * hi]Z.mul_comm Z.div_add // Z.div_small.
Qed.

Lemma land_range (k a b : Z) :
  0 <= k -> 0 <= a < 2 ^ k -> 0 <= Z.land a b < 2 ^ k.
Proof.
move=> Hk Ha.
have H0 : 0 <= Z.land a b by apply/Z.land_nonneg; left; lia.
split=> //; apply: below_pow2 => // i Hi.
by rewrite Z.land_spec (@testbit_above k a i).
Qed.

Lemma land_split (k lo hi lo' hi' : Z) :
  0 <= k -> 0 <= lo < 2 ^ k -> 0 <= lo' < 2 ^ k ->
  Z.land (lo + 2 ^ k * hi) (lo' + 2 ^ k * hi')
  = Z.land lo lo' + 2 ^ k * Z.land hi hi'.
Proof.
move=> Hk Hlo Hlo'; apply: Z.bits_inj' => i Hi.
have Hl := @land_range k lo lo' Hk Hlo.
rewrite Z.land_spec !testbit_split //.
by case: (i <? k); rewrite Z.land_spec.
Qed.

Lemma land_W4 (a b c d a' b' c' d' : Z) :
  0 <= a < 256 -> 0 <= b < 256 -> 0 <= c < 256 ->
  0 <= a' < 256 -> 0 <= b' < 256 -> 0 <= c' < 256 ->
  Z.land (W4 a b c d) (W4 a' b' c' d')
  = W4 (Z.land a a') (Z.land b b') (Z.land c c') (Z.land d d').
Proof.
move=> Ha Hb Hc Ha' Hb' Hc'; rewrite /W4.
have E : 256 = 2 ^ 8 by [].
have H8 : 0 <= 8 by [].
rewrite E in Ha Hb Hc Ha' Hb' Hc' *.
by rewrite (land_split _ _ H8 Ha Ha') (land_split _ _ H8 Hb Hb')
           (land_split _ _ H8 Hc Hc').
Qed.

(** What the three lines of [CountBitsSet] do to one byte. *)
Definition pairs_count (b : Z) : Z := b - Z.land (b / 2) 0x55.
Definition nibbles_count (p : Z) : Z := Z.land p 0x33 + Z.land (p / 4) 0x33.
Definition byte_count (q : Z) : Z := Z.land (q + q / 16) 0x0F.

Lemma all_bytes2 (n : Z) (P : Z -> Z -> bool) :
  all (fun b => all (P b) (GenericGF.zrange n)) (GenericGF.zrange 256) ->
  forall b e, 0 <= b < 256 -> 0 <= e < n -> P b e.
Proof. by move=> H b e Hb He; apply: (zrangeP (zrangeP H Hb)). Qed.

(** The bit that a right shift brings in from the next byte is masked. *)
Lemma pairs_mask (b e : Z) : 0 <= b < 256 -> 0 <= e < 2 ->
  Z.land (b / 2 + 128 * e) 0x55 = Z.land (b / 2) 0x55.
Proof.
move=> Hb He; apply/Z.eqb_eq.
have H : all (fun b => all (fun e =>
             Z.land (b / 2 + 128 * e) 0x55 =? Z.land (b / 2) 0x55)
           (GenericGF.zrange 2)) (GenericGF.zrange 256) by vm_compute.
exact: (all_bytes2 H).
Qed.

Lemma nibbles_mask (p e : Z) : 0 <= p < 256 -> 0 <= e < 4 ->
  Z.land (p / 4 + 64 * e) 0x33 = Z.land (p / 4) 0x33.
Proof.
move=> Hp He; apply/Z.eqb_eq.
have H : all (fun p => all (fun e =>
             Z.land (p / 4 + 64 * e) 0x33 =? Z.land (p / 4) 0x33)
           (GenericGF.zrange 4)) (GenericGF.zrange 256) by vm_compute.
exact: (all_bytes2 H).
Qed.

Lemma byte_mask (q e : Z) : 0 <= q < 256 -> 0 <= e < 16 ->
  Z.land (q + q / 16 + 16 * e) 0x0F = Z.land (q + q / 16) 0x0F.
Proof.
move=> Hq He; apply/Z.eqb_eq.
have H : all (fun q => all (fun e =>
             Z.land (q + q / 16 + 16 * e) 0x0F =? Z.land (q + q / 16) 0x0F)
           (GenericGF.zrange 16)) (GenericGF.zrange 256) by vm_compute.
exact: (all_bytes2 H).
Qed.

Lemma pairs_count_range (b : Z) : 0 <= b < 256 -> 0 <= pairs_count b < 256.
Proof.
move=> Hb.
have H : all (fun b => (0 <=? pairs_count b) && (pairs_count b <? 256))
           (GenericGF.zrange 256) by vm_compute.
by have /andP[/Z.leb_le H1 /Z.ltb_lt H2] := zrangeP H Hb.
Qed.

Lemma nibbles_count_range (p : Z) : 0 <= p < 256 ->
  0 <= nibbles_count p <= 102 /\ 0 <= nibbles_count p mod 16 <= 6.
Proof.
move=> Hp.
have H : all (fun p => [&& 0 <=? nibbles_count p, nibbles_count p <=? 102,
                           0 <=? nibbles_count p mod 16
                         & nibbles_count p mod 16 <=? 6])
           (GenericGF.zrange 256) by vm_compute.
have /and4P[/Z.leb_le H1 /Z.leb_le H2 /Z.leb_le H3 /Z.leb_le H4] := zrangeP H Hp.
by split; split.
Qed.

Lemma byte_count_range (q : Z) : 0 <= q < 256 -> 0 <= byte_count q < 16.
Proof. by move=> Hq; rewrite /byte_count Z.land_comm; apply: (@land_range 4 15). Qed.

Lemma W4_range (a b c d : Z) :
  0 <= a < 256 -> 0 <= b < 256 -> 0 <= c < 256 -> 0 <= d < 256 ->
  0 <= W4 a b c d < 2 ^ 32.
Proof. by rewrite /W4; lia. Qed.

Lemma uint32_W4 (a b c d : Z) :
  0 <= a < 256 -> 0 <= b < 256 -> 0 <= c < 256 -> 0 <= d < 256 ->
  uint32 (W4 a b c d) = W4 a b c d.
Proof.
by move=> Ha Hb Hc Hd; rewrite /uint32 Z.mod_small //; apply: W4_range.
Qed.

(** A right shift by 1, 2 or 4 bits, byte by byte: every byte takes its
    high bits from the next one. *)
Lemma shiftr1_W4 (a b c d : Z) :
  0 <= a < 256 -> 0 <= b < 256 -> 0 <= c < 256 -> 0 <= d < 256 ->
  Z.shiftr (W4 a b c d) 1
  = W4 (a / 2 + 128 * (b mod 2)) (b / 2 + 128 * (c mod 2))
       (c / 2 + 128 * (d mod 2)) (d / 2).
Proof.
move=> Ha Hb Hc Hd; rewrite (@shiftr_div _ 1 2) // /W4.
by Z.div_mod_to_equations; lia.
Qed.

Lemma shiftr2_W4 (a b c d : Z) :
  0 <= a < 256 -> 0 <= b < 256 -> 0 <= c < 256 -> 0 <= d < 256 ->
  Z.shiftr (W4 a b c d) 2
  = W4 (a / 4 + 64 * (b mod 4)) (b / 4 + 64 * (c mod 4))
       (c / 4 + 64 * (d mod 4)) (d / 4).
Proof.
move=> Ha Hb Hc Hd; rewrite (@shiftr_div _ 2 4) // /W4.
by Z.div_mod_to_equations; lia.
Qed.

Lemma shiftr4_W4 (a b c d : Z) :
  0 <= a < 256 -> 0 <= b < 256 -> 0 <= c < 256 -> 0 <= d < 256 ->
  Z.shiftr (W4 a b c d) 4
  = W4 (a / 16 + 16 * (b mod 16)) (b / 16 + 16 * (c mod 16))
       (c / 16 + 16 * (d mod 16)) (d / 16).
Proof.
move=> Ha Hb Hc Hd; rewrite (@shiftr_div _ 4 16) // /W4.
by Z.div_mod_to_equations; lia.
Qed.

(** The first line leaves in every byte the counts of its four pairs of
    bits. *)
Lemma count_pairs_W4 (a b c d : Z) :
  0 <= a < 256 -> 0 <= b < 256 -> 0 <= c < 256 -> 0 <= d < 256 ->
  uint32 (W4 a b c d - Z.land (Z.shiftr (W4 a b c d) 1) 0x55555555)
  = W4 (pairs_count a) (pairs_count b) (pairs_count c) (pairs_count d).
Proof.
move=> Ha Hb Hc Hd; rewrite shiftr1_W4 //.
have -> : 0x55555555 = W4 0x55 0x55 0x55 0x55 by [].
have M : 0 <= 0x55 < 256 by lia.
have Ra : 0 <= a / 2 + 128 * (b mod 2) < 256 by Z.div_mod_to_equations; lia.
have Rb : 0 <= b / 2 + 128 * (c mod 2) < 256 by Z.div_mod_to_equations; lia.
have Rc : 0 <= c / 2 + 128 * (d mod 2) < 256 by Z.div_mod_to_equations; lia.
have Eb : 0 <= b mod 2 < 2 by apply: Z.mod_pos_bound.
have Ec : 0 <= c mod 2 < 2 by apply: Z.mod_pos_bound.
have Ed : 0 <= d mod 2 < 2 by apply: Z.mod_pos_bound.
rewrite (land_W4 _ _ Ra Rb Rc M M M).
rewrite (pairs_mask Ha Eb) (pairs_mask Hb Ec) (pairs_mask Hc Ed).
have -> : W4 a b c d
          - W4 (Z.land (a / 2) 0x55) (Z.land (b / 2) 0x55)
               (Z.land (c / 2) 0x55) (Z.land (d / 2) 0x55)
          = W4 (pairs_count a) (pairs_count b) (pairs_count c) (pairs_count d).
  by rewrite /W4 /pairs_count; lia.
by rewrite uint32_W4 //; apply: pairs_count_range.
Qed.

(** The second line leaves in every byte the counts of its two nibbles. *)
Lemma count_nibbles_W4 (a b c d : Z) :
  0 <= a < 256 -> 0 <= b < 256 -> 0 <= c < 256 -> 0 <= d < 256 ->
  uint32 (Z.land (W4 a b c d) 0x33333333
          + Z.land (Z.shiftr (W4 a b c d) 2) 0x33333333)
  = W4 (nibbles_count a) (nibbles_count b) (nibbles_count c) (nibbles_count d).
Proof.
move=> Ha Hb Hc Hd; rewrite shiftr2_W4 //.
have -> : 0x33333333 = W4 0x33 0x33 0x33 0x33 by [].
have M : 0 <= 0x33 < 256 by lia.
have Ra : 0 <= a / 4 + 64 * (b mod 4) < 256 by Z.div_mod_to_equations; lia.
have Rb : 0 <= b / 4 + 64 * (c mod 4) < 256 by Z.div_mod_to_equations; lia.
have Rc : 0 <= c / 4 + 64 * (d mod 4) < 256 by Z.div_mod_to_equations; lia.
have Eb : 0 <= b mod 4 < 4 by apply: Z.mod_pos_bound.
have Ec : 0 <= c mod 4 < 4 by apply: Z.mod_pos_bound.
have Ed : 0 <= d mod 4 < 4 by apply: Z.mod_pos_bound.
rewrite (land_W4 _ _ Ha Hb Hc M M M) (land_W4 _ _ Ra Rb Rc M M M).
rewrite (nibbles_mask Ha Eb) (nibbles_mask Hb Ec) (nibbles_mask Hc Ed).
have -> : W4 (Z.land a 0x33) (Z.land b 0x33) (Z.land c 0x33) (Z.land d 0x33)
          + W4 (Z.land (a / 4) 0x33) (Z.land (b / 4) 0x33)
               (Z.land (c / 4) 0x33) (Z.land (d / 4) 0x33)
          = W4 (nibbles_count a) (nibbles_count b) (nibbles_count c)
               (nibbles_count d).
  by rewrite /W4 /nibbles_count; lia.
have [Na _] := nibbles_count_range Ha; have [Nb _] := nibbles_count_range Hb.
have [Nc _] := nibbles_count_range Hc; have [Nd _] := nibbles_count_range Hd.
by rewrite uint32_W4 //; lia.
Qed.

(** The third line leaves in every byte the count of its bits. *)
Lemma count_bytes_W4 (a b c d : Z) :
  0 <= a < 256 -> 0 <= b < 256 -> 0 <= c < 256 -> 0 <= d < 256 ->
  let v := W4 (nibbles_count a) (nibbles_count b) (nibbles_count c)
              (nibbles_count d) in
  Z.land (uint32 (v + Z.shiftr v 4)) 0xF0F0F0F
  = W4 (byte_count (nibbles_count a)) (byte_count (nibbles_count b))
       (byte_count (nibbles_count c)) (byte_count (nibbles_count d)).
Proof.
move=> Ha Hb Hc Hd /=.
have [Na Ma] := nibbles_count_range Ha; have [Nb Mb] := nibbles_count_range Hb.
have [Nc Mc] := nibbles_count_range Hc; have [Nd Md] := nibbles_count_range Hd.
move: (nibbles_count a) (nibbles_count b) (nibbles_count c) (nibbles_count d)
  Na Ma Nb Mb Nc Mc Nd Md => qa qb qc qd Na Ma Nb Mb Nc Mc Nd Md.
have Qa : 0 <= qa < 256 by lia.
have Qb : 0 <= qb < 256 by lia.
have Qc : 0 <= qc < 256 by lia.
have Qd : 0 <= qd < 256 by lia.
rewrite shiftr4_W4 //.
have -> : W4 qa qb qc qd
          + W4 (qa / 16 + 16 * (qb mod 16)) (qb / 16 + 16 * (qc mod 16))
               (qc / 16 + 16 * (qd mod 16)) (qd / 16)
          = W4 (qa + qa / 16 + 16 * (qb mod 16))
               (qb + qb / 16 + 16 * (qc mod 16))
               (qc + qc / 16 + 16 * (qd mod 16)) (qd + qd / 16 + 16 * 0).
  by rewrite /W4; lia.
have Ra : 0 <= qa + qa / 16 + 16 * (qb mod 16) < 256.
  by Z.div_mod_to_equations; lia.
have Rb : 0 <= qb + qb / 16 + 16 * (qc mod 16) < 256.
  by Z.div_mod_to_equations; lia.
have Rc : 0 <= qc + qc / 16 + 16 * (qd mod 16) < 256.
  by Z.div_mod_to_equations; lia.
have Rd : 0 <= qd + qd / 16 + 16 * 0 < 256 by Z.div_mod_to_equations; lia.
rewrite (uint32_W4 Ra Rb Rc Rd).
have -> : 0xF0F0F0F = W4 0x0F 0x0F 0x0F 0x0F by [].
have M : 0 <= 0x0F < 256 by lia.
rewrite (land_W4 _ _ Ra Rb Rc M M M).
have Eb : 0 <= qb mod 16 < 16 by apply: Z.mod_pos_bound.
have Ec : 0 <= qc mod 16 < 16 by apply: Z.mod_pos_bound.
have Ed : 0 <= qd mod 16 < 16 by apply: Z.mod_pos_bound.
have E0 : 0 <= 0 < 16 by lia.
by rewrite (byte_mask Qa Eb) (byte_mask Qb Ec) (byte_mask Qc Ed) (byte_mask Qd E0).
Qed.

(** The multiplication adds the four bytes up in the highest byte. *)
Lemma sum_bytes_W4 (a b c d : Z) :
  0 <= a < 16 -> 0 <= b < 16 -> 0 <= c < 16 -> 0 <= d < 16 ->
  Z.shiftr (uint32 (W4 a b c d * 0x1010101)) 24 = a + b + c + d.
Proof.
move=> Ha Hb Hc Hd; rewrite (@shiftr_div _ 24 16777216) // /uint32.
have -> : 2 ^ 32 = 4294967296 by [].
have -> : W4 a b c d * 0x1010101
          = a + 256 * (a + b) + 65536 * (a + b + c)
            + (a + b + c + d) * 16777216
            + (b + c + d + 256 * (c + d) + 65536 * d) * 4294967296.
  by rewrite /W4; lia.
have HL : 0 <= a + 256 * (a + b) + 65536 * (a + b + c)
               + (a + b + c + d) * 16777216 < 4294967296 by lia.
have Hl : 0 <= a + 256 * (a + b) + 65536 * (a + b + c) < 16777216 by lia.
by rewrite Z.mod_add // (Z.mod_small _ _ HL) Z.div_add // (Z.div_small _ _ Hl).
Qed.

Definition bits_of_byte (b : Z) : Z :=
  byte_count (nibbles_count (pairs_count b)).

Lemma CountBitsSet_W4 (a b c d : Z) :
  0 <= a < 256 -> 0 <= b < 256 -> 0 <= c < 256 -> 0 <= d < 256 ->
  CountBitsSet (W4 a b c d)
  = bits_of_byte a + bits_of_byte b + bits_of_byte c + bits_of_byte d.
Proof.
move=> Ha Hb Hc Hd; rewrite /CountBitsSet count_pairs_W4 //.
have Pa := pairs_count_range Ha; have Pb := pairs_count_range Hb.
have Pc := pairs_count_range Hc; have Pd := pairs_count_range Hd.
cbv zeta; rewrite (count_nibbles_W4 Pa Pb Pc Pd).
have := count_bytes_W4 Pa Pb Pc Pd; cbv zeta => ->.
have [Na _] := nibbles_count_range Pa; have [Nb _] := nibbles_count_range Pb.
have [Nc _] := nibbles_count_range Pc; have [Nd _] := nibbles_count_range Pd.
by rewrite sum_bytes_W4 //; apply: byte_count_range; lia.
Qed.

(** The number of bits set among the [n] lowest ones. *)
Definition bits_set (n : Z) (v : Z) : nat :=
  count (Z.testbit v) (GenericGF.zrange n).

Lemma bits_set_split (k m : nat) (lo hi : Z) :
  0 <= lo < 2 ^ Z.of_nat k ->
  bits_set (Z.of_nat (k + m)) (lo + 2 ^ Z.of_nat k * hi)
  = (bits_set (Z.of_nat k) lo + bits_set (Z.of_nat m) hi)%N.
Proof.
move=> Hlo; rewrite /bits_set /GenericGF.zrange !Nat2Z.id.
have Hk : 0 <= Z.of_nat k by lia.
rewrite iotaD map_cat count_cat add0n; congr addn.
  apply: eq_in_count => x /mapP[i]; rewrite mem_iota add0n => /andP[_ /ltP Hi] ->.
  have Hi0 : 0 <= Z.of_nat i by lia.
  rewrite (testbit_split _ Hk Hlo Hi0).
  by have /Z.ltb_lt -> : Z.of_nat i < Z.of_nat k by lia.
rewrite -[k in iota k m]addn0 iotaDl -map_comp !count_map.
apply: eq_in_count => i _ /=.
have Hi0 : 0 <= Z.of_nat (k + i) by lia.
rewrite (testbit_split _ Hk Hlo Hi0).
have /Z.ltb_ge -> : Z.of_nat k <= Z.of_nat (k + i) by rewrite -plusE; lia.
by congr (Z.testbit _ _); rewrite -plusE; lia.
Qed.

Lemma bits_set_W4 (a b c d : Z) :
  0 <= a < 256 -> 0 <= b < 256 -> 0 <= c < 256 ->
  bits_set 32 (W4 a b c d)
  = (bits_set 8 a + (bits_set 8 b + (bits_set 8 c + bits_set 8 d)))%N.
Proof.
move=> Ha Hb Hc; rewrite /W4.
have E : 256 = 2 ^ Z.of_nat 8 by [].
rewrite E in Ha Hb Hc *.
by rewrite (@bits_set_split 8 24 _ _ Ha) (@bits_set_split 8 16 _ _ Hb)
           (@bits_set_split 8 8 _ _ Hc).
Qed.

Lemma bits_of_byte_count (b : Z) :
  0 <= b < 256 -> bits_of_byte b = Z.of_nat (bits_set 8 b).
Proof.
move=> Hb; apply/Z.eqb_eq.
have H : all (fun b => bits_of_byte b =? Z.of_nat (bits_set 8 b))
           (GenericGF.zrange 256) by vm_compute.
exact: (zrangeP H).
Qed.

Lemma W4_bytes (v : Z) :
  0 <= v < 2 ^ 32 ->
  exists a b c d : Z,
    [/\ v = W4 a b c d, 0 <= a < 256, 0 <= b < 256, 0 <= c < 256
      & 0 <= d < 256].
Proof.
move=> Hv.
exists (v mod 256), ((v / 256) mod 256), ((v / 65536) mod 256), (v / 16777216).
have E : 2 ^ 32 = 4294967296 by [].
by rewrite E in Hv; rewrite /W4; split; Z.div_mod_to_equations; lia.
Qed.

End CountBits.

(** ** What the functions compute *)

Section BitHacksSpec.

Import BitHacks.

Lemma Reverse_bit (v i : Z) :
  0 <= i < 32 -> Z.testbit (Reverse v) i = Z.testbit v (31 - i).
Proof.
by move=> Hi; rewrite testbit_Reverse ?bit_reverse_mirror //; lia.
Qed.

Lemma swap_blocks_nonneg (s m v : Z) : 0 <= m -> 0 <= swap_blocks s m v.
Proof.
move=> Hm; rewrite /swap_blocks; apply/Z.lor_nonneg; split.
  by apply/Z.land_nonneg; right.
by rewrite /uint32; have := Z.mod_pos_bound (Z.shiftl (Z.land v m) s) (2 ^ 32); lia.
Qed.

Lemma Reverse_range (v : Z) : 0 <= Reverse v < 2 ^ 32.
Proof.
have H0 : 0 <= Reverse v.
  rewrite ReverseE /swap_halves; apply/Z.lor_nonneg; split.
    by apply/Z.shiftr_nonneg; apply: swap_blocks_nonneg.
  by rewrite /uint32; have := Z.mod_pos_bound
    (Z.shiftl (swap_blocks 8 16711935 (swap_blocks 4 252645135
       (swap_blocks 2 858993459 (swap_blocks 1 1431655765 v)))) 16) (2 ^ 32); lia.
split=> //; apply: below_pow2 => // i Hi.
have Hi0 : 0 <= i by lia.
rewrite (testbit_Reverse _ Hi0) /bit_reverse /bit_halves /bit_swap.
have -> : (i <? 32) = false by apply/Z.ltb_ge.
have -> : (i + 16 <? 32) = false by apply/Z.ltb_ge; lia.
have -> : Z.testbit 16711935 (i + 16) = false.
  by apply: (@testbit_above 32); lia.
by rewrite andbF.
Qed.

(** X13: [Reverse] turns the 32 bits of a word around: bit [i] of the result is
    bit [31 - i] of the argument, and the result is a 32-bit word. *)
Theorem Reverse_mirrors_bits (v : Z) :
  0 <= Reverse v < 2 ^ 32 /\
  forall i, 0 <= i < 32 -> Z.testbit (Reverse v) i = Z.testbit v (31 - i).
Proof. by split; [exact: Reverse_range | move=> i; exact: Reverse_bit]. Qed.

(** X14: Reversing twice gives the word back. *)
Theorem Reverse_involutive (v : Z) :
  0 <= v < 2 ^ 32 -> Reverse (Reverse v) = v.
Proof.
move=> Hv; apply: Z.bits_inj' => i Hi.
case: (Z.lt_ge_cases i 32) => Hi32.
  have Hi31 : 0 <= i < 32 by lia.
  have Hj31 : 0 <= 31 - i < 32 by lia.
  rewrite (Reverse_bit _ Hi31) (Reverse_bit _ Hj31).
  by have -> : 31 - (31 - i) = i by lia.
have H32 : 0 <= 32 <= i by lia.
by rewrite (testbit_above H32 (Reverse_range (Reverse v))) (testbit_above H32 Hv).
Qed.

Lemma trailing_zeros_found (v : Z) :
  0 < v < 2 ^ 32 -> v <> 2 ^ 31 ->
  exists k : Z,
    [/\ 0 <= k < 32, NumberOfTrailingZeros v = Some k, Z.testbit v k = true
      & forall i, 0 <= i < k -> Z.testbit v i = false].
Proof.
move=> Hv Hne; have [k [Hk Hl Hb Hz]] := lowest_bit Hv.
have Hv' : 0 <= v < 2 ^ 32 by lia.
by exists k; split=> //; rewrite NumberOfTrailingZerosE // Hl trailing_count_pow2.
Qed.

(** X12: For every word but [0x80000000], where the negation of line 225
    overflows, [NumberOfTrailingZeros] returns the index of the lowest bit
    that is set, and 32 for the word 0. *)
Theorem NumberOfTrailingZeros_lowest_bit (v : Z) :
  0 <= v < 2 ^ 32 -> v <> 2 ^ 31 ->
  exists c : Z,
    [/\ NumberOfTrailingZeros v = Some c,
        v = 0 -> c = 32
      & 0 < v ->
        [/\ 0 <= c < 32, Z.testbit v c = true
          & forall i, 0 <= i < c -> Z.testbit v i = false]].
Proof.
move=> Hv Hne; case: (Z.eq_dec v 0) => [->|Hv0].
  by exists 32; split=> //; lia.
have Hv1 : 0 < v < 2 ^ 32 by lia.
have [k [Hk Hc Hb Hz]] := trailing_zeros_found Hv1 Hne.
by exists k; split.
Qed.

(** X11: [NumberOfLeadingZeros] returns 32 for the word 0 and otherwise the
    [n] with [2^(31-n) <= x < 2^(32-n)]: the number of zero bits above the
    highest bit that is set. *)
Theorem NumberOfLeadingZeros_bounds (x : Z) :
  0 <= x < 2 ^ 32 ->
  (x = 0 -> NumberOfLeadingZeros x = 32) /\
  (0 < x ->
   0 <= NumberOfLeadingZeros x <= 31 /\
   2 ^ (31 - NumberOfLeadingZeros x) <= x < 2 ^ (32 - NumberOfLeadingZeros x)).
Proof.
move=> Hx; split=> [->|Hx0] //.
have Hx1 : 0 < x < 2 ^ 32 by lia.
exact: (@NumberOfLeadingZeros_ind x
          (fun n => 0 <= n <= 31 /\ 2 ^ (31 - n) <= x < 2 ^ (32 - n)) Hx1).
Qed.

(** X16: [HighestBitSet] is the integer logarithm to base 2, as its comment
    says; for the word 0 it returns 0. *)
Theorem HighestBitSet_is_log2 (v : Z) :
  0 <= v < 2 ^ 32 -> HighestBitSet v = Z.log2 v.
Proof.
move=> Hv; case: (Z.eq_dec v 0) => [->|Hv0]; first by [].
have Hv1 : 0 < v < 2 ^ 32 by lia.
apply: (@HighestBitSet_ind v (fun r => r = Z.log2 v) Hv1) => r Hr Hp.
by symmetry; apply: Z.log2_unique; [lia | rewrite -Z.add_1_r].
Qed.

(** X17: The number of leading zeros and the index of the highest bit add up
    to 31. *)
Theorem leading_zeros_highest_bit (x : Z) :
  0 < x < 2 ^ 32 -> NumberOfLeadingZeros x + HighestBitSet x = 31.
Proof.
move=> Hx.
apply: (@NumberOfLeadingZeros_ind x (fun n => n + HighestBitSet x = 31) Hx).
move=> n Hn [Hlo Hhi].
apply: (@HighestBitSet_ind x (fun r => n + r = 31) Hx) => r Hr [Hlo' Hhi'].
have H1 : 31 - n < r + 1.
  by apply/(Z.pow_lt_mono_r_iff 2 (31 - n) (r + 1)); lia.
have H2 : r < 32 - n.
  by apply/(Z.pow_lt_mono_r_iff 2 r (32 - n)); lia.
lia.
Qed.

Lemma testbit_le (w j : Z) : 0 <= w -> Z.testbit w j = true -> 2 ^ j <= w.
Proof.
move=> Hw Hb; case: (Z.lt_ge_cases w (2 ^ j)) => // Hlt.
by move: Hb; rewrite testbit_small.
Qed.

(** X18: For every word but [0x80000000], where [NumberOfTrailingZeros] has
    no defined result, the trailing zeros of the word are the leading zeros
    of the reversed word. *)
Theorem NumberOfTrailingZeros_Reverse (v : Z) :
  0 <= v < 2 ^ 32 -> v <> 2 ^ 31 ->
  NumberOfTrailingZeros v = Some (NumberOfLeadingZeros (Reverse v)).
Proof.
move=> Hv Hne; case: (Z.eq_dec v 0) => [->|Hv0] //.
have Hv1 : 0 < v < 2 ^ 32 by lia.
have [k [Hk -> Hb Hz]] := trailing_zeros_found Hv1 Hne.
congr Some.
have Hr := Reverse_range v.
have Hbit : Z.testbit (Reverse v) (31 - k) = true.
  have Hk31 : 0 <= 31 - k < 32 by lia.
  rewrite (Reverse_bit _ Hk31).
  by have -> : 31 - (31 - k) = k by lia.
have Hlo : 2 ^ (31 - k) <= Reverse v by apply: testbit_le => //; lia.
have Hhi : Reverse v < 2 ^ (32 - k).
  apply: below_pow2; try lia; move=> i Hi.
  case: (Z.lt_ge_cases i 32) => Hi32; last first.
    have H32 : 0 <= 32 <= i by lia.
    by rewrite (testbit_above H32 Hr).
  have Hi31 : 0 <= i < 32 by lia.
  by rewrite (Reverse_bit _ Hi31); apply: Hz; lia.
have Hpos : 0 < Reverse v by have := Z.pow_pos_nonneg 2 (31 - k); lia.
have Hr1 : 0 < Reverse v < 2 ^ 32 by lia.
have Hlog : Z.log2 (Reverse v) = 31 - k.
  apply: Z.log2_unique; first lia.
  by have -> : Z.succ (31 - k) = 32 - k by lia.
by rewrite (NumberOfLeadingZeros_log2 Hr1) Hlog; lia.
Qed.

(** X15: [CountBitsSet] returns the number of bits of the word that are set. *)
Theorem CountBitsSet_counts (v : Z) :
  0 <= v < 2 ^ 32 -> CountBitsSet v = Z.of_nat (bits_set 32 v).
Proof.
move=> Hv; have [a [b [c [d [-> Ha Hb Hc Hd]]]]] := W4_bytes Hv.
rewrite CountBitsSet_W4 // bits_set_W4 // !bits_of_byte_count //.
by rewrite -!plusE; lia.
Qed.

End BitHacksSpec.

Lemma NumberOfTrailingZeros_lowest_bit_witness :
  exists c : Z,
    [/\ BitHacks.NumberOfTrailingZeros 40 = Some c,
        40 = 0 -> c = 32
      & 0 < 40 ->
        [/\ 0 <= c < 32, Z.testbit 40 c = true
          & forall i, 0 <= i < c -> Z.testbit 40 i = false]].
Proof.
have Hr : 0 <= 40 < 2 ^ 32 by lia.
have Hne : 40 <> 2 ^ 31 by lia.
exact: (NumberOfTrailingZeros_lowest_bit Hr Hne).
Defined.

Lemma NumberOfLeadingZeros_bounds_witness :
  0 <= BitHacks.NumberOfLeadingZeros 40 <= 31 /\
  2 ^ (31 - BitHacks.NumberOfLeadingZeros 40) <= 40
  < 2 ^ (32 - BitHacks.NumberOfLeadingZeros 40).
Proof.
have Hr : 0 <= 40 < 2 ^ 32 by lia.
have H0 : 0 < 40 by lia.
exact: (proj2 (NumberOfLeadingZeros_bounds Hr) H0).
Defined.

Lemma HighestBitSet_is_log2_witness : BitHacks.HighestBitSet 40 = Z.log2 40.
Proof.
have Hr : 0 <= 40 < 2 ^ 32 by lia.
exact: (HighestBitSet_is_log2 Hr).
Defined.

Lemma leading_zeros_highest_bit_witness :
  BitHacks.NumberOfLeadingZeros 40 + BitHacks.HighestBitSet 40 = 31.
Proof.
have Hr : 0 < 40 < 2 ^ 32 by lia.
exact: (leading_zeros_highest_bit Hr).
Defined.

Lemma Reverse_involutive_witness :
  BitHacks.Reverse (BitHacks.Reverse 40) = 40.
Proof.
have Hr : 0 <= 40 < 2 ^ 32 by lia.
exact: (Reverse_involutive Hr).
Defined.

Lemma NumberOfTrailingZeros_Reverse_witness :
  BitHacks.NumberOfTrailingZeros 40
  = Some (BitHacks.NumberOfLeadingZeros (BitHacks.Reverse 40)).
Proof.
have Hr : 0 <= 40 < 2 ^ 32 by lia.
have Hne : 40 <> 2 ^ 31 by lia.
exact: (NumberOfTrailingZeros_Reverse Hr Hne).
Defined.

Lemma CountBitsSet_counts_witness :
  BitHacks.CountBitsSet 0xF00F0181 = Z.of_nat (bits_set 32 0xF00F0181).
Proof.
have Hr : 0 <= 0xF00F0181 < 2 ^ 32 by lia.
exact: (CountBitsSet_counts Hr).
Defined.
